(** * Calendar Satisfaction Problem solver ([csp_solver.py])

    A shallow embedding of the solver: node consistency, the AC-3 variant
    and the recursive backtracker, over a store of Python objects so that
    aliasing between the caller's candidate set and the per-meeting
    domains is visible. *)

From Stdlib Require Import ZArith List Bool Lia.
From stdpp Require Import base numbers list.
Import ListNotations.

Open Scope Z_scope.
Open Scope nat_scope.

(** ** Values, exceptions, outcomes *)

(** A datetime, as its position on the time line. Every datetime is truthy. *)
Abbreviation datetime := Z (only parsing).

Inductive exn : Type := KeyError | IndexError | TypeError | ValueError.

(** What a call does: return a value, raise, or (for the fuelled loops of
    this model only) run out of fuel. *)
Inductive outcome (A : Type) : Type :=
| Ok (a : A)
| Raise (e : exn)
| Timeout.
Arguments Ok {A} a.
Arguments Raise {A} e.
Arguments Timeout {A}.

Definition obind {A B} (o : outcome A) (k : A -> outcome B) : outcome B :=
  match o with
  | Ok a => k a
  | Raise e => Raise e
  | Timeout => Timeout
  end.

(** ** The constraint collaborator *)

(** Modelled from the spec: the [DateConstraint] class of
    [date_constraints.py], which the solver imports. A constraint is
    unary (one variable index [L_VAL], arity 1, [R_VAL] a non-integer
    sentinel) or binary (two indices, arity 2); its satisfaction test is a
    pure predicate over one or two datetimes. Variable indices count the
    meetings from 0. *)
Inductive DateConstraint : Type :=
| Unary (l_val : nat) (test : datetime -> bool)
| Binary (l_val r_val : nat) (test : datetime -> datetime -> bool).

Definition arity (c : DateConstraint) : nat :=
  match c with Unary _ _ => 1 | Binary _ _ _ => 2 end.

Definition L_VAL (c : DateConstraint) : nat :=
  match c with Unary l _ => l | Binary l _ _ => l end.

(** [None] stands for the non-integer sentinel of a unary constraint. *)
Definition R_VAL (c : DateConstraint) : option nat :=
  match c with Unary _ _ => None | Binary _ r _ => Some r end.

(** [is_satisfied_by_values(v1[, v2])]. The solver gives one value to a
    constraint of arity 1 and two to the constraint of an arc; what a
    binary constraint answers to one value is never asked. *)
Definition is_satisfied_by_values (c : DateConstraint)
    (v1 : datetime) (v2 : option datetime) : bool :=
  match c, v2 with
  | Unary _ test, _ => test v1
  | Binary _ _ test, Some v => test v1 v
  | Binary _ _ _, None => false
  end.

(** [is_satisfied_by_assignment(assignment)]: an unassigned referenced slot
    satisfies the constraint; an index outside the vector is an error. *)
Definition is_satisfied_by_assignment (c : DateConstraint)
    (assignment : list (option datetime)) : outcome bool :=
  match c with
  | Unary l test =>
      match assignment !! l with
      | None => Raise IndexError
      | Some None => Ok true
      | Some (Some d) => Ok (test d)
      end
  | Binary l r test =>
      match assignment !! l with
      | None => Raise IndexError
      | Some x =>
          match assignment !! r with
          | None => Raise IndexError
          | Some y =>
              match x, y with
              | Some d1, Some d2 => Ok (test d1 d2)
              | _, _ => Ok true
              end
          end
      end
  end.

(** [get_reverse()]: the same relation with [L_VAL] and [R_VAL] swapped.
    Only binary constraints have a reverse; the solver asks for it under
    [arity() > 1]. *)
Definition get_reverse (c : DateConstraint) : DateConstraint :=
  match c with
  | Unary l test => Unary l test
  | Binary l r test => Binary r l (fun a b => test b a)
  end.

(** ** The store *)

(** A Python set is the duplicate-free list of its elements in iteration
    order. The second form is the [list[set[datetime]]] a caller may pass
    as [date_range]. *)
Inductive pyobj : Type :=
| PySet (elts : list datetime)
| PyList (items : list (list datetime)).

Abbreviation ref := nat (only parsing).
Abbreviation heap := (list pyobj) (only parsing).

(** Equality of stores, as a test. *)
Fixpoint list_eqb {A} (eqb : A -> A -> bool) (l1 l2 : list A) : bool :=
  match l1, l2 with
  | [], [] => true
  | x :: l1', y :: l2' => eqb x y && list_eqb eqb l1' l2'
  | _, _ => false
  end.

Definition pyobj_eqb (o1 o2 : pyobj) : bool :=
  match o1, o2 with
  | PySet s1, PySet s2 => list_eqb Z.eqb s1 s2
  | PyList l1, PyList l2 => list_eqb (list_eqb Z.eqb) l1 l2
  | _, _ => false
  end.

Definition store_eqb (h1 h2 : heap) : bool := list_eqb pyobj_eqb h1 h2.

(** State and exception monad: the store survives a raise. *)
Definition M (A : Type) : Type := heap -> outcome A * heap.

Definition ret {A} (a : A) : M A := fun h => (Ok a, h).
Definition raise {A} (e : exn) : M A := fun h => (Raise e, h).
Definition timeout {A} : M A := fun h => (Timeout, h).
Definition bind {A B} (m : M A) (k : A -> M B) : M B :=
  fun h =>
    match m h with
    | (Ok a, h') => k a h'
    | (Raise e, h') => (Raise e, h')
    | (Timeout, h') => (Timeout, h')
    end.
Definition lift {A} (o : outcome A) : M A := fun h => (o, h).

Declare Scope py_scope.
Delimit Scope py_scope with py.
Notation "x <- m ;; k" := (bind m (fun x => k))
  (at level 100, m at next level, right associativity) : py_scope.
Notation "m ;;; k" := (bind m (fun _ => k))
  (at level 100, right associativity) : py_scope.
Open Scope py_scope.

(** References held by the program always point into the store; the
    default is never read. *)
Definition deref (r : ref) : M pyobj :=
  fun h => (Ok (default (PySet []) (h !! r)), h).

Definition alloc (o : pyobj) : M ref :=
  fun h => (Ok (length h), h ++ [o]).

(** [set(dom)]: a set copies; a list is hashed element by element, and a
    set element is unhashable. *)
Definition set_of (o : pyobj) : outcome (list datetime) :=
  match o with
  | PySet s => Ok s
  | PyList [] => Ok []
  | PyList (_ :: _) => Raise TypeError
  end.

(** The datetimes a [for] over the object yields. A list is only iterated
    where [set_of] accepted it, that is when it is empty. *)
Definition py_iter (o : pyobj) : list datetime :=
  match o with
  | PySet s => s
  | PyList _ => []
  end.

Definition mem (d : datetime) (s : list datetime) : bool :=
  existsb (Z.eqb d) s.

Definition discard (d : datetime) (s : list datetime) : list datetime :=
  List.filter (fun x => negb (Z.eqb d x)) s.

(** [s.remove(d)] on the set at [r]: [KeyError] when [d] is absent. The
    solver removes from domains only, which are sets by then. *)
Definition set_remove (r : ref) (d : datetime) : M unit :=
  fun h =>
    match h !! r with
    | Some (PySet s) =>
        if mem d s then (Ok tt, <[r := PySet (discard d s)]> h)
        else (Raise KeyError, h)
    | _ => (Raise TypeError, h)
    end.

(** ** Node consistency *)

(** [dom_copy = [set(dom) for dom in domains]] *)
Fixpoint copy_domains (domains : list ref) : M (list ref) :=
  match domains with
  | [] => ret []
  | dom :: rest =>
      o <- deref dom ;;
      s <- lift (set_of o) ;;
      r <- alloc (PySet s) ;;
      rs <- copy_domains rest ;;
      ret (r :: rs)
  end.

(** [for constraint in constraints: ...] for one date of one domain. *)
Fixpoint nc_constraints (current_index : nat) (current_dom : ref)
    (date : datetime) (constraints : list DateConstraint) : M unit :=
  match constraints with
  | [] => ret tt
  | constraint :: rest =>
      (if (arity constraint =? 1) && (L_VAL constraint =? current_index)
       then
         if negb (is_satisfied_by_values constraint date None)
         then set_remove current_dom date
         else ret tt
       else ret tt) ;;;
      nc_constraints current_index current_dom date rest
  end.

(** [for date in dom: ...] *)
Fixpoint nc_dates (current_index : nat) (current_dom : ref)
    (dates : list datetime) (constraints : list DateConstraint) : M unit :=
  match dates with
  | [] => ret tt
  | date :: rest =>
      nc_constraints current_index current_dom date constraints ;;;
      nc_dates current_index current_dom rest constraints
  end.

(** [for current_index, dom in enumerate(domains): ...]; [todo] is what
    is left to enumerate, [domains] the list being updated in place. *)
Fixpoint nc_loop (todo : list ref) (current_index : nat)
    (dom_copy domains : list ref) (constraints : list DateConstraint)
    : M (list ref) :=
  match todo with
  | [] => ret domains
  | dom :: rest =>
      match dom_copy !! current_index with
      | None => raise IndexError
      | Some current_dom =>
          o <- deref dom ;;
          nc_dates current_index current_dom (py_iter o) constraints ;;;
          nc_loop rest (S current_index) dom_copy
                  (<[current_index := current_dom]> domains) constraints
      end
  end.

(** [node_consistency(domains, constraints)]; the result is the content of
    the list [domains] after the call. *)
Definition node_consistency (domains : list ref)
    (constraints : list DateConstraint) : M (list ref) :=
  dom_copy <- copy_domains domains ;;
  nc_loop domains 0 dom_copy domains constraints.

(** ** Arcs *)

Record Arc : Type := mkArc {
  CONSTRAINT : DateConstraint;
  TAIL : nat;
  HEAD : nat
}.

(** [Arc.__init__] *)
Definition Arc_init (constraint : DateConstraint) : outcome Arc :=
  match R_VAL constraint with
  | Some r => Ok (mkArc constraint (L_VAL constraint) r)
  | None => Raise ValueError
  end.

(** ** Arc consistency *)

Section Solver.

(** The collaborator's [__eq__] on constraints. *)
Variable constraint_eq : DateConstraint -> DateConstraint -> bool.

(** Which element [arcs.pop()] yields: an index into the worklist (kept in
    insertion order), which may depend on the iteration and on the
    worklist. Python leaves the choice open. *)
Variable pop_choice : nat -> list Arc -> nat.

(** [Arc.__eq__] *)
Definition Arc_eqb (self other : Arc) : bool :=
  constraint_eq (CONSTRAINT self) (CONSTRAINT other)
  && (TAIL self =? TAIL other) && (HEAD self =? HEAD other).

(** [arcs.add(a)] *)
Definition arcs_add (a : Arc) (arcs : list Arc) : list Arc :=
  if existsb (fun b => Arc_eqb b a) arcs then arcs else arcs ++ [a].

(** [arcs.pop()] *)
Definition arcs_pop (clock : nat) (arcs : list Arc) : option (Arc * list Arc) :=
  let i := pop_choice clock arcs mod length arcs in
  match arcs !! i with
  | Some a => Some (a, delete i arcs)
  | None => None
  end.

(** The initial worklist: both directions of every constraint of arity > 1. *)
Fixpoint initial_arcs (constraints : list DateConstraint) (arcs : list Arc)
    : outcome (list Arc) :=
  match constraints with
  | [] => Ok arcs
  | constraint :: rest =>
      if 1 <? arity constraint
      then
        obind (Arc_init constraint) (fun a1 =>
        obind (Arc_init (get_reverse constraint)) (fun a2 =>
        initial_arcs rest (arcs_add a2 (arcs_add a1 arcs))))
      else initial_arcs rest arcs
  end.

(** After a revision that removed something: [arcs.add(Arc(constraint))]
    for every constraint of arity > 1 whose [R_VAL] is the revised tail. *)
Fixpoint requeue (constraints : list DateConstraint) (tail : nat)
    (arcs : list Arc) : outcome (list Arc) :=
  match constraints with
  | [] => Ok arcs
  | constraint :: rest =>
      if (1 <? arity constraint)
         && bool_decide (R_VAL constraint = Some tail)
      then obind (Arc_init constraint) (fun a => requeue rest tail (arcs_add a arcs))
      else requeue rest tail arcs
  end.

(** [for tail in tail_dom_copy: ...]; the head domain is read live. *)
Fixpoint revise_loop (constraint : DateConstraint) (tail_dom head_dom : ref)
    (tail_dom_copy : list datetime) (removed : bool) : M bool :=
  match tail_dom_copy with
  | [] => ret removed
  | tail :: rest =>
      o <- deref head_dom ;;
      if existsb (fun head => is_satisfied_by_values constraint tail (Some head))
                 (py_iter o)
      then revise_loop constraint tail_dom head_dom rest removed
      else
        set_remove tail_dom tail ;;;
        revise_loop constraint tail_dom head_dom rest true
  end.

(** [inconsistent_val_removal(doms, current_arc)] *)
Definition inconsistent_val_removal (doms : list ref) (current_arc : Arc)
    : M bool :=
  match doms !! TAIL current_arc with
  | None => raise IndexError
  | Some tail_dom =>
      match doms !! HEAD current_arc with
      | None => raise IndexError
      | Some head_dom =>
          o <- deref tail_dom ;;
          revise_loop (CONSTRAINT current_arc) tail_dom head_dom (py_iter o) false
      end
  end.

(** The body of [while arcs: ...] once [current_arc] is popped. *)
Definition ac_turn (doms : list ref) (constraints : list DateConstraint)
    (current_arc : Arc) (arcs : list Arc) : M (list Arc) :=
  removed <- inconsistent_val_removal doms current_arc ;;
  if (removed : bool)
  then lift (requeue constraints (TAIL current_arc) arcs)
  else ret arcs.

(** One turn of [while arcs: ...] on a non-empty worklist. *)
Definition ac_step (clock : nat) (doms : list ref)
    (constraints : list DateConstraint) (arcs : list Arc) : M (list Arc) :=
  match arcs_pop clock arcs with
  | None => ret arcs
  | Some (current_arc, arcs') => ac_turn doms constraints current_arc arcs'
  end.

Fixpoint ac_loop (fuel : nat) (doms : list ref)
    (constraints : list DateConstraint) (arcs : list Arc) : M unit :=
  match arcs with
  | [] => ret tt
  | _ :: _ =>
      match fuel with
      | 0 => timeout
      | S fuel' =>
          arcs' <- ac_step fuel' doms constraints arcs ;;
          ac_loop fuel' doms constraints arcs'
      end
  end.

(** Every way the loop can go: at each turn, every arc [pop()] may yield. *)
Fixpoint ac_loop_any (fuel : nat) (doms : list ref)
    (constraints : list DateConstraint) (arcs : list Arc) (h : heap)
    : list (outcome unit * heap) :=
  match arcs with
  | [] => [(Ok tt, h)]
  | _ :: _ =>
      match fuel with
      | 0 => [(Timeout, h)]
      | S fuel' =>
          flat_map
            (fun i =>
               match arcs !! i with
               | None => []
               | Some current_arc =>
                   match ac_turn doms constraints current_arc (delete i arcs) h with
                   | (Ok arcs', h1) => ac_loop_any fuel' doms constraints arcs' h1
                   | (Raise e, h1) => [(Raise e, h1)]
                   | (Timeout, h1) => [(Timeout, h1)]
                   end
               end)
            (seq 0 (length arcs))
      end
  end.

(** The number of set elements in the store. *)
Definition store_size (h : heap) : nat :=
  list_sum (map (fun o => length (py_iter o)) h).

(** Enough turns for the worklist to run dry: every turn takes an arc out,
    and puts arcs back only after it removed an element. *)
Definition ac_fuel (h : heap) (constraints : list DateConstraint)
    (arcs : list Arc) : nat :=
  store_size h * S (length constraints) + length arcs.

(** [ac_preprocessing(doms, constraints)] *)
Definition ac_preprocessing (doms : list ref)
    (constraints : list DateConstraint) : M unit :=
  arcs <- lift (initial_arcs constraints []) ;;
  fun h => ac_loop (ac_fuel h constraints arcs) doms constraints arcs h.

(** [arc_consistency(domains, constraints)] *)
Definition arc_consistency (domains : list ref)
    (constraints : list DateConstraint) : M unit :=
  ac_preprocessing domains constraints.

(** Every way [arc_consistency] can go. *)
Definition arc_consistency_any (domains : list ref)
    (constraints : list DateConstraint) (h : heap)
    : list (outcome unit * heap) :=
  match initial_arcs constraints [] with
  | Ok arcs =>
      ac_loop_any (ac_fuel h constraints arcs) domains constraints arcs h
  | Raise e => [(Raise e, h)]
  | Timeout => [(Timeout, h)]
  end.

(** ** Backtracking search *)

(** The assignment vector, with the record of every tentative assignment
    [assignments[current_var] = dom] made so far (newest first). *)
Record search_state : Type := mkSearch {
  assignments : list (option datetime);
  tentative : list (nat * datetime)
}.

Definition search_result : Type := option (list (option datetime)).

(** The first slot that is not truthy, which is also
    [assignments.index(assignment)] for it. *)
Fixpoint first_unassigned (a : list (option datetime)) : option nat :=
  match a with
  | [] => None
  | Some _ :: rest => S <$> first_unassigned rest
  | None :: _ => Some 0
  end.

(** [for constraint in constraints: ...], left at the first failure. *)
Fixpoint check_constraints (constraints : list DateConstraint)
    (a : list (option datetime)) : outcome bool :=
  match constraints with
  | [] => Ok true
  | constraint :: rest =>
      obind (is_satisfied_by_assignment constraint a) (fun ok =>
        if (ok : bool) then check_constraints rest a else Ok false)
  end.

Definition assign (current_var : nat) (dom : datetime) (st : search_state)
    : search_state :=
  mkSearch (<[current_var := Some dom]> (assignments st))
           ((current_var, dom) :: tentative st).

Definition unassign (current_var : nat) (st : search_state) : search_state :=
  mkSearch (<[current_var := None]> (assignments st)) (tentative st).

(** A returned list is truthy unless it is empty. *)
Definition truthy (result : search_result) : bool :=
  match result with
  | Some (_ :: _) => true
  | _ => false
  end.

(** [for dom in doms[current_var]: ...], with [recurse] the recursive call. *)
Fixpoint try_values
    (recurse : search_state -> outcome search_result * search_state)
    (constraints : list DateConstraint) (current_var : nat)
    (values : list datetime) (st : search_state)
    : outcome search_result * search_state :=
  match values with
  | [] => (Ok None, st)
  | dom :: rest =>
      let st1 := assign current_var dom st in
      match check_constraints constraints (assignments st1) with
      | Ok true =>
          match recurse st1 with
          | (Ok result, st2) =>
              if truthy result then (Ok result, st2)
              else try_values recurse constraints current_var rest
                              (unassign current_var st2)
          | (Raise e, st2) => (Raise e, st2)
          | (Timeout, st2) => (Timeout, st2)
          end
      | Ok false =>
          try_values recurse constraints current_var rest
                     (unassign current_var (unassign current_var st1))
      | Raise e => (Raise e, st1)
      | Timeout => (Timeout, st1)
      end
  end.

(** [recursive_csp_backtracker(assignments, vars, doms, constraints)]; the
    store [h] is only read. *)
Fixpoint recursive_csp_backtracker (fuel : nat) (h : heap) (doms : list ref)
    (constraints : list DateConstraint) (st : search_state)
    : outcome search_result * search_state :=
  match first_unassigned (assignments st) with
  | None => (Ok (Some (assignments st)), st)
  | Some current_var =>
      match fuel with
      | 0 => (Timeout, st)
      | S fuel' =>
          match doms !! current_var with
          | None => (Raise IndexError, st)
          | Some r =>
              try_values (recursive_csp_backtracker fuel' h doms constraints)
                         constraints current_var
                         (py_iter (default (PySet []) (h !! r))) st
          end
      end
  end.

(** ** The entry point *)

(** [csp_backtracker(vars, doms, date_constraints)] inside
    [solve(n_meetings, date_range, constraints)]: the domains passed in are
    replaced by [n_meetings] references to [date_range]. The result comes
    with the record of tentative assignments. *)
Definition csp_backtracker (n_meetings : nat) (date_range : ref) (vars : nat)
    (date_constraints : list DateConstraint)
    : M (search_result * list (nat * datetime)) :=
  let doms := replicate n_meetings date_range in
  doms <- node_consistency doms date_constraints ;;
  arc_consistency doms date_constraints ;;;
  fun h =>
    let st := mkSearch (replicate vars None) [] in
    match recursive_csp_backtracker vars h doms date_constraints st with
    | (Ok result, st') => (Ok (result, tentative st'), h)
    | (Raise e, _) => (Raise e, h)
    | (Timeout, _) => (Timeout, h)
    end.

Definition solve_traced (n_meetings : nat) (date_range : ref)
    (constraints : list DateConstraint)
    : M (search_result * list (nat * datetime)) :=
  csp_backtracker n_meetings date_range n_meetings constraints.

(** [solve(n_meetings, date_range, constraints)], with [date_range] the
    caller's object in the store. *)
Definition solve (n_meetings : nat) (date_range : ref)
    (constraints : list DateConstraint) : M search_result :=
  r <- solve_traced n_meetings date_range constraints ;;
  ret (fst r).

End Solver.

(** ** Concrete collaborators for the examples *)

(** An [__eq__] that compares arity and variables. On a collection with at
    most one constraint per ordered pair of variables it agrees with
    structural equality. *)
Definition same_variables (c1 c2 : DateConstraint) : bool :=
  (arity c1 =? arity c2) && (L_VAL c1 =? L_VAL c2)
  && bool_decide (R_VAL c1 = R_VAL c2).

(** [pop()] yields the arcs in insertion order. *)
Definition in_insertion_order : nat -> list Arc -> nat := fun _ _ => 0.

(** Constraints of the examples. *)
Definition strictly_before (l r : nat) : DateConstraint := Binary l r Z.ltb.
Definition same_date (l r : nat) : DateConstraint := Binary l r Z.eqb.
Definition on_date (l : nat) (d : datetime) : DateConstraint :=
  Unary l (fun x => Z.eqb x d).
Definition not_on_date (l : nat) (d : datetime) : DateConstraint :=
  Unary l (fun x => negb (Z.eqb x d)).
Definition after_date (l : nat) (d : datetime) : DateConstraint :=
  Unary l (fun x => Z.ltb d x).
Definition never (l : nat) : DateConstraint := Unary l (fun _ => false).

(** The run returned, with one of the [candidates] as its store. *)
Definition returns_one_of (candidates : list heap)
    (x : outcome unit * heap) : bool :=
  match x with
  | (Ok _, h) => existsb (store_eqb h) candidates
  | _ => false
  end.

(** The run returned, with fewer elements in the store than [h1] has. *)
Definition returns_smaller (h1 : heap) (x : outcome unit * heap) : bool :=
  match x with
  | (Ok _, h2) => store_size h2 <? store_size h1
  | _ => false
  end.

(** The caller's single object sits at reference 0 of a one-cell store. *)
Definition caller_store (date_range : pyobj) : heap := [date_range].

(** Every slot of a returned schedule holds a datetime. *)
Definition full_schedule (n : nat) (a : list (option datetime)) : Prop :=
  length a = n /\ Forall (fun slot => is_Some slot) a.

(** Every constraint accepts the assignment. *)
Definition all_satisfied (constraints : list DateConstraint)
    (a : list (option datetime)) : Prop :=
  Forall (fun c => is_satisfied_by_assignment c a = Ok true) constraints.

(** What node consistency keeps in the domain of variable [v]. *)
Definition node_ok (constraints : list DateConstraint) (v : nat)
    (d : datetime) : bool :=
  forallb (fun c =>
             negb ((arity c =? 1) && (L_VAL c =? v))
             || is_satisfied_by_values c d None) constraints.

(** The set a domain reference denotes. *)
Definition domain_at (h : heap) (r : ref) : list datetime :=
  py_iter (default (PySet []) (h !! r)).

(** ** Vocabulary of the statements *)

(** [h'] has the cells of [h], changed at most at references in [W]. *)
Definition writes_within (W : ref -> Prop) (h h' : heap) : Prop :=
  length h' = length h /\ forall r, ~ W r -> h' !! r = h !! r.

(** [h'] keeps every cell of [h]; it may have more. *)
Definition preserves_old (h h' : heap) : Prop :=
  length h <= length h' /\ forall r, r < length h -> h' !! r = h !! r.

(** The slots still to fill. *)
Definition unassigned_count (a : list (option datetime)) : nat :=
  list_sum (map (fun slot => match slot with None => 1 | Some _ => 0 end) a).

(** Every variable a constraint names is one of the [n] meetings. *)
Definition in_range (n : nat) (c : DateConstraint) : Prop :=
  L_VAL c < n /\ forall r, R_VAL c = Some r -> r < n.

(** What a state promises before the search goes on from it: its vector
    passed the check, or it still has a slot to fill. *)
Definition checked (constraints : list DateConstraint) (st : search_state)
    : Prop :=
  all_satisfied constraints (assignments st)
  \/ first_unassigned (assignments st) <> None.

(** The contract of a call that returned: a failure leaves the assignment
    vector as it found it; a returned list is the vector itself, full,
    and satisfies every constraint. *)
Definition search_contract (constraints : list DateConstraint)
    (f : search_state -> outcome search_result * search_state) : Prop :=
  forall st r st', f st = (Ok r, st') ->
    (truthy r = false -> assignments st' = assignments st)
    /\ forall a, r = Some a ->
         a = assignments st'
         /\ Forall (fun slot => is_Some slot) a
         /\ length a = length (assignments st)
         /\ (checked constraints st -> all_satisfied constraints a).

(** The first [j] slots of the schedule [a], the others unassigned. *)
Definition partial_schedule (a : list (option datetime)) (j : nat)
    : list (option datetime) :=
  take j a ++ replicate (length a - j) None.

(** The arc joins two meetings, and the dates [a] gives them satisfy its
    constraint. *)
Definition arc_supported (a : list (option datetime)) (arc : Arc) : Prop :=
  TAIL arc < length a /\ HEAD arc < length a
  /\ forall dt dh,
       a !! TAIL arc = Some (Some dt) -> a !! HEAD arc = Some (Some dh) ->
       is_satisfied_by_values (CONSTRAINT arc) dt (Some dh) = true.

(** Every meeting has a set of its own, which holds the date [a] gives
    the meeting. *)
Definition domains_hold (a : list (option datetime)) (doms : list ref)
    (h : heap) : Prop :=
  NoDup doms /\ length doms = length a
  /\ forall v d, a !! v = Some (Some d) ->
       exists r s, doms !! v = Some r /\ h !! r = Some (PySet s)
                   /\ NoDup s /\ In d s.

(** How many unary constraints on variable [v] reject the date [d]. *)
Definition rejections (constraints : list DateConstraint) (v : nat)
    (d : datetime) : nat :=
  length (List.filter
            (fun c => (arity c =? 1) && (L_VAL c =? v)
                      && negb (is_satisfied_by_values c d None))
            constraints).

(** Some value among [heads] satisfies the constraint together with [t]. *)
Definition supported (c : DateConstraint) (heads : list datetime)
    (t : datetime) : bool :=
  existsb (fun head => is_satisfied_by_values c t (Some head)) heads.

(** No cell of [h'] holds a value that it did not hold in [h]. *)
Definition narrows (h h' : heap) : Prop :=
  length h' = length h
  /\ forall r x, In x (domain_at h' r) -> In x (domain_at h r).

(** The arc names a variable outside the list of domains. *)
Definition out_of_bounds (doms : list ref) (arc : Arc) : Prop :=
  length doms <= TAIL arc \/ length doms <= HEAD arc.

(** Every domain is a set of the store. *)
Definition domains_are_sets (h : heap) (doms : list ref) : Prop :=
  Forall (fun r => exists s, h !! r = Some (PySet s) /\ NoDup s) doms.

(** The schedule takes every date from the candidates [s]. *)
Definition drawn_from (s : list datetime) (a : list (option datetime)) : Prop :=
  Forall (fun slot => exists d, slot = Some d /\ In d s) a.

(** The value of [solve] for a value of its traced form. *)
Definition forget_trace (o : outcome (search_result * list (nat * datetime)))
    : outcome search_result :=
  obind o (fun r => Ok (fst r)).

(** With slot [k] never filled: no schedule comes back, and only variables
    before [k] are tried. *)
Definition blocked (k : nat)
    (f : search_state -> outcome search_result * search_state) : Prop :=
  forall st o st', assignments st !! k = Some None -> f st = (o, st') ->
    (forall r, o = Ok r -> r = None)
    /\ exists new, tentative st' = new ++ tentative st
                   /\ Forall (fun e => fst e < k) new.

(** ** Tactics for closed goals about example stores *)

(** A list of distinct literals. *)
Ltac distinct :=
  repeat (apply NoDup_cons; split;
          [rewrite ?elem_of_cons, ?elem_of_nil;
           intuition (discriminate || lia) |]);
  apply NoDup_nil_2.

(** [domains_are_sets] on a literal store. *)
Ltac sets :=
  repeat (apply Forall_cons; split;
          [eexists; split; [reflexivity | distinct] |]);
  apply Forall_nil_2.

(** [drawn_from] on literal lists. *)
Ltac drawn :=
  repeat (apply Forall_cons; split;
          [eexists; split; [reflexivity | simpl; auto] |]);
  apply Forall_nil_2.

(** ** The monad *)

Lemma bind_Ok {A B} (m : M A) (k : A -> M B) h b h' :
  bind m k h = (Ok b, h') ->
  exists a h1, m h = (Ok a, h1) /\ k a h1 = (Ok b, h').
Proof.
  unfold bind. destruct (m h) as [[a | e | ] h1]; intros H; try discriminate.
  exists a, h1. split; [reflexivity | exact H].
Qed.

Lemma bind_cases {A B} (m : M A) (k : A -> M B) h o h' :
  bind m k h = (o, h') ->
  (exists a h1, m h = (Ok a, h1) /\ k a h1 = (o, h'))
  \/ (exists e, m h = (Raise e, h') /\ o = Raise e)
  \/ (m h = (Timeout, h') /\ o = Timeout).
Proof.
  unfold bind. destruct (m h) as [[a | e | ] h1]; intros H.
  - left. exists a, h1. split; [reflexivity | exact H].
  - right. left. exists e. inversion H; subst. split; reflexivity.
  - right. right. inversion H; subst. split; reflexivity.
Qed.

(** ** Which cells a computation writes *)

Lemma writes_within_refl W h : writes_within W h h.
Proof. split; [reflexivity | intros; reflexivity]. Qed.

Lemma writes_within_trans W h1 h2 h3 :
  writes_within W h1 h2 -> writes_within W h2 h3 -> writes_within W h1 h3.
Proof.
  intros [L1 F1] [L2 F2]. split; [congruence |].
  intros r Hr. rewrite (F2 r Hr). apply F1, Hr.
Qed.

Lemma writes_within_weaken (W W' : ref -> Prop) h h' :
  (forall r, W r -> W' r) -> writes_within W h h' -> writes_within W' h h'.
Proof.
  intros Hw [L F]. split; [exact L |].
  intros r Hr. apply F. intros HW. apply Hr, Hw, HW.
Qed.

Lemma set_remove_writes r d h o h' :
  set_remove r d h = (o, h') -> writes_within (eq r) h h'.
Proof.
  unfold set_remove. intros H.
  destruct (h !! r) as [[s | l] | ] eqn:E; try (inversion H; subst; apply writes_within_refl).
  destruct (mem d s); inversion H; subst; [| apply writes_within_refl].
  split; [apply length_insert |].
  intros r' Hr'. apply list_lookup_insert_ne. exact Hr'.
Qed.

Lemma set_remove_Ok r d h h' :
  set_remove r d h = (Ok tt, h') ->
  exists s, h !! r = Some (PySet s) /\ mem d s = true
            /\ h' = <[r := PySet (discard d s)]> h.
Proof.
  unfold set_remove. intros H.
  destruct (h !! r) as [[s | l] | ] eqn:E; try discriminate.
  destruct (mem d s) eqn:Em; inversion H; subst. eauto.
Qed.

Lemma set_remove_present r d h s :
  h !! r = Some (PySet s) -> mem d s = true ->
  set_remove r d h = (Ok tt, <[r := PySet (discard d s)]> h).
Proof. intros E Em. unfold set_remove. rewrite E, Em. reflexivity. Qed.

Lemma set_remove_absent r d h s :
  h !! r = Some (PySet s) -> mem d s = false ->
  set_remove r d h = (Raise KeyError, h).
Proof. intros E Em. unfold set_remove. rewrite E, Em. reflexivity. Qed.

Lemma mem_In d s : mem d s = true <-> In d s.
Proof.
  unfold mem. rewrite existsb_exists. split.
  - intros (x & Hx & E). apply Z.eqb_eq in E. subst. exact Hx.
  - intros H. exists d. split; [exact H | apply Z.eqb_refl].
Qed.

Lemma discard_In d x s : In x (discard d s) <-> In x s /\ x <> d.
Proof.
  unfold discard. rewrite filter_In, negb_true_iff, Z.eqb_neq.
  split; intros [H1 H2]; split; auto.
Qed.

Lemma mem_discard d s : mem d (discard d s) = false.
Proof.
  destruct (mem d (discard d s)) eqn:E; [| reflexivity].
  apply mem_In, discard_In in E. destruct E as [_ E]. congruence.
Qed.

Lemma discard_NoDup d s : NoDup s -> NoDup (discard d s).
Proof.
  unfold discard. induction 1 as [| x s Hx ND IH]; simpl; [constructor |].
  destruct (negb (Z.eqb d x)); [| exact IH].
  constructor; [| exact IH].
  intros Hin. apply Hx. apply list_elem_of_In in Hin.
  apply filter_In in Hin. apply list_elem_of_In, Hin.
Qed.

Lemma discard_length d s : length (discard d s) <= length s.
Proof. unfold discard. apply List.filter_length_le. Qed.

Lemma discard_length_lt d s : mem d s = true -> length (discard d s) < length s.
Proof.
  unfold mem, discard. induction s as [| x s IH]; simpl; [discriminate |].
  destruct (Z.eqb d x) eqn:E; simpl.
  - intros _. pose proof (List.filter_length_le (fun x => negb (Z.eqb d x)) s). lia.
  - intros H. specialize (IH H). lia.
Qed.

Lemma preserves_old_refl h : preserves_old h h.
Proof. split; [lia | reflexivity]. Qed.

Lemma preserves_old_trans h1 h2 h3 :
  preserves_old h1 h2 -> preserves_old h2 h3 -> preserves_old h1 h3.
Proof.
  intros [L1 F1] [L2 F2]. split; [lia |].
  intros r Hr. rewrite F2 by lia. apply F1, Hr.
Qed.

Lemma preserves_old_app h ext : preserves_old h (h ++ ext).
Proof.
  split; [rewrite length_app; lia |].
  intros r Hr. apply lookup_app_l, Hr.
Qed.

Lemma writes_above_preserves (W : ref -> Prop) n h h' :
  (forall r, W r -> n <= r) -> n <= length h ->
  writes_within W h h' ->
  length h' = length h /\ forall r, r < n -> h' !! r = h !! r.
Proof.
  intros HW Hn [L F]. split; [exact L |].
  intros r Hr. apply F. intros Hw. apply HW in Hw. lia.
Qed.

(** ** Node consistency: the cells it touches *)

Lemma copy_domains_grows domains h o h' :
  copy_domains domains h = (o, h') ->
  preserves_old h h'
  /\ forall rs, o = Ok rs ->
       rs = seq (length h) (length domains)
       /\ length h' = length h + length domains.
Proof.
  revert h o h'. induction domains as [| dom rest IH]; intros h o h' H.
  - inversion H; subst. split; [apply preserves_old_refl |].
    intros rs E. inversion E; subst. simpl. split; [reflexivity | lia].
  - simpl in H. unfold bind at 1, deref in H.
    unfold bind at 1, lift in H.
    destruct (set_of (default (PySet []) (h !! dom))) as [s | e | ].
    2,3: inversion H; subst; split; [apply preserves_old_refl | intros; discriminate].
    unfold bind at 1, alloc in H.
    unfold bind in H.
    destruct (copy_domains rest (h ++ [PySet s])) as [[rs | e | ] h1] eqn:E;
      destruct (IH _ _ _ E) as [P R]; inversion H; subst; clear H.
    + split.
      * eapply preserves_old_trans; [apply preserves_old_app | exact P].
      * intros rs' E'. inversion E'; subst.
        destruct (R rs eq_refl) as [-> L]. rewrite length_app in *. simpl in *.
        split; [f_equal; f_equal; lia | lia].
    + split; [| intros; discriminate].
      eapply preserves_old_trans; [apply preserves_old_app | exact P].
    + split; [| intros; discriminate].
      eapply preserves_old_trans; [apply preserves_old_app | exact P].
Qed.

Lemma nc_constraints_writes idx cur date constraints h o h' :
  nc_constraints idx cur date constraints h = (o, h') ->
  writes_within (eq cur) h h'.
Proof.
  revert h o h'. induction constraints as [| c rest IH]; intros h o h' H.
  - inversion H; subst. apply writes_within_refl.
  - simpl in H. apply bind_cases in H.
    assert (Hstep : forall o1 h1,
      (if (arity c =? 1) && (L_VAL c =? idx)
       then if negb (is_satisfied_by_values c date None)
            then set_remove cur date else ret tt
       else ret tt) h = (o1, h1) -> writes_within (eq cur) h h1).
    { intros o1 h1 E.
      destruct ((arity c =? 1) && (L_VAL c =? idx));
        [destruct (negb (is_satisfied_by_values c date None)) |];
        try (inversion E; subst; apply writes_within_refl).
      eapply set_remove_writes, E. }
    destruct H as [(a & h1 & E1 & E2) | [(e & E1 & _) | (E1 & _)]].
    + eapply writes_within_trans; [eapply Hstep, E1 | eapply IH, E2].
    + eapply Hstep, E1.
    + eapply Hstep, E1.
Qed.

Lemma nc_dates_writes idx cur dates constraints h o h' :
  nc_dates idx cur dates constraints h = (o, h') ->
  writes_within (eq cur) h h'.
Proof.
  revert h o h'. induction dates as [| d rest IH]; intros h o h' H.
  - inversion H; subst. apply writes_within_refl.
  - simpl in H. apply bind_cases in H.
    destruct H as [(a & h1 & E1 & E2) | [(e & E1 & _) | (E1 & _)]].
    + eapply writes_within_trans;
        [eapply nc_constraints_writes, E1 | eapply IH, E2].
    + eapply nc_constraints_writes, E1.
    + eapply nc_constraints_writes, E1.
Qed.

Lemma nc_loop_writes todo idx dom_copy domains constraints h o h' :
  nc_loop todo idx dom_copy domains constraints h = (o, h') ->
  writes_within (fun r => In r dom_copy) h h'.
Proof.
  revert idx domains h o h'. induction todo as [| dom rest IH];
    intros idx domains h o h' H.
  - inversion H; subst. apply writes_within_refl.
  - simpl in H. destruct (dom_copy !! idx) as [cur | ] eqn:Ec.
    2: { inversion H; subst. apply writes_within_refl. }
    unfold bind at 1, deref in H. apply bind_cases in H.
    assert (Hin : forall r, cur = r -> In r dom_copy).
    { intros r <-. apply list_elem_of_In. eapply list_elem_of_lookup_2, Ec. }
    destruct H as [(a & h1 & E1 & E2) | [(e & E1 & _) | (E1 & _)]].
    + eapply writes_within_trans; [| eapply IH, E2].
      eapply writes_within_weaken; [exact Hin | eapply nc_dates_writes, E1].
    + eapply writes_within_weaken; [exact Hin | eapply nc_dates_writes, E1].
    + eapply writes_within_weaken; [exact Hin | eapply nc_dates_writes, E1].
Qed.

Lemma nc_loop_result todo idx dom_copy domains constraints h res h' :
  nc_loop todo idx dom_copy domains constraints h = (Ok res, h') ->
  length dom_copy = idx + length todo ->
  length domains = length dom_copy ->
  take idx domains = take idx dom_copy ->
  res = dom_copy.
Proof.
  revert idx domains h res h'. induction todo as [| dom rest IH];
    intros idx domains h res h' H L1 L2 T.
  - inversion H; subst. simpl in L1.
    rewrite <- (take_ge res idx) by lia.
    rewrite <- (take_ge dom_copy idx) by lia. exact T.
  - simpl in H. simpl in L1.
    destruct (dom_copy !! idx) as [cur | ] eqn:Ec; [| discriminate].
    unfold bind at 1, deref in H. apply bind_Ok in H.
    destruct H as (a & h1 & E1 & E2).
    eapply IH in E2; [exact E2 | lia | rewrite length_insert; exact L2 |].
    rewrite (take_S_r dom_copy idx cur Ec).
    rewrite (take_S_r _ idx cur).
    + rewrite take_insert_ge by lia. rewrite T. reflexivity.
    + apply list_lookup_insert_eq. lia.
Qed.

(** Node consistency leaves every object it was given as it was, and
    hands back fresh cells, one per variable. *)
Lemma node_consistency_fresh domains constraints h o h' :
  node_consistency domains constraints h = (o, h') ->
  preserves_old h h'
  /\ forall res, o = Ok res ->
       res = seq (length h) (length domains)
       /\ length h' = length h + length domains.
Proof.
  unfold node_consistency. intros H. apply bind_cases in H.
  destruct H as [(dc & h1 & E1 & E2) | [(e & E1 & ->) | (E1 & ->)]].
  - apply copy_domains_grows in E1. destruct E1 as [P R].
    destruct (R dc eq_refl) as [Hdc L1].
    pose proof (nc_loop_writes _ _ _ _ _ _ _ _ E2) as W.
    assert (Hw : length h' = length h1 /\
                 forall r, r < length h -> h' !! r = h1 !! r).
    { eapply writes_above_preserves; [| | exact W].
      - intros r Hr. subst dc. apply in_seq in Hr. lia.
      - lia. }
    destruct Hw as [L2 F2]. split.
    + destruct P as [PL PF]. split; [lia |].
      intros r Hr. rewrite F2 by exact Hr. apply PF, Hr.
    + intros res ->. apply nc_loop_result in E2.
      * subst res. split; [exact Hdc | lia].
      * subst dc. rewrite length_seq. reflexivity.
      * subst dc. rewrite length_seq. reflexivity.
      * reflexivity.
  - apply copy_domains_grows in E1. destruct E1 as [P _].
    split; [exact P | intros; discriminate].
  - apply copy_domains_grows in E1. destruct E1 as [P _].
    split; [exact P | intros; discriminate].
Qed.

(** ** The size of the store *)

Lemma store_size_insert h r o o' :
  h !! r = Some o ->
  store_size (<[r := o']> h) + length (py_iter o)
  = store_size h + length (py_iter o').
Proof.
  unfold store_size. revert r. induction h as [| x h IH]; intros r E.
  - discriminate.
  - destruct r as [| r]; simpl in *.
    + inversion E; subst. lia.
    + specialize (IH r E). lia.
Qed.

Lemma set_remove_size r d h o h' :
  set_remove r d h = (o, h') ->
  store_size h' <= store_size h
  /\ (o = Ok tt -> store_size h' < store_size h).
Proof.
  unfold set_remove. intros H.
  destruct (h !! r) as [[s | l] | ] eqn:E;
    try (inversion H; subst; split; [lia | intros; discriminate]).
  destruct (mem d s) eqn:Em; inversion H; subst.
  - pose proof (store_size_insert h r _ (PySet (discard d s)) E) as Hs.
    pose proof (discard_length_lt d s Em). simpl in Hs. split; [lia | intros _; lia].
  - split; [lia | intros; discriminate].
Qed.

(** ** Arc consistency: cells, sizes, termination *)

Section ArcConsistency.

Variable constraint_eq : DateConstraint -> DateConstraint -> bool.
Variable pop_choice : nat -> list Arc -> nat.

Lemma arcs_add_length a arcs :
  length arcs <= length (arcs_add constraint_eq a arcs) <= S (length arcs).
Proof.
  unfold arcs_add. destruct (existsb _ arcs).
  - lia.
  - rewrite length_app. simpl. lia.
Qed.

Lemma arcs_add_In a b arcs :
  In b (arcs_add constraint_eq a arcs) -> In b arcs \/ b = a.
Proof.
  unfold arcs_add. destruct (existsb _ arcs).
  - auto.
  - rewrite in_app_iff. simpl. intuition.
Qed.

Lemma arcs_pop_nonempty clock a0 arcs0 :
  exists a arcs', arcs_pop pop_choice clock (a0 :: arcs0) = Some (a, arcs')
                  /\ S (length arcs') = length (a0 :: arcs0)
                  /\ In a (a0 :: arcs0)
                  /\ forall b, In b arcs' -> In b (a0 :: arcs0).
Proof.
  unfold arcs_pop. set (arcs := a0 :: arcs0).
  set (i := pop_choice clock arcs mod length arcs).
  assert (Hi : i < length arcs) by (apply Nat.mod_upper_bound; discriminate).
  destruct (lookup_lt_is_Some_2 arcs i Hi) as [a Ea]. rewrite Ea.
  exists a, (delete i arcs). split; [reflexivity |].
  split; [rewrite length_delete by eauto; lia |].
  split.
  - apply list_elem_of_In. eapply list_elem_of_lookup_2, Ea.
  - intros b Hb. apply list_elem_of_In. apply list_elem_of_In in Hb.
    eapply list_elem_of_delete_inv, Hb.
Qed.

Lemma Arc_init_binary c :
  (1 <? arity c) = true ->
  Arc_init c = Ok (mkArc c (L_VAL c) (default 0 (R_VAL c)))
  /\ Arc_init (get_reverse c)
     = Ok (mkArc (get_reverse c) (default 0 (R_VAL c)) (L_VAL c)).
Proof. destruct c; simpl; [discriminate | intros _; split; reflexivity]. Qed.

Lemma requeue_total constraints tail arcs :
  exists arcs', requeue constraint_eq constraints tail arcs = Ok arcs'
                /\ length arcs' <= length arcs + length constraints.
Proof.
  revert arcs. induction constraints as [| c rest IH]; intros arcs; simpl.
  - exists arcs. split; [reflexivity | lia].
  - destruct ((1 <? arity c) && bool_decide (R_VAL c = Some tail)) eqn:E.
    + apply andb_true_iff in E. destruct E as [E _].
      destruct (Arc_init_binary c E) as [-> _]. simpl.
      destruct (IH (arcs_add constraint_eq (mkArc c (L_VAL c) (default 0 (R_VAL c))) arcs))
        as (arcs' & -> & L).
      exists arcs'. split; [reflexivity |].
      pose proof (arcs_add_length (mkArc c (L_VAL c) (default 0 (R_VAL c))) arcs).
      lia.
    + destruct (IH arcs) as (arcs' & -> & L).
      exists arcs'. split; [reflexivity | lia].
Qed.

(** What is put back are arcs [Arc(constraint)] of constraints of the
    collection: the arcs of reversed constraints are never among them. *)
Lemma requeue_adds_forward_only constraints tail arcs arcs' :
  requeue constraint_eq constraints tail arcs = Ok arcs' ->
  forall b, In b arcs' ->
    In b arcs
    \/ exists c, In c constraints /\ R_VAL c = Some tail
                 /\ b = mkArc c (L_VAL c) tail.
Proof.
  revert arcs. induction constraints as [| c rest IH]; intros arcs H b Hb;
    simpl in H.
  - inversion H; subst. left. exact Hb.
  - destruct ((1 <? arity c) && bool_decide (R_VAL c = Some tail)) eqn:E.
    + apply andb_true_iff in E. destruct E as [Har Hr].
      apply bool_decide_eq_true in Hr.
      destruct (Arc_init_binary c Har) as [Ea _]. rewrite Ea in H.
      simpl in H. rewrite Hr in H. simpl in H.
      destruct (IH _ H b Hb) as [Hin | (c' & Hc' & Hr' & ->)].
      * apply arcs_add_In in Hin. destruct Hin as [Hin | ->].
        -- left. exact Hin.
        -- right. exists c. split; [left; reflexivity | auto].
      * right. exists c'. split; [right; exact Hc' | auto].
    + destruct (IH _ H b Hb) as [Hin | (c' & Hc' & Hr' & ->)].
      * left. exact Hin.
      * right. exists c'. split; [right; exact Hc' | auto].
Qed.

Lemma initial_arcs_total constraints arcs :
  exists arcs', initial_arcs constraint_eq constraints arcs = Ok arcs'.
Proof.
  revert arcs. induction constraints as [| c rest IH]; intros arcs; simpl.
  - eauto.
  - destruct (1 <? arity c) eqn:E; [| apply IH].
    destruct (Arc_init_binary c E) as [-> ->]. simpl. apply IH.
Qed.

Lemma revise_loop_facts c tail_dom head_dom tails removed h o h' :
  revise_loop c tail_dom head_dom tails removed h = (o, h') ->
  writes_within (eq tail_dom) h h'
  /\ store_size h' <= store_size h
  /\ o <> Timeout
  /\ (o = Ok true -> removed = true \/ store_size h' < store_size h)
  /\ (o = Ok false -> removed = false /\ h' = h).
Proof.
  revert removed h o h'. induction tails as [| t rest IH];
    intros removed h o h' H.
  - inversion H; subst. split; [apply writes_within_refl |].
    split; [lia |]. split; [discriminate |].
    split; [intros E; inversion E; auto |].
    intros E; inversion E; auto.
  - simpl in H. unfold bind at 1, deref in H.
    destruct (existsb _ _).
    + apply IH in H. exact H.
    + apply bind_cases in H.
      destruct H as [(a & h1 & E1 & E2) | [(e & E1 & ->) | (E1 & ->)]].
      * destruct a. pose proof (set_remove_writes _ _ _ _ _ E1) as W1.
        apply set_remove_size in E1. destruct E1 as [S1 S2].
        specialize (S2 eq_refl).
        apply IH in E2. destruct E2 as (W2 & S3 & NT & R1 & R2).
        split; [eapply writes_within_trans; eassumption |].
        split; [lia |]. split; [exact NT |].
        split; [intros _; right; lia |].
        intros ->. destruct (R2 eq_refl) as [D _]. discriminate.
      * pose proof (set_remove_writes _ _ _ _ _ E1) as W1.
        apply set_remove_size in E1. destruct E1 as [S1 _].
        split; [exact W1 |]. split; [exact S1 |].
        split; [discriminate |]. split; intros; discriminate.
      * exfalso. unfold set_remove in E1.
        destruct (h !! tail_dom) as [[s | l] | ]; try discriminate.
        destruct (mem t s); discriminate.
Qed.

Lemma inconsistent_val_removal_facts doms arc h o h' :
  inconsistent_val_removal doms arc h = (o, h') ->
  writes_within (fun r => doms !! TAIL arc = Some r) h h'
  /\ store_size h' <= store_size h
  /\ o <> Timeout
  /\ (o = Ok true -> store_size h' < store_size h)
  /\ (o = Ok false -> h' = h).
Proof.
  unfold inconsistent_val_removal. intros H.
  assert (Hstop : forall e : exn, (o, h') = (Raise e, h) ->
    writes_within (fun r => doms !! TAIL arc = Some r) h h'
    /\ store_size h' <= store_size h /\ o <> Timeout
    /\ (o = Ok true -> store_size h' < store_size h)
    /\ (o = Ok false -> h' = h)).
  { intros e E. inversion E; subst. split; [apply writes_within_refl |].
    split; [lia |]. split; [discriminate |]. split; intros; discriminate. }
  destruct (doms !! TAIL arc) as [tail_dom | ] eqn:Et;
    [| symmetry in H; apply (Hstop _ H)].
  destruct (doms !! HEAD arc) as [head_dom | ] eqn:Eh;
    [| symmetry in H; apply (Hstop _ H)].
  unfold bind, deref in H. apply revise_loop_facts in H.
  destruct H as (W & S1 & NT & R1 & R2).
  split.
  { eapply writes_within_weaken; [| exact W]. intros r <-. reflexivity. }
  split; [exact S1 |]. split; [exact NT |].
  split; [| intros E; apply R2, E].
  intros E. destruct (R1 E) as [D | D]; [discriminate | exact D].
Qed.

(** A turn of the loop lowers [ac_fuel], unless it raises. *)
Lemma ac_step_facts clock doms constraints a0 arcs0 h o h' :
  ac_step constraint_eq pop_choice clock doms constraints (a0 :: arcs0) h = (o, h') ->
  writes_within (fun r => In r doms) h h'
  /\ o <> Timeout
  /\ forall arcs', o = Ok arcs' ->
       ac_fuel h' constraints arcs' < ac_fuel h constraints (a0 :: arcs0).
Proof.
  unfold ac_step, ac_turn. intros H.
  destruct (arcs_pop_nonempty clock a0 arcs0) as (a & arcs1 & -> & L & _) in H.
  apply bind_cases in H.
  assert (Hw : forall o1 h1, inconsistent_val_removal doms a h = (o1, h1) ->
                 writes_within (fun r => In r doms) h h1).
  { intros o1 h1 E. apply inconsistent_val_removal_facts in E.
    destruct E as (W & _). eapply writes_within_weaken; [| exact W].
    intros r Hr. apply list_elem_of_In. eapply list_elem_of_lookup_2, Hr. }
  destruct H as [(removed & h1 & E1 & E2) | [(e & E1 & ->) | (E1 & ->)]].
  - pose proof (Hw _ _ E1) as W.
    apply inconsistent_val_removal_facts in E1.
    destruct E1 as (_ & S1 & _ & R1 & R2).
    destruct removed.
    + specialize (R1 eq_refl).
      destruct (requeue_total constraints (TAIL a) arcs1) as (arcs2 & Er & Lr).
      unfold lift in E2. rewrite Er in E2. inversion E2; subst.
      split; [exact W |]. split; [discriminate |].
      intros arcs' E. inversion E; subst. unfold ac_fuel.
      assert (Hm : S (store_size h') * S (length constraints)
                   <= store_size h * S (length constraints))
        by (apply Nat.mul_le_mono_r; lia).
      simpl in *. lia.
    + specialize (R2 eq_refl). subst h1. inversion E2; subst.
      split; [exact W |]. split; [discriminate |].
      intros arcs' E. inversion E; subst. unfold ac_fuel. simpl in *. lia.
  - split; [eapply Hw, E1 |]. split; [discriminate | intros; discriminate].
  - apply inconsistent_val_removal_facts in E1.
    destruct E1 as (_ & _ & NT & _). congruence.
Qed.

Lemma ac_loop_facts fuel doms constraints arcs h o h' :
  ac_loop constraint_eq pop_choice fuel doms constraints arcs h = (o, h') ->
  writes_within (fun r => In r doms) h h'
  /\ (ac_fuel h constraints arcs <= fuel -> o <> Timeout).
Proof.
  revert arcs h o h'. induction fuel as [| fuel IH]; intros arcs h o h' H.
  - destruct arcs as [| a0 arcs0]; inversion H; subst.
    + split; [apply writes_within_refl | discriminate].
    + split; [apply writes_within_refl |].
      unfold ac_fuel. simpl. lia.
  - destruct arcs as [| a0 arcs0].
    + inversion H; subst. split; [apply writes_within_refl | discriminate].
    + simpl in H. apply bind_cases in H.
      destruct H as [(arcs' & h1 & E1 & E2) | [(e & E1 & ->) | (E1 & ->)]].
      * apply ac_step_facts in E1. destruct E1 as (W1 & _ & D).
        specialize (D arcs' eq_refl).
        apply IH in E2. destruct E2 as (W2 & T2).
        split; [eapply writes_within_trans; eassumption |].
        intros Hf. apply T2. lia.
      * apply ac_step_facts in E1. destruct E1 as (W1 & _).
        split; [exact W1 | discriminate].
      * apply ac_step_facts in E1. destruct E1 as (_ & NT & _). congruence.
Qed.

(** Arc consistency returns or raises; it writes only to the domains. *)
Lemma arc_consistency_facts domains constraints h o h' :
  arc_consistency constraint_eq pop_choice domains constraints h = (o, h') ->
  writes_within (fun r => In r domains) h h' /\ o <> Timeout.
Proof.
  unfold arc_consistency, ac_preprocessing. intros H.
  destruct (initial_arcs_total constraints []) as (arcs & Ea).
  unfold bind, lift in H. rewrite Ea in H.
  apply ac_loop_facts in H. destruct H as (W & T).
  split; [exact W | apply T; lia].
Qed.

End ArcConsistency.

(** ** The search *)

Lemma first_unassigned_Some a v :
  first_unassigned a = Some v -> a !! v = Some None.
Proof.
  revert v. induction a as [| [d | ] a IH]; intros v H; simpl in H.
  - discriminate.
  - destruct (first_unassigned a) as [w | ]; inversion H; subst.
    simpl. apply IH. reflexivity.
  - inversion H; subst. reflexivity.
Qed.

Lemma first_unassigned_None a :
  first_unassigned a = None -> Forall (fun slot => is_Some slot) a.
Proof.
  induction a as [| [d | ] a IH]; intros H; simpl in H.
  - constructor.
  - destruct (first_unassigned a); [discriminate |].
    constructor; [eexists; reflexivity | apply IH; reflexivity].
  - discriminate.
Qed.

Lemma first_unassigned_le (a : list (option datetime)) (v k : nat) :
  first_unassigned a = Some v -> a !! k = Some None -> v <= k.
Proof.
  revert v k. induction a as [| [d | ] a IH]; intros v k H Hk; simpl in H.
  - discriminate.
  - destruct (first_unassigned a) as [w | ] eqn:E; inversion H; subst.
    destruct k as [| k]; [discriminate |]. simpl in Hk.
    specialize (IH w k eq_refl Hk). lia.
  - inversion H; subst. lia.
Qed.

Lemma unassigned_count_assign a v d :
  a !! v = Some None ->
  S (unassigned_count (<[v := Some d]> a)) = unassigned_count a.
Proof.
  unfold unassigned_count. revert v. induction a as [| x a IH]; intros v H.
  - discriminate.
  - destruct v as [| v]; simpl in *.
    + inversion H; subst. reflexivity.
    + rewrite <- (IH v H). destruct x; simpl; lia.
Qed.

Lemma assign_unassign (a : list (option datetime)) (v : nat) (d : datetime) :
  a !! v = Some None -> <[v := None]> (<[v := Some d]> a) = a.
Proof.
  intros H. rewrite list_insert_insert_eq. apply list_insert_id, H.
Qed.

Lemma is_satisfied_by_assignment_no_timeout c a :
  is_satisfied_by_assignment c a <> Timeout.
Proof.
  destruct c as [l t | l r t]; simpl.
  - destruct (a !! l) as [[d | ] | ]; discriminate.
  - destruct (a !! l) as [x | ]; [| discriminate].
    destruct (a !! r) as [y | ]; [| discriminate].
    destruct x, y; discriminate.
Qed.

Lemma is_satisfied_by_assignment_raises c a e :
  is_satisfied_by_assignment c a = Raise e ->
  e = IndexError /\ ~ in_range (length a) c.
Proof.
  unfold in_range. destruct c as [l t | l r t]; simpl.
  - destruct (a !! l) as [[d | ] | ] eqn:El; try discriminate.
    intros H. inversion H. split; [reflexivity |].
    apply lookup_ge_None_1 in El. lia.
  - destruct (a !! l) as [x | ] eqn:El.
    + destruct (a !! r) as [y | ] eqn:Er.
      * destruct x, y; discriminate.
      * intros H. inversion H. split; [reflexivity |].
        apply lookup_ge_None_1 in Er. intros [_ Hr].
        specialize (Hr r eq_refl). lia.
    + intros H. inversion H. split; [reflexivity |].
      apply lookup_ge_None_1 in El. lia.
Qed.

Lemma check_constraints_true constraints a :
  check_constraints constraints a = Ok true <-> all_satisfied constraints a.
Proof.
  unfold all_satisfied. induction constraints as [| c rest IH]; simpl.
  - split; [constructor | reflexivity].
  - destruct (is_satisfied_by_assignment c a) as [[ | ] | e | ] eqn:E; simpl.
    + rewrite IH. split.
      * intros H. constructor; [exact E | exact H].
      * intros H. inversion H; subst. assumption.
    + split; [discriminate |]. intros H. inversion H; subst. congruence.
    + split; [discriminate |]. intros H. inversion H; subst. congruence.
    + split; [discriminate |]. intros H. inversion H; subst. congruence.
Qed.

Lemma check_constraints_no_timeout constraints a :
  check_constraints constraints a <> Timeout.
Proof.
  induction constraints as [| c rest IH]; simpl; [discriminate |].
  pose proof (is_satisfied_by_assignment_no_timeout c a).
  destruct (is_satisfied_by_assignment c a) as [[ | ] | e | ]; simpl;
    [exact IH | discriminate | discriminate | congruence].
Qed.

Lemma check_constraints_raises constraints a e :
  check_constraints constraints a = Raise e ->
  e = IndexError /\ ~ Forall (in_range (length a)) constraints.
Proof.
  induction constraints as [| c rest IH]; simpl; [discriminate |].
  destruct (is_satisfied_by_assignment c a) as [[ | ] | e' | ] eqn:E; simpl.
  - intros H. destruct (IH H) as [-> N]. split; [reflexivity |].
    intros F. inversion F; subst. auto.
  - discriminate.
  - intros H. inversion H; subst.
    destruct (is_satisfied_by_assignment_raises _ _ _ E) as [-> N].
    split; [reflexivity |]. intros F. inversion F; subst. auto.
  - discriminate.
Qed.

Section Search.

Variable h : heap.
Variable doms : list ref.
Variable constraints : list DateConstraint.

Lemma try_values_contract recurse v values st r st' :
  search_contract constraints recurse ->
  assignments st !! v = Some None ->
  try_values recurse constraints v values st = (Ok r, st') ->
  (truthy r = false -> assignments st' = assignments st)
  /\ forall a, r = Some a ->
       a = assignments st'
       /\ Forall (fun slot => is_Some slot) a
       /\ length a = length (assignments st)
       /\ all_satisfied constraints a.
Proof.
  intros HC. revert st. induction values as [| dom rest IH]; intros st Hv H.
  - inversion H; subst. split; [reflexivity | intros; discriminate].
  - simpl in H.
    destruct (check_constraints constraints
                (<[v := Some dom]> (assignments st))) as [[ | ] | e | ] eqn:Ec;
      try discriminate.
    + destruct (recurse (assign v dom st)) as [[r2 | e | ] st2] eqn:Er;
        try discriminate.
      destruct (HC _ _ _ Er) as [Hrest Hsome].
      destruct (truthy r2) eqn:Et.
      * inversion H; subst. split; [congruence |].
        intros a ->. destruct (Hsome a eq_refl) as (E1 & E2 & E3 & E4).
        split; [exact E1 |]. split; [exact E2 |].
        split; [simpl in E3; rewrite length_insert in E3; exact E3 |].
        apply E4. left. apply check_constraints_true. exact Ec.
      * specialize (Hrest eq_refl).
        assert (Ea : assignments (unassign v st2) = assignments st).
        { simpl. rewrite Hrest. simpl. apply assign_unassign, Hv. }
        apply IH in H; [| rewrite Ea; exact Hv].
        rewrite Ea in H. exact H.
    + assert (Ea : assignments (unassign v (unassign v (assign v dom st)))
                   = assignments st).
      { simpl. rewrite list_insert_insert_eq. apply assign_unassign, Hv. }
      apply IH in H; [| rewrite Ea; exact Hv].
      rewrite Ea in H. exact H.
Qed.

Lemma recursive_csp_backtracker_contract fuel :
  search_contract constraints (recursive_csp_backtracker fuel h doms constraints).
Proof.
  induction fuel as [| fuel IH]; intros st r st' H; simpl in H.
  - destruct (first_unassigned (assignments st)) as [v | ] eqn:Ef;
      [discriminate |].
    inversion H; subst. split; [reflexivity |].
    intros a E. inversion E; subst.
    split; [reflexivity |]. split; [apply first_unassigned_None, Ef |].
    split; [reflexivity |]. intros [C | C]; [exact C | congruence].
  - destruct (first_unassigned (assignments st)) as [v | ] eqn:Ef.
    + destruct (doms !! v) as [rf | ]; [| discriminate].
      apply try_values_contract in H;
        [| exact IH | apply first_unassigned_Some, Ef].
      destruct H as [H1 H2]. split; [exact H1 |].
      intros a E. destruct (H2 a E) as (E1 & E2 & E3 & E4). auto.
    + inversion H; subst. split; [reflexivity |].
      intros a E. inversion E; subst.
      split; [reflexivity |]. split; [apply first_unassigned_None, Ef |].
      split; [reflexivity |]. intros [C | C]; [exact C | congruence].
Qed.

End Search.

Section SearchRuns.

Variable h : heap.
Variable doms : list ref.
Variable constraints : list DateConstraint.

(** *** The search returns or raises *)

Lemma try_values_no_timeout recurse m v values st :
  search_contract constraints recurse ->
  (forall st1, unassigned_count (assignments st1) <= m ->
               fst (recurse st1) <> Timeout) ->
  assignments st !! v = Some None ->
  unassigned_count (assignments st) <= S m ->
  fst (try_values recurse constraints v values st) <> Timeout.
Proof.
  intros HC HT. revert st. induction values as [| dom rest IH];
    intros st Hv Hm; simpl; [discriminate |].
  pose proof (check_constraints_no_timeout constraints
                (<[v := Some dom]> (assignments st))) as NT.
  destruct (check_constraints constraints
              (<[v := Some dom]> (assignments st))) as [[ | ] | e | ] eqn:Ec;
    [| | discriminate | congruence].
  - assert (Hr : fst (recurse (assign v dom st)) <> Timeout).
    { apply HT. simpl.
      pose proof (unassigned_count_assign _ _ dom Hv). lia. }
    destruct (recurse (assign v dom st)) as [[r2 | e | ] st2] eqn:Er;
      simpl in Hr; [| discriminate | congruence].
    destruct (truthy r2) eqn:Et; [discriminate |].
    destruct (HC _ _ _ Er) as [Hrest _]. specialize (Hrest Et).
    assert (Ea : assignments (unassign v st2) = assignments st).
    { simpl. rewrite Hrest. simpl. apply assign_unassign, Hv. }
    apply IH; rewrite Ea; assumption.
  - assert (Ea : assignments (unassign v (unassign v (assign v dom st)))
                 = assignments st).
    { simpl. rewrite list_insert_insert_eq. apply assign_unassign, Hv. }
    apply IH; rewrite Ea; assumption.
Qed.

Lemma recursive_csp_backtracker_no_timeout fuel st :
  unassigned_count (assignments st) <= fuel ->
  fst (recursive_csp_backtracker fuel h doms constraints st) <> Timeout.
Proof.
  revert st. induction fuel as [| fuel IH]; intros st Hm; simpl.
  - destruct (first_unassigned (assignments st)) as [v | ] eqn:Ef;
      [| discriminate].
    apply first_unassigned_Some in Ef.
    pose proof (unassigned_count_assign _ _ 0%Z Ef). lia.
  - destruct (first_unassigned (assignments st)) as [v | ] eqn:Ef;
      [| discriminate].
    destruct (doms !! v) as [rf | ]; [| discriminate].
    eapply try_values_no_timeout.
    + apply recursive_csp_backtracker_contract.
    + exact IH.
    + apply first_unassigned_Some, Ef.
    + exact Hm.
Qed.

(** *** What the search can raise *)

Lemma try_values_raises recurse n v values st e st' :
  search_contract constraints recurse ->
  (forall st1 e1 st2, length (assignments st1) = n ->
     recurse st1 = (Raise e1, st2) ->
     e1 = IndexError /\ ~ Forall (in_range n) constraints) ->
  assignments st !! v = Some None ->
  length (assignments st) = n ->
  try_values recurse constraints v values st = (Raise e, st') ->
  e = IndexError /\ ~ Forall (in_range n) constraints.
Proof.
  intros HC HR. revert st. induction values as [| dom rest IH];
    intros st Hv Hn H; simpl in H; [discriminate |].
  destruct (check_constraints constraints
              (<[v := Some dom]> (assignments st))) as [[ | ] | e1 | ] eqn:Ec;
    [| | | discriminate].
  - destruct (recurse (assign v dom st)) as [[r2 | e2 | ] st2] eqn:Er;
      [| | discriminate].
    + destruct (truthy r2) eqn:Et; [discriminate |].
      destruct (HC _ _ _ Er) as [Hrest _]. specialize (Hrest Et).
      assert (Ea : assignments (unassign v st2) = assignments st).
      { simpl. rewrite Hrest. simpl. apply assign_unassign, Hv. }
      apply IH in H; [exact H | rewrite Ea; exact Hv | rewrite Ea; exact Hn].
    + inversion H; subst. eapply HR; [| exact Er].
      simpl. apply length_insert.
  - assert (Ea : assignments (unassign v (unassign v (assign v dom st)))
                 = assignments st).
    { simpl. rewrite list_insert_insert_eq. apply assign_unassign, Hv. }
    apply IH in H; [exact H | rewrite Ea; exact Hv | rewrite Ea; exact Hn].
  - inversion H; subst. apply check_constraints_raises in Ec.
    rewrite length_insert in Ec. exact Ec.
Qed.

Lemma recursive_csp_backtracker_raises fuel st e st' :
  length doms = length (assignments st) ->
  recursive_csp_backtracker fuel h doms constraints st = (Raise e, st') ->
  e = IndexError /\ ~ Forall (in_range (length doms)) constraints.
Proof.
  revert st e st'. induction fuel as [| fuel IH]; intros st e st' Hn H;
    simpl in H.
  - destruct (first_unassigned (assignments st)); discriminate.
  - destruct (first_unassigned (assignments st)) as [v | ] eqn:Ef;
      [| discriminate].
    apply first_unassigned_Some in Ef.
    destruct (doms !! v) as [rf | ] eqn:Ed.
    + eapply try_values_raises in H; [exact H | | | exact Ef | congruence].
      * apply recursive_csp_backtracker_contract.
      * intros st1 e1 st2 L. apply IH. congruence.
    + apply lookup_ge_None_1 in Ed. apply lookup_lt_Some in Ef. lia.
Qed.

(** *** A variable without candidates *)

Section EmptyDomain.

Variable k : nat.
Variable rk : ref.
Hypothesis doms_k : doms !! k = Some rk.
Hypothesis empty_k : domain_at h rk = [].

Lemma try_values_blocked recurse v values :
  search_contract constraints recurse ->
  blocked k recurse ->
  v < k ->
  forall st o st',
    assignments st !! v = Some None ->
    assignments st !! k = Some None ->
    try_values recurse constraints v values st = (o, st') ->
    (forall r, o = Ok r -> r = None)
    /\ exists new, tentative st' = new ++ tentative st
                   /\ Forall (fun e => fst e < k) new.
Proof.
  intros HC HB Hvk. induction values as [| dom rest IH];
    intros st o st' Hv Hk H; simpl in H.
  - inversion H; subst. split; [intros r E; inversion E; reflexivity |].
    exists []. split; [reflexivity | constructor].
  - assert (Hcont : forall st3,
      assignments st3 = assignments st ->
      (exists new, tentative st3 = new ++ tentative st
                   /\ Forall (fun e => fst e < k) new) ->
      try_values recurse constraints v rest st3 = (o, st') ->
      (forall r, o = Ok r -> r = None)
      /\ exists new, tentative st' = new ++ tentative st
                     /\ Forall (fun e => fst e < k) new).
    { intros st3 Ea (new3 & T3 & F3) E.
      apply IH in E; [| rewrite Ea; assumption | rewrite Ea; assumption].
      destruct E as [R (new & T & F)]. split; [exact R |].
      exists (new ++ new3). split.
      - rewrite T, T3. apply app_assoc.
      - apply Forall_app. split; assumption. }
    destruct (check_constraints constraints
                (<[v := Some dom]> (assignments st))) as [[ | ] | e1 | ] eqn:Ec.
    + destruct (recurse (assign v dom st)) as [o2 st2] eqn:Er.
      assert (Hk1 : assignments (assign v dom st) !! k = Some None).
      { simpl. rewrite list_lookup_insert_ne by lia. exact Hk. }
      destruct (HB _ _ _ Hk1 Er) as [R2 (new2 & T2 & F2)].
      assert (Hlog : exists new, tentative st2 = new ++ tentative st
                                 /\ Forall (fun e => fst e < k) new).
      { exists (new2 ++ [(v, dom)]). split.
        - rewrite T2. simpl. rewrite <- app_assoc. reflexivity.
        - apply Forall_app. split; [exact F2 |].
          constructor; [exact Hvk | constructor]. }
      destruct o2 as [r2 | e2 | ].
      * rewrite (R2 r2 eq_refl) in *. simpl in H.
        destruct (HC _ _ _ Er) as [Hrest _]. specialize (Hrest eq_refl).
        apply (Hcont (unassign v st2)); [| exact Hlog | exact H].
        simpl. rewrite Hrest. simpl. apply assign_unassign, Hv.
      * inversion H; subst. split; [intros; discriminate | exact Hlog].
      * inversion H; subst. split; [intros; discriminate | exact Hlog].
    + apply (Hcont (unassign v (unassign v (assign v dom st)))); [| | exact H].
      * simpl. rewrite list_insert_insert_eq. apply assign_unassign, Hv.
      * exists [(v, dom)]. split; [reflexivity |].
        constructor; [exact Hvk | constructor].
    + inversion H; subst. split; [intros; discriminate |].
      exists [(v, dom)]. split; [reflexivity |].
      constructor; [exact Hvk | constructor].
    + inversion H; subst. split; [intros; discriminate |].
      exists [(v, dom)]. split; [reflexivity |].
      constructor; [exact Hvk | constructor].
Qed.

Lemma recursive_csp_backtracker_blocked fuel :
  blocked k (recursive_csp_backtracker fuel h doms constraints).
Proof.
  assert (Hstay : forall (st : search_state),
            exists new : list (nat * datetime),
              tentative st = new ++ tentative st
              /\ Forall (fun e => fst e < k) new).
  { intros st. exists []. split; [reflexivity | constructor]. }
  induction fuel as [| fuel IH]; intros st o st' Hk H; simpl in H.
  - destruct (first_unassigned (assignments st)) as [v | ] eqn:Ef.
    + inversion H; subst. split; [intros; discriminate | apply Hstay].
    + apply first_unassigned_None in Ef.
      rewrite Forall_lookup in Ef. destruct (Ef k None Hk). discriminate.
  - destruct (first_unassigned (assignments st)) as [v | ] eqn:Ef.
    + pose proof (first_unassigned_le _ _ _ Ef Hk) as Hle.
      apply first_unassigned_Some in Ef.
      destruct (decide (v = k)) as [-> | Hne].
      * rewrite doms_k in H. fold (domain_at h rk) in H.
        rewrite empty_k in H. inversion H; subst.
        split; [intros r E; inversion E; reflexivity | apply Hstay].
      * destruct (doms !! v) as [rf | ].
        -- eapply try_values_blocked in H; [exact H | | exact IH | lia | exact Ef | exact Hk].
           apply recursive_csp_backtracker_contract.
        -- inversion H; subst. split; [intros; discriminate | apply Hstay].
    + apply first_unassigned_None in Ef.
      rewrite Forall_lookup in Ef. destruct (Ef k None Hk). discriminate.
Qed.

End EmptyDomain.

End SearchRuns.

(** ** Node consistency: what it keeps *)

Lemma set_of_Ok o s : set_of o = Ok s -> s = py_iter o.
Proof.
  destruct o as [s' | [| x l]]; simpl; intros H; inversion H; reflexivity.
Qed.

Lemma discard_idem d s : discard d (discard d s) = discard d s.
Proof.
  unfold discard. induction s as [| x s IH]; simpl; [reflexivity |].
  destruct (negb (Z.eqb d x)) eqn:E; simpl; [rewrite E; f_equal |]; exact IH.
Qed.

Lemma filter_all {A} (f : A -> bool) (l : list A) :
  (forall x, In x l -> f x = true) -> List.filter f l = l.
Proof.
  induction l as [| x l IH]; simpl; intros H; [reflexivity |].
  rewrite (H x) by auto. f_equal. apply IH. intros y Hy. apply H. auto.
Qed.

(** Going through [dates] and discarding each rejected one is a filter. *)
Lemma prune_fold (ok : datetime -> bool) dates s :
  fold_left (fun s d => if ok d then s else discard d s) dates s
  = List.filter (fun x => ok x || negb (mem x dates)) s.
Proof.
  revert s. induction dates as [| d rest IH]; intros s; simpl.
  - symmetry. apply filter_all. intros x _. apply orb_true_r.
  - rewrite IH. destruct (ok d) eqn:Ed.
    + apply List.filter_ext_in. intros x _.
      destruct (Z.eqb x d) eqn:E; simpl; [| reflexivity].
      apply Z.eqb_eq in E. subst. rewrite Ed. reflexivity.
    + unfold discard. induction s as [| x s IHs]; simpl; [reflexivity |].
      rewrite (Z.eqb_sym x d).
      destruct (Z.eqb d x) eqn:E; simpl.
      * apply Z.eqb_eq in E. subst. rewrite Ed. simpl. exact IHs.
      * rewrite IHs. reflexivity.
Qed.

Lemma prune_all (ok : datetime -> bool) s :
  fold_left (fun s d => if ok d then s else discard d s) s s
  = List.filter ok s.
Proof.
  rewrite prune_fold. apply List.filter_ext_in. intros x Hx.
  apply mem_In in Hx. rewrite Hx. apply orb_false_r.
Qed.

Lemma nc_constraints_exact idx cur date constraints h h' s :
  h !! cur = Some (PySet s) ->
  nc_constraints idx cur date constraints h = (Ok tt, h') ->
  h' = <[cur := PySet (if node_ok constraints idx date then s
                       else discard date s)]> h.
Proof.
  revert h s. induction constraints as [| c rest IH]; intros h s Hc H.
  - inversion H; subst. simpl. symmetry. apply list_insert_id, Hc.
  - simpl in H. apply bind_Ok in H. destruct H as ([] & h1 & E1 & E2).
    simpl. destruct ((arity c =? 1) && (L_VAL c =? idx)); simpl.
    + destruct (is_satisfied_by_values c date None); simpl in *.
      * inversion E1; subst. apply IH; assumption.
      * apply set_remove_Ok in E1. destruct E1 as (s0 & Hs0 & _ & ->).
        rewrite Hc in Hs0. inversion Hs0; subst s0.
        apply IH with (s := discard date s) in E2.
        -- rewrite E2. rewrite list_insert_insert_eq, discard_idem.
           destruct (node_ok rest idx date); reflexivity.
        -- apply list_lookup_insert_eq. eapply lookup_lt_Some, Hc.
    + inversion E1; subst. apply IH; assumption.
Qed.

Lemma nc_dates_exact idx cur dates constraints h h' s :
  h !! cur = Some (PySet s) ->
  nc_dates idx cur dates constraints h = (Ok tt, h') ->
  h' = <[cur := PySet (fold_left
                         (fun s d => if node_ok constraints idx d then s
                                     else discard d s) dates s)]> h.
Proof.
  revert h s. induction dates as [| d rest IH]; intros h s Hc H.
  - inversion H; subst. simpl. symmetry. apply list_insert_id, Hc.
  - simpl in H. apply bind_Ok in H. destruct H as ([] & h1 & E1 & E2).
    apply (nc_constraints_exact _ _ _ _ _ _ _ Hc) in E1. subst h1.
    eapply IH in E2.
    + rewrite E2, list_insert_insert_eq. reflexivity.
    + apply list_lookup_insert_eq. eapply lookup_lt_Some, Hc.
Qed.

Lemma nc_loop_writes_fine todo idx dom_copy domains constraints h o h' :
  nc_loop todo idx dom_copy domains constraints h = (o, h') ->
  writes_within
    (fun r => exists j, j < length todo /\ dom_copy !! (idx + j) = Some r)
    h h'.
Proof.
  revert idx domains h o h'. induction todo as [| dom rest IH];
    intros idx domains h o h' H.
  - inversion H; subst. apply writes_within_refl.
  - simpl in H. destruct (dom_copy !! idx) as [cur | ] eqn:Ec.
    2: { inversion H; subst. apply writes_within_refl. }
    unfold bind at 1, deref in H. apply bind_cases in H.
    assert (Hin : forall r, cur = r ->
              exists j, j < length (dom :: rest)
                        /\ dom_copy !! (idx + j) = Some r).
    { intros r <-. exists 0. simpl. rewrite Nat.add_0_r.
      split; [lia | exact Ec]. }
    assert (Hrest : forall r,
              (exists j, j < length rest /\ dom_copy !! (S idx + j) = Some r) ->
              exists j, j < length (dom :: rest)
                        /\ dom_copy !! (idx + j) = Some r).
    { intros r (j & Hj & E). exists (S j). simpl.
      rewrite Nat.add_succ_r. split; [lia | exact E]. }
    destruct H as [(a & h1 & E1 & E2) | [(e & E1 & _) | (E1 & _)]].
    + eapply writes_within_trans.
      * eapply writes_within_weaken; [exact Hin | eapply nc_dates_writes, E1].
      * eapply writes_within_weaken; [exact Hrest | eapply IH, E2].
    + eapply writes_within_weaken; [exact Hin | eapply nc_dates_writes, E1].
    + eapply writes_within_weaken; [exact Hin | eapply nc_dates_writes, E1].
Qed.

Lemma nc_loop_exact todo idx dom_copy domains constraints h res h' :
  nc_loop todo idx dom_copy domains constraints h = (Ok res, h') ->
  NoDup dom_copy ->
  (forall j dom, todo !! j = Some dom ->
     ~ In dom dom_copy
     /\ exists cur, dom_copy !! (idx + j) = Some cur
                    /\ h !! cur = Some (PySet (domain_at h dom))) ->
  forall j dom, todo !! j = Some dom ->
    exists cur, dom_copy !! (idx + j) = Some cur
                /\ h' !! cur
                   = Some (PySet (List.filter (node_ok constraints (idx + j))
                                              (domain_at h dom))).
Proof.
  intros H ND. revert idx domains h H.
  induction todo as [| dom0 rest IH]; intros idx domains h H Hinit j dom Hj.
  - discriminate.
  - simpl in H. destruct (dom_copy !! idx) as [cur | ] eqn:Ec; [| discriminate].
    unfold bind at 1, deref in H. apply bind_Ok in H.
    destruct H as ([] & h1 & E1 & E2).
    destruct (Hinit 0 dom0 eq_refl) as (Hn0 & cur0 & Ec0 & Hcur0).
    rewrite Nat.add_0_r, Ec in Ec0. inversion Ec0; subst cur0.
    fold (domain_at h dom0) in E1.
    apply (nc_dates_exact _ _ _ _ _ _ _ Hcur0) in E1.
    rewrite prune_all in E1.
    assert (Hlt : cur < length h) by (eapply lookup_lt_Some, Hcur0).
    assert (Hdom : forall d, ~ In d dom_copy -> domain_at h1 d = domain_at h d).
    { intros d Hd. unfold domain_at. subst h1.
      rewrite list_lookup_insert_ne; [reflexivity |].
      intros ->. apply Hd. apply list_elem_of_In.
      eapply list_elem_of_lookup_2, Ec. }
    destruct j as [| j].
    + inversion Hj; subst dom0. exists cur. rewrite Nat.add_0_r.
      split; [exact Ec |].
      pose proof (nc_loop_writes_fine _ _ _ _ _ _ _ _ E2) as [_ F].
      rewrite F.
      * subst h1. apply list_lookup_insert_eq, Hlt.
      * intros (i & _ & Ei).
        pose proof (NoDup_lookup _ _ _ _ ND Ec Ei). lia.
    + simpl in Hj. rewrite Nat.add_succ_r.
      destruct (Hinit (S j) dom Hj) as (Hn & _).
      rewrite <- (Hdom dom Hn).
      eapply (IH (S idx)); [exact E2 | | exact Hj].
      intros i d Hi. destruct (Hinit (S i) d Hi) as (Hnd & c & Eci & Hci).
      split; [exact Hnd |]. exists c. rewrite Nat.add_succ_r in Eci.
      split; [exact Eci |]. rewrite (Hdom d Hnd). subst h1.
      rewrite list_lookup_insert_ne; [exact Hci |].
      intros ->. pose proof (NoDup_lookup _ _ _ _ ND Ec Eci). lia.
Qed.

Lemma copy_domains_contents domains h rs h' :
  Forall (fun r => r < length h) domains ->
  copy_domains domains h = (Ok rs, h') ->
  h' = h ++ map (fun r => PySet (domain_at h r)) domains.
Proof.
  revert h rs h'. induction domains as [| dom rest IH]; intros h rs h' V H.
  - inversion H; subst. simpl. symmetry. apply app_nil_r.
  - simpl in H. unfold bind at 1, deref in H. unfold bind at 1, lift in H.
    destruct (set_of (default (PySet []) (h !! dom))) as [s | e | ] eqn:Es;
      try discriminate.
    apply set_of_Ok in Es. unfold bind at 1, alloc in H.
    apply bind_Ok in H. destruct H as (rs' & h1 & E1 & E2).
    inversion E2; subst. apply Forall_cons in V. destruct V as [Vd Vr].
    apply IH in E1.
    + rewrite E1. rewrite <- app_assoc. simpl. f_equal. f_equal.
      apply map_ext_in. intros r Hr. unfold domain_at.
      rewrite lookup_app_l; [reflexivity |].
      rewrite Forall_forall in Vr. apply Vr, list_elem_of_In, Hr.
    + eapply Forall_impl; [exact Vr |]. intros r Hr. simpl in Hr.
      rewrite length_app. simpl. lia.
Qed.

(** When node consistency returns, variable [v]'s domain holds the values
    of its former domain that every unary constraint on [v] accepts, in a
    cell of its own. *)
Lemma node_consistency_exact domains constraints h res h' :
  Forall (fun r => r < length h) domains ->
  node_consistency domains constraints h = (Ok res, h') ->
  res = seq (length h) (length domains)
  /\ forall v r, domains !! v = Some r ->
       h' !! (length h + v)
       = Some (PySet (List.filter (node_ok constraints v) (domain_at h r))).
Proof.
  intros V H.
  destruct (node_consistency_fresh _ _ _ _ _ H) as [_ R].
  destruct (R res eq_refl) as [Hres _]. split; [exact Hres |].
  unfold node_consistency in H. apply bind_Ok in H.
  destruct H as (dc & h1 & E1 & E2).
  pose proof (copy_domains_contents _ _ _ _ V E1) as Hh1.
  apply copy_domains_grows in E1. destruct E1 as [_ Rc].
  destruct (Rc dc eq_refl) as [Hdc _].
  assert (Hold : forall d, d < length h -> domain_at h1 d = domain_at h d).
  { intros d Hd. unfold domain_at. subst h1.
    rewrite lookup_app_l by exact Hd. reflexivity. }
  intros v r Hv.
  assert (Hr : r < length h).
  { rewrite Forall_forall in V. apply V. eapply list_elem_of_lookup_2, Hv. }
  eapply nc_loop_exact with (j := v) (dom := r) in E2.
  - destruct E2 as (cur & Ec & Hc). simpl in Ec, Hc. subst dc.
    apply lookup_seq in Ec. destruct Ec as [-> _].
    rewrite Hc, (Hold r Hr). reflexivity.
  - subst dc. apply NoDup_seq.
  - intros j d Hj.
    assert (Hd : d < length h).
    { rewrite Forall_forall in V. apply V. eapply list_elem_of_lookup_2, Hj. }
    split.
    + subst dc. rewrite in_seq. lia.
    + exists (length h + j). simpl. split.
      * subst dc. apply lookup_seq. split; [reflexivity |].
        eapply lookup_lt_Some, Hj.
      * rewrite (Hold d Hd). subst h1.
        rewrite lookup_app_r by lia.
        replace (length h + j - length h) with j by lia.
        rewrite list_lookup_fmap, Hj. reflexivity.
  - exact Hv.
Qed.

(** ** The entry point *)

Lemma unassigned_count_replicate n : unassigned_count (replicate n None) = n.
Proof.
  unfold unassigned_count. induction n as [| n IH]; simpl; [reflexivity |].
  rewrite IH. reflexivity.
Qed.

Lemma first_unassigned_replicate n :
  first_unassigned (replicate (S n) None) = Some 0.
Proof. reflexivity. Qed.

Section EntryPoint.

Variable constraint_eq : DateConstraint -> DateConstraint -> bool.
Variable pop_choice : nat -> list Arc -> nat.

Lemma solve_forgets_trace n date_range constraints h :
  solve constraint_eq pop_choice n date_range constraints h
  = (forget_trace (fst (solve_traced constraint_eq pop_choice n date_range
                                      constraints h)),
     snd (solve_traced constraint_eq pop_choice n date_range constraints h)).
Proof.
  unfold solve, bind.
  destruct (solve_traced constraint_eq pop_choice n date_range constraints h)
    as [[[r log] | e | ] h']; reflexivity.
Qed.

(** The three ways [solve] can go: node consistency stops it, arc
    consistency stops it, or the search ran on the filtered domains. *)
Lemma solve_traced_cases n date_range constraints h o h' :
  solve_traced constraint_eq pop_choice n date_range constraints h = (o, h') ->
  (exists o1, node_consistency (replicate n date_range) constraints h = (o1, h')
              /\ (forall doms, o1 <> Ok doms)
              /\ o = obind o1 (fun _ => Timeout))
  \/ exists doms h1,
       node_consistency (replicate n date_range) constraints h = (Ok doms, h1)
       /\ ((exists e, arc_consistency constraint_eq pop_choice doms constraints h1
                      = (Raise e, h') /\ o = Raise e)
           \/ (arc_consistency constraint_eq pop_choice doms constraints h1
               = (Ok tt, h')
               /\ exists o2 st',
                    recursive_csp_backtracker n h' doms constraints
                      (mkSearch (replicate n None) []) = (o2, st')
                    /\ o = obind o2 (fun r => Ok (r, tentative st')))).
Proof.
  unfold solve_traced, csp_backtracker. intros H.
  apply bind_cases in H.
  destruct H as [(doms & h1 & E1 & E2) | [(e & E1 & ->) | (E1 & ->)]].
  - right. exists doms, h1. split; [exact E1 |].
    apply bind_cases in E2.
    destruct E2 as [([] & h2 & E2 & E3) | [(e & E2 & ->) | (E2 & ->)]].
    + right.
      destruct (recursive_csp_backtracker n h2 doms constraints
                  (mkSearch (replicate n None) [])) as [o2 st'] eqn:Es.
      assert (h' = h2) by (destruct o2; inversion E3; reflexivity). subst h2.
      split; [exact E2 |]. exists o2, st'. split; [exact Es |].
      destruct o2; inversion E3; reflexivity.
    + left. exists e. split; [exact E2 | reflexivity].
    + apply arc_consistency_facts in E2. destruct E2 as [_ NT]. congruence.
  - left. exists (Raise e). split; [exact E1 |].
    split; [discriminate | reflexivity].
  - left. exists Timeout. split; [exact E1 |].
    split; [discriminate | reflexivity].
Qed.

(** [solve] leaves every object of the caller's store as it was. *)
Lemma solve_traced_store n date_range constraints h o h' :
  solve_traced constraint_eq pop_choice n date_range constraints h = (o, h') ->
  preserves_old h h'.
Proof.
  intros H. apply solve_traced_cases in H.
  assert (Hac : forall doms h1 o2,
    node_consistency (replicate n date_range) constraints h = (Ok doms, h1) ->
    arc_consistency constraint_eq pop_choice doms constraints h1 = (o2, h') ->
    preserves_old h h').
  { intros doms h1 o2 E1 E2.
    apply node_consistency_fresh in E1. destruct E1 as [[PL PF] R].
    destruct (R doms eq_refl) as [Hd L].
    apply arc_consistency_facts in E2. destruct E2 as [[WL WF] _].
    split; [lia |]. intros r Hr. rewrite WF; [apply PF, Hr |].
    subst doms. rewrite in_seq. lia. }
  destruct H as [(o1 & E1 & _) | (doms & h1 & E1 & [(e & E2 & _) | (E2 & _)])].
  - apply node_consistency_fresh in E1. apply E1.
  - eapply Hac; eassumption.
  - eapply Hac; eassumption.
Qed.

Lemma initial_arcs_unary constraints arcs :
  Forall (fun c => arity c = 1) constraints ->
  initial_arcs constraint_eq constraints arcs = Ok arcs.
Proof.
  induction 1 as [| c rest Hc _ IH]; simpl; [reflexivity |].
  rewrite Hc. simpl. exact IH.
Qed.

End EntryPoint.

(** ** Node consistency: a second run *)

Lemma nc_constraints_accepts idx cur date constraints h :
  node_ok constraints idx date = true ->
  nc_constraints idx cur date constraints h = (Ok tt, h).
Proof.
  unfold node_ok. induction constraints as [| c rest IH]; simpl; intros H.
  - reflexivity.
  - apply andb_true_iff in H. destruct H as [Hc Hrest].
    unfold bind.
    destruct ((arity c =? 1) && (L_VAL c =? idx)); simpl in Hc.
    + rewrite Hc. simpl. apply IH, Hrest.
    + apply IH, Hrest.
Qed.

Lemma nc_dates_accepts idx cur dates constraints h :
  (forall d, In d dates -> node_ok constraints idx d = true) ->
  nc_dates idx cur dates constraints h = (Ok tt, h).
Proof.
  induction dates as [| d rest IH]; simpl; intros H; [reflexivity |].
  unfold bind. rewrite nc_constraints_accepts by auto. apply IH. auto.
Qed.

Lemma copy_domains_returns domains h :
  Forall (fun r => exists s, h !! r = Some (PySet s)) domains ->
  exists rs h', copy_domains domains h = (Ok rs, h').
Proof.
  revert h. induction domains as [| dom rest IH]; intros h V; simpl.
  - eauto.
  - apply Forall_cons in V. destruct V as [(s & Hs) Vr].
    unfold bind at 1, deref. rewrite Hs. simpl.
    unfold bind at 1, lift. unfold bind at 1, alloc.
    destruct (IH (h ++ [PySet s])) as (rs & h' & E).
    { eapply Forall_impl; [exact Vr |]. intros r (s' & Hr).
      exists s'. apply lookup_app_l_Some, Hr. }
    unfold bind. rewrite E. eauto.
Qed.

Lemma nc_loop_accepts todo idx dom_copy domains constraints h :
  (forall j dom, todo !! j = Some dom ->
     is_Some (dom_copy !! (idx + j))
     /\ forall d, In d (domain_at h dom) ->
                  node_ok constraints (idx + j) d = true) ->
  exists res, nc_loop todo idx dom_copy domains constraints h = (Ok res, h).
Proof.
  revert idx domains. induction todo as [| dom rest IH];
    intros idx domains H; simpl.
  - eauto.
  - destruct (H 0 dom eq_refl) as [[cur Ec] Hok].
    rewrite Nat.add_0_r in Ec, Hok. rewrite Ec.
    unfold bind at 1, deref. unfold bind.
    fold (domain_at h dom). rewrite nc_dates_accepts by exact Hok.
    apply IH. intros j d Hj. specialize (H (S j) d Hj).
    rewrite Nat.add_succ_r in H. exact H.
Qed.

(** Run again on the domains it returned, node consistency returns and
    leaves in every domain what the first run left. *)
Lemma node_consistency_idempotent domains constraints h res h1 :
  Forall (fun r => r < length h) domains ->
  node_consistency domains constraints h = (Ok res, h1) ->
  exists res2 h2,
    node_consistency res constraints h1 = (Ok res2, h2)
    /\ forall v r, res !! v = Some r ->
         exists r2, res2 !! v = Some r2 /\ h2 !! r2 = h1 !! r.
Proof.
  intros V H.
  destruct (node_consistency_exact _ _ _ _ _ V H) as [Hres Hcells].
  destruct (node_consistency_fresh _ _ _ _ _ H) as [_ R].
  destruct (R res eq_refl) as [_ Hlen].
  assert (Hcell : forall v r, res !! v = Some r ->
            exists r0, domains !! v = Some r0 /\ r = length h + v
              /\ h1 !! r = Some (PySet (List.filter (node_ok constraints v)
                                                    (domain_at h r0)))).
  { intros v r Hv. subst res. apply lookup_seq in Hv. destruct Hv as [-> Hv].
    destruct (lookup_lt_is_Some_2 domains v Hv) as [r0 Hr0].
    exists r0. split; [exact Hr0 |]. split; [reflexivity |].
    apply Hcells, Hr0. }
  assert (V1 : Forall (fun r => r < length h1) res).
  { apply Forall_forall. intros r Hr. apply list_elem_of_lookup_1 in Hr.
    destruct Hr as [v Hv]. destruct (Hcell v r Hv) as (r0 & _ & _ & Hc).
    eapply lookup_lt_Some, Hc. }
  assert (Hret : exists res2 h2,
            node_consistency res constraints h1 = (Ok res2, h2)).
  { unfold node_consistency.
    destruct (copy_domains_returns res h1) as (dc & hc & Ec).
    { apply Forall_forall. intros r Hr. apply list_elem_of_lookup_1 in Hr.
      destruct Hr as [v Hv]. destruct (Hcell v r Hv) as (r0 & _ & _ & Hc).
      eauto. }
    unfold bind. rewrite Ec.
    pose proof (copy_domains_contents _ _ _ _ V1 Ec) as Hhc.
    apply copy_domains_grows in Ec. destruct Ec as [_ Rc].
    destruct (Rc dc eq_refl) as [Hdc _].
    destruct (nc_loop_accepts res 0 dc res constraints hc) as (res2 & E2).
    { intros j r Hj. simpl. split.
      - subst dc. apply lookup_lt_is_Some_2. rewrite length_seq.
        eapply lookup_lt_Some, Hj.
      - destruct (Hcell j r Hj) as (r0 & _ & _ & Hc).
        intros d Hd. unfold domain_at in Hd. subst hc.
        rewrite (lookup_app_l_Some _ _ _ _ Hc) in Hd. simpl in Hd.
        apply filter_In in Hd. apply Hd. }
    rewrite E2. eauto. }
  destruct Hret as (res2 & h2 & E). exists res2, h2. split; [exact E |].
  destruct (node_consistency_exact _ _ _ _ _ V1 E) as [Hres2 Hcells2].
  intros v r Hv. exists (length h1 + v). split.
  - subst res2. apply lookup_seq. split; [reflexivity |].
    eapply lookup_lt_Some, Hv.
  - rewrite (Hcells2 v r Hv).
    destruct (Hcell v r Hv) as (r0 & _ & _ & Hc). rewrite Hc.
    unfold domain_at at 1. rewrite Hc. simpl. f_equal. f_equal.
    apply filter_all. intros d Hd. apply filter_In in Hd. apply Hd.
Qed.

(** ** The model never runs out of fuel *)

Lemma set_remove_no_timeout r d h : fst (set_remove r d h) <> Timeout.
Proof.
  unfold set_remove. destruct (h !! r) as [[s | l] | ]; try discriminate.
  destruct (mem d s); discriminate.
Qed.

Lemma bind_no_timeout {A B} (m : M A) (k : A -> M B) h :
  fst (m h) <> Timeout ->
  (forall a h1, fst (k a h1) <> Timeout) ->
  fst (bind m k h) <> Timeout.
Proof.
  unfold bind. intros Hm Hk. destruct (m h) as [[a | e | ] h1]; simpl in *.
  - apply Hk.
  - discriminate.
  - congruence.
Qed.

Lemma nc_constraints_no_timeout idx cur date constraints h :
  fst (nc_constraints idx cur date constraints h) <> Timeout.
Proof.
  revert h. induction constraints as [| c rest IH]; intros h; simpl.
  - discriminate.
  - apply bind_no_timeout; [| intros _ h1; apply IH].
    destruct ((arity c =? 1) && (L_VAL c =? idx));
      [destruct (negb (is_satisfied_by_values c date None)) |];
      try discriminate.
    apply set_remove_no_timeout.
Qed.

Lemma nc_dates_no_timeout idx cur dates constraints h :
  fst (nc_dates idx cur dates constraints h) <> Timeout.
Proof.
  revert h. induction dates as [| d rest IH]; intros h; simpl.
  - discriminate.
  - apply bind_no_timeout; [apply nc_constraints_no_timeout |].
    intros _ h1. apply IH.
Qed.

Lemma copy_domains_no_timeout domains h :
  fst (copy_domains domains h) <> Timeout.
Proof.
  revert h. induction domains as [| dom rest IH]; intros h; simpl.
  - discriminate.
  - apply bind_no_timeout; [discriminate |]. intros o h1.
    apply bind_no_timeout.
    { unfold lift. destruct o as [s | [| x l]]; discriminate. }
    intros s h2. apply bind_no_timeout; [discriminate |]. intros r h3.
    apply bind_no_timeout; [apply IH |]. intros rs h4. discriminate.
Qed.

Lemma nc_loop_no_timeout todo idx dom_copy domains constraints h :
  fst (nc_loop todo idx dom_copy domains constraints h) <> Timeout.
Proof.
  revert idx domains h. induction todo as [| dom rest IH];
    intros idx domains h; simpl.
  - discriminate.
  - destruct (dom_copy !! idx) as [cur | ]; [| discriminate].
    apply bind_no_timeout; [discriminate |]. intros o h1.
    apply bind_no_timeout; [apply nc_dates_no_timeout |].
    intros _ h2. apply IH.
Qed.

Lemma node_consistency_no_timeout domains constraints h :
  fst (node_consistency domains constraints h) <> Timeout.
Proof.
  unfold node_consistency.
  apply bind_no_timeout; [apply copy_domains_no_timeout |].
  intros dc h1. apply nc_loop_no_timeout.
Qed.

(** [solve] returns or raises, for every input and every order of the
    worklist. *)
Lemma solve_no_timeout constraint_eq pop_choice n date_range constraints h :
  fst (solve constraint_eq pop_choice n date_range constraints h) <> Timeout.
Proof.
  rewrite solve_forgets_trace.
  destruct (solve_traced constraint_eq pop_choice n date_range constraints h)
    as [o h'] eqn:Es.
  simpl. apply solve_traced_cases in Es.
  destruct Es as [(o1 & E1 & Hno & ->)
                 | (doms & h1 & _ & [(e & _ & ->) | (_ & o2 & st' & Er & ->)])].
  - pose proof (node_consistency_no_timeout (replicate n date_range)
                  constraints h) as NT.
    rewrite E1 in NT. simpl in NT.
    destruct o1 as [d | e | ]; [destruct (Hno d eq_refl) | discriminate | congruence].
  - discriminate.
  - pose proof (recursive_csp_backtracker_no_timeout h' doms constraints n
                  (mkSearch (replicate n None) [])) as NT.
    rewrite Er in NT. simpl in NT.
    destruct o2 as [r | e | ]; [discriminate | discriminate |].
    exfalso. apply NT; [| reflexivity].
    rewrite unassigned_count_replicate. lia.
Qed.

(** ** Partly filled schedules *)

Lemma first_unassigned_full (l : list (option datetime)) :
  Forall (fun slot => is_Some slot) l -> first_unassigned l = None.
Proof.
  induction 1 as [| x l [d ->] _ IH]; simpl; [reflexivity |].
  rewrite IH. reflexivity.
Qed.

Lemma first_unassigned_app (l1 l2 : list (option datetime)) :
  Forall (fun slot => is_Some slot) l1 ->
  first_unassigned (l1 ++ None :: l2) = Some (length l1).
Proof.
  induction 1 as [| x l [d ->] _ IH]; simpl; [reflexivity |].
  rewrite IH. reflexivity.
Qed.

Lemma unassigned_count_app l1 l2 :
  unassigned_count (l1 ++ l2) = unassigned_count l1 + unassigned_count l2.
Proof.
  unfold unassigned_count. rewrite map_app, list_sum_app. reflexivity.
Qed.

Lemma unassigned_count_full (l : list (option datetime)) :
  Forall (fun slot => is_Some slot) l -> unassigned_count l = 0.
Proof.
  unfold unassigned_count.
  induction 1 as [| x l [d ->] _ IH]; simpl; [reflexivity | exact IH].
Qed.

Lemma filter_NoDup {A} (f : A -> bool) (l : list A) :
  NoDup l -> NoDup (List.filter f l).
Proof.
  induction 1 as [| x l Hx ND IH]; simpl; [constructor |].
  destruct (f x); [| exact IH].
  constructor; [| exact IH].
  intros Hin. apply Hx. apply list_elem_of_In in Hin.
  apply filter_In in Hin. apply list_elem_of_In, Hin.
Qed.

Lemma no_constraint_accepts_nothing c :
  is_satisfied_by_assignment c [] <> Ok true.
Proof. destruct c; discriminate. Qed.

(** ** Completeness, when node consistency returns *)

Section Completeness.

Variable constraint_eq : DateConstraint -> DateConstraint -> bool.
Variable pop_choice : nat -> list Arc -> nat.
Variable constraints : list DateConstraint.

(** A schedule that satisfies every constraint. *)
Variable a : list (option datetime).
Hypothesis a_full : Forall (fun slot => is_Some slot) a.
Hypothesis a_satisfies : all_satisfied constraints a.

Lemma solution_lookup v :
  v < length a -> exists d, a !! v = Some (Some d).
Proof.
  intros Hv. destruct (lookup_lt_is_Some_2 a v Hv) as [slot Hs].
  rewrite Forall_lookup in a_full. destruct (a_full v slot Hs) as [d ->].
  eauto.
Qed.

Lemma solution_unary l test d :
  In (Unary l test) constraints -> a !! l = Some (Some d) -> test d = true.
Proof.
  intros Hc Hl. unfold all_satisfied in a_satisfies.
  rewrite Forall_forall in a_satisfies.
  apply list_elem_of_In, a_satisfies in Hc. simpl in Hc.
  rewrite Hl in Hc. inversion Hc. reflexivity.
Qed.

Lemma solution_binary l r test d1 d2 :
  In (Binary l r test) constraints ->
  a !! l = Some (Some d1) -> a !! r = Some (Some d2) -> test d1 d2 = true.
Proof.
  intros Hc Hl Hr. unfold all_satisfied in a_satisfies.
  rewrite Forall_forall in a_satisfies.
  apply list_elem_of_In, a_satisfies in Hc. simpl in Hc.
  rewrite Hl, Hr in Hc. inversion Hc. reflexivity.
Qed.

Lemma solution_in_range : Forall (in_range (length a)) constraints.
Proof.
  unfold all_satisfied in a_satisfies.
  eapply Forall_impl; [exact a_satisfies |].
  intros c Hc. unfold in_range. destruct c as [l test | l r test]; simpl in *.
  - destruct (a !! l) eqn:El; [| discriminate].
    split; [eapply lookup_lt_Some, El | intros; discriminate].
  - destruct (a !! l) eqn:El; [| discriminate].
    destruct (a !! r) eqn:Er; [| discriminate].
    split; [eapply lookup_lt_Some, El |].
    intros r' E. inversion E; subst. eapply lookup_lt_Some, Er.
Qed.

Lemma solution_node_ok v d :
  a !! v = Some (Some d) -> node_ok constraints v d = true.
Proof.
  intros Hv. unfold node_ok. apply forallb_forall. intros c Hc.
  destruct c as [l test | l r test]; simpl; [| reflexivity].
  destruct (l =? v) eqn:E; simpl; [| reflexivity].
  apply Nat.eqb_eq in E. subst l. eapply solution_unary; eassumption.
Qed.

(** *** Arc consistency keeps the solution *)

Lemma Arc_init_supported c :
  In c constraints -> (1 <? arity c) = true ->
  exists a1 a2, Arc_init c = Ok a1 /\ Arc_init (get_reverse c) = Ok a2
                /\ arc_supported a a1 /\ arc_supported a a2.
Proof.
  intros Hc Har. destruct c as [l test | l r test]; [discriminate |].
  pose proof solution_in_range as IR. rewrite Forall_forall in IR.
  destruct (IR _ (proj2 (list_elem_of_In _ _) Hc)) as [Hl Hr]. simpl in Hl.
  specialize (Hr r eq_refl).
  eexists. eexists. split; [reflexivity |]. split; [reflexivity |].
  split; (split; [simpl; assumption |]; split; [simpl; assumption |]);
    simpl; intros dt dh Ht Hh.
  - eapply solution_binary; eassumption.
  - eapply solution_binary; eassumption.
Qed.

Lemma arcs_add_supported arc arcs :
  arc_supported a arc -> Forall (arc_supported a) arcs ->
  Forall (arc_supported a) (arcs_add constraint_eq arc arcs).
Proof.
  intros Ha Hs. unfold arcs_add. destruct (existsb _ arcs); [exact Hs |].
  apply Forall_app. split; [exact Hs | constructor; [exact Ha | constructor]].
Qed.

Lemma initial_arcs_supported cs arcs :
  (forall c, In c cs -> In c constraints) ->
  Forall (arc_supported a) arcs ->
  exists arcs', initial_arcs constraint_eq cs arcs = Ok arcs'
                /\ Forall (arc_supported a) arcs'.
Proof.
  revert arcs. induction cs as [| c rest IH]; intros arcs Hsub Hs; simpl.
  - eauto.
  - destruct (1 <? arity c) eqn:Har.
    + destruct (Arc_init_supported c (Hsub c (or_introl eq_refl)) Har)
        as (a1 & a2 & -> & -> & S1 & S2).
      simpl. apply IH; [intros; apply Hsub; right; assumption |].
      apply arcs_add_supported; [exact S2 |].
      apply arcs_add_supported; assumption.
    + apply IH; [intros; apply Hsub; right; assumption | exact Hs].
Qed.

Lemma requeue_supported cs tail arcs :
  (forall c, In c cs -> In c constraints) ->
  Forall (arc_supported a) arcs ->
  exists arcs', requeue constraint_eq cs tail arcs = Ok arcs'
                /\ Forall (arc_supported a) arcs'.
Proof.
  revert arcs. induction cs as [| c rest IH]; intros arcs Hsub Hs; simpl.
  - eauto.
  - destruct ((1 <? arity c) && bool_decide (R_VAL c = Some tail)) eqn:E.
    + apply andb_true_iff in E. destruct E as [Har _].
      destruct (Arc_init_supported c (Hsub c (or_introl eq_refl)) Har)
        as (a1 & a2 & -> & _ & S1 & _).
      simpl. apply IH; [intros; apply Hsub; right; assumption |].
      apply arcs_add_supported; assumption.
    + apply IH; [intros; apply Hsub; right; assumption | exact Hs].
Qed.

Lemma revise_loop_keeps c tail_dom head_dom dt dh tails removed h st :
  h !! tail_dom = Some (PySet st) ->
  NoDup tails -> (forall t, In t tails -> In t st) ->
  In dt st ->
  In dh (domain_at h head_dom) ->
  (head_dom = tail_dom -> dh = dt) ->
  is_satisfied_by_values c dt (Some dh) = true ->
  exists b st',
    revise_loop c tail_dom head_dom tails removed h
    = (Ok b, <[tail_dom := PySet st']> h)
    /\ In dt st' /\ (NoDup st -> NoDup st').
Proof.
  revert removed h st. induction tails as [| t rest IH];
    intros removed h st Hcell ND Hin Hdt Hdh Halias Hsup; simpl.
  - exists removed, st. rewrite list_insert_id by exact Hcell.
    split; [reflexivity | auto].
  - apply NoDup_cons in ND. destruct ND as [Ht ND].
    unfold bind at 1, deref. fold (domain_at h head_dom).
    destruct (existsb (fun head => is_satisfied_by_values c t (Some head))
                      (domain_at h head_dom)) eqn:Ex.
    + apply IH; auto. intros x Hx. apply Hin. right. exact Hx.
    + assert (Hne : t <> dt).
      { intros ->. assert (Hex : existsb
            (fun head => is_satisfied_by_values c dt (Some head))
            (domain_at h head_dom) = true)
          by (apply existsb_exists; eauto).
        congruence. }
      unfold bind.
      rewrite (set_remove_present _ _ _ _ Hcell)
        by (apply mem_In, Hin; left; reflexivity).
      set (h1 := <[tail_dom := PySet (discard t st)]> h).
      assert (Hlt : tail_dom < length h) by (eapply lookup_lt_Some, Hcell).
      assert (Hcell1 : h1 !! tail_dom = Some (PySet (discard t st)))
        by (apply list_lookup_insert_eq, Hlt).
      destruct (IH true h1 (discard t st)) as (b & st' & E & Hdt' & ND').
      * exact Hcell1.
      * exact ND.
      * intros x Hx. apply discard_In. split; [apply Hin; right; exact Hx |].
        intros ->. apply Ht, list_elem_of_In, Hx.
      * apply discard_In. split; [exact Hdt | congruence].
      * destruct (decide (head_dom = tail_dom)) as [-> | Hd].
        -- unfold domain_at. rewrite Hcell1. simpl.
           rewrite (Halias eq_refl). apply discard_In.
           split; [exact Hdt | congruence].
        -- unfold domain_at, h1. rewrite list_lookup_insert_ne by congruence.
           exact Hdh.
      * exact Halias.
      * exact Hsup.
      * exists b, st'. unfold h1 in E. rewrite list_insert_insert_eq in E.
        split; [exact E |]. split; [exact Hdt' |].
        intros NDs. apply ND', discard_NoDup, NDs.
Qed.

Lemma inconsistent_val_removal_keeps doms arc h :
  domains_hold a doms h -> arc_supported a arc ->
  exists b h', inconsistent_val_removal doms arc h = (Ok b, h')
               /\ domains_hold a doms h'.
Proof.
  intros (ND & Hlen & Hcells) (Ht & Hh & Hsup).
  destruct (solution_lookup _ Ht) as [dt Hdt].
  destruct (solution_lookup _ Hh) as [dh Hdh].
  destruct (Hcells _ _ Hdt) as (rt & st & Ert & Hst & NDt & Hint).
  destruct (Hcells _ _ Hdh) as (rh & sh & Erh & Hsh & NDh & Hinh).
  unfold inconsistent_val_removal. rewrite Ert, Erh.
  unfold bind, deref. rewrite Hst. simpl.
  destruct (revise_loop_keeps (CONSTRAINT arc) rt rh dt dh st false h st)
    as (b & st' & E & Hdt' & ND'); auto.
  { unfold domain_at. rewrite Hsh. exact Hinh. }
  { intros ->. pose proof (NoDup_lookup _ _ _ _ ND Ert Erh) as Eq.
    rewrite Eq in Hdt. congruence. }
  exists b, (<[rt := PySet st']> h). split; [exact E |].
  split; [exact ND |]. split; [exact Hlen |].
  intros v d Hv. destruct (Hcells _ _ Hv) as (r & s0 & Er & Hs0 & NDs & Hins).
  destruct (decide (r = rt)) as [-> | Hne].
  - pose proof (NoDup_lookup _ _ _ _ ND Er Ert) as Eq. subst v.
    assert (d = dt) by congruence. subst d.
    exists rt, st'. split; [exact Er |].
    split; [apply list_lookup_insert_eq; eapply lookup_lt_Some, Hst |].
    split; [apply ND', NDt | exact Hdt'].
  - exists r, s0. split; [exact Er |].
    split; [rewrite list_lookup_insert_ne by congruence; exact Hs0 |].
    split; assumption.
Qed.

Lemma ac_loop_keeps fuel doms arcs h :
  domains_hold a doms h -> Forall (arc_supported a) arcs ->
  exists o h',
    ac_loop constraint_eq pop_choice fuel doms constraints arcs h = (o, h')
    /\ (o = Ok tt \/ o = Timeout) /\ domains_hold a doms h'.
Proof.
  revert arcs h. induction fuel as [| fuel IH]; intros arcs h Hh Hs.
  - destruct arcs; eexists; eexists; (split; [reflexivity |]); auto.
  - destruct arcs as [| a0 arcs0].
    + eexists; eexists; (split; [reflexivity |]); auto.
    + destruct (arcs_pop_nonempty pop_choice fuel a0 arcs0)
        as (arc & arcs' & Ep & _ & Harc & Hsub).
      rewrite Forall_forall in Hs.
      destruct (inconsistent_val_removal_keeps doms arc h Hh)
        as (b & h1 & E1 & Hh1).
      { apply Hs, list_elem_of_In, Harc. }
      assert (Hs' : Forall (arc_supported a) arcs').
      { apply Forall_forall. intros x Hx.
        apply Hs, list_elem_of_In, Hsub, list_elem_of_In, Hx. }
      cbn [ac_loop]. unfold bind at 1, ac_step. rewrite Ep.
      unfold ac_turn, bind at 1. rewrite E1.
      destruct b.
      * destruct (requeue_supported constraints (TAIL arc) arcs')
          as (arcs2 & Er & Hs2); auto.
        unfold lift. rewrite Er. apply IH; assumption.
      * unfold ret. apply IH; assumption.
Qed.

Lemma arc_consistency_keeps doms h :
  domains_hold a doms h ->
  exists h', arc_consistency constraint_eq pop_choice doms constraints h
             = (Ok tt, h')
             /\ domains_hold a doms h'.
Proof.
  intros Hh.
  destruct (arc_consistency constraint_eq pop_choice doms constraints h)
    as [o h'] eqn:E.
  pose proof (arc_consistency_facts _ _ _ _ _ _ _ E) as [_ NT].
  unfold arc_consistency, ac_preprocessing, bind, lift in E.
  destruct (initial_arcs_supported constraints []) as (arcs & Ea & Hs);
    [auto | constructor |].
  rewrite Ea in E.
  destruct (ac_loop_keeps (ac_fuel h constraints arcs) doms arcs h Hh Hs)
    as (o' & h'' & E' & Ho & Hh').
  rewrite E' in E. inversion E; subst.
  exists h'. split; [| exact Hh'].
  destruct Ho as [-> | ->]; [reflexivity | congruence].
Qed.

(** *** The search finds a schedule *)

Lemma partial_schedule_length j :
  length (partial_schedule a j) = length a.
Proof.
  unfold partial_schedule.
  rewrite length_app, length_take, length_replicate. lia.
Qed.

Lemma partial_schedule_lookup j v :
  v < length a ->
  partial_schedule a j !! v = if decide (v < j) then a !! v else Some None.
Proof.
  intros Hv. unfold partial_schedule. destruct (decide (v < j)) as [Hj | Hj].
  - rewrite lookup_app_l by (rewrite length_take; lia).
    apply lookup_take_lt, Hj.
  - rewrite lookup_app_r by (rewrite length_take; lia).
    apply lookup_replicate_2. rewrite length_take. lia.
Qed.

Lemma partial_schedule_full : partial_schedule a (length a) = a.
Proof.
  unfold partial_schedule. rewrite take_ge by lia.
  rewrite Nat.sub_diag. apply app_nil_r.
Qed.

Lemma partial_schedule_assign j d :
  a !! j = Some (Some d) ->
  <[j := Some d]> (partial_schedule a j) = partial_schedule a (S j).
Proof.
  intros Hj. pose proof (lookup_lt_Some _ _ _ Hj) as Hlt.
  unfold partial_schedule. rewrite (take_S_r a j (Some d) Hj).
  replace (length a - j) with (S (length a - S j)) by lia. simpl.
  rewrite insert_app_r_alt by (rewrite length_take; lia).
  rewrite length_take.
  replace (j - j `min` length a) with 0 by lia. simpl.
  rewrite <- app_assoc. reflexivity.
Qed.

Lemma partial_schedule_unassigned j :
  j < length a -> partial_schedule a j !! j = Some None.
Proof.
  intros Hj. rewrite partial_schedule_lookup by exact Hj.
  destruct (decide (j < j)); [lia | reflexivity].
Qed.

Lemma first_unassigned_partial j :
  j < length a -> first_unassigned (partial_schedule a j) = Some j.
Proof.
  intros Hj. unfold partial_schedule.
  replace (length a - j) with (S (length a - S j)) by lia. simpl.
  rewrite first_unassigned_app by (apply Forall_take, a_full).
  rewrite length_take. f_equal. lia.
Qed.

Lemma unassigned_count_partial j :
  unassigned_count (partial_schedule a j) = length a - j.
Proof.
  unfold partial_schedule. rewrite unassigned_count_app.
  rewrite unassigned_count_full by (apply Forall_take, a_full).
  apply unassigned_count_replicate.
Qed.

Lemma partial_schedule_satisfies j :
  all_satisfied constraints (partial_schedule a j).
Proof.
  unfold all_satisfied. apply Forall_forall. intros c Hc.
  apply list_elem_of_In in Hc.
  pose proof solution_in_range as IR. rewrite Forall_forall in IR.
  destruct (IR c (proj2 (list_elem_of_In _ _) Hc)) as [Hl Hr].
  destruct c as [l test | l r test]; simpl in *.
  - rewrite partial_schedule_lookup by exact Hl.
    destruct (solution_lookup l Hl) as [d Hd].
    destruct (decide (l < j)); [| reflexivity].
    rewrite Hd. f_equal. eapply solution_unary; eassumption.
  - specialize (Hr r eq_refl).
    rewrite !partial_schedule_lookup by assumption.
    destruct (solution_lookup l Hl) as [d1 Hd1].
    destruct (solution_lookup r Hr) as [d2 Hd2].
    destruct (decide (l < j)), (decide (r < j));
      rewrite ?Hd1, ?Hd2; try reflexivity.
    f_equal. eapply solution_binary; eassumption.
Qed.

Lemma try_values_finds recurse j d values st :
  search_contract constraints recurse ->
  a !! j = Some (Some d) ->
  (forall x st1,
     assignments st1 = <[j := Some x]> (partial_schedule a j) ->
     exists r st2, recurse st1 = (Ok r, st2)) ->
  (forall st1,
     assignments st1 = partial_schedule a (S j) ->
     exists a' st2, recurse st1 = (Ok (Some a'), st2)) ->
  assignments st = partial_schedule a j ->
  In d values ->
  exists a' st',
    try_values recurse constraints j values st = (Ok (Some a'), st').
Proof.
  intros HC Hj Hok Hsol. pose proof (lookup_lt_Some _ _ _ Hj) as Hlt.
  revert st. induction values as [| x rest IH]; intros st Hst Hin;
    [destruct Hin |].
  simpl. rewrite Hst.
  assert (Hback : forall st3, assignments st3 = partial_schedule a j ->
            x <> d ->
            exists a' st',
              try_values recurse constraints j rest st3 = (Ok (Some a'), st')).
  { intros st3 E Hne. apply IH; [exact E |].
    destruct Hin as [-> | Hin]; [congruence | exact Hin]. }
  assert (Hgood : x = d ->
            check_constraints constraints
              (<[j := Some x]> (partial_schedule a j)) = Ok true).
  { intros ->. rewrite (partial_schedule_assign _ _ Hj).
    apply check_constraints_true, partial_schedule_satisfies. }
  destruct (check_constraints constraints
              (<[j := Some x]> (partial_schedule a j))) as [[ | ] | e | ] eqn:Ec.
  - destruct (Hok x (assign j x st)) as (r & st2 & Er);
      [simpl; rewrite Hst; reflexivity |].
    rewrite Er. destruct (truthy r) eqn:Et.
    + destruct r as [[| y l] | ]; try discriminate. eauto.
    + destruct (HC _ _ _ Er) as [Hrest Hsome]. specialize (Hrest Et).
      apply Hback.
      * simpl. rewrite Hrest. simpl. rewrite Hst.
        apply assign_unassign, partial_schedule_unassigned, Hlt.
      * intros ->. destruct (Hsol (assign j d st)) as (a' & st2' & Er').
        { simpl. rewrite Hst. apply partial_schedule_assign, Hj. }
        rewrite Er in Er'. inversion Er'; subst r st2'.
        destruct (Hsome a' eq_refl) as (_ & _ & Hl & _).
        simpl in Hl. rewrite length_insert, Hst, partial_schedule_length in Hl.
        destruct a' as [| y l]; [simpl in Hl; lia | discriminate].
  - apply Hback.
    + simpl. rewrite list_insert_insert_eq, Hst.
      apply assign_unassign, partial_schedule_unassigned, Hlt.
    + intros E. specialize (Hgood E). congruence.
  - apply check_constraints_raises in Ec. destruct Ec as [_ N].
    rewrite length_insert, partial_schedule_length in N.
    destruct (N solution_in_range).
  - destruct (check_constraints_no_timeout _ _ Ec).
Qed.

Lemma search_finds h doms fuel j st :
  domains_hold a doms h ->
  j <= length a -> length a - j <= fuel ->
  assignments st = partial_schedule a j ->
  exists a' st',
    recursive_csp_backtracker fuel h doms constraints st = (Ok (Some a'), st').
Proof.
  intros Hh. revert j st. induction fuel as [| fuel IH]; intros j st Hj Hf Hst.
  - assert (j = length a) by lia. subst j.
    simpl. rewrite Hst, partial_schedule_full.
    rewrite (first_unassigned_full _ a_full). eauto.
  - destruct (decide (j = length a)) as [-> | Hne].
    + simpl. rewrite Hst, partial_schedule_full.
      rewrite (first_unassigned_full _ a_full). eauto.
    + assert (Hlt : j < length a) by lia.
      destruct (solution_lookup j Hlt) as [d Hd].
      destruct Hh as (ND & Hlen & Hcells).
      destruct (Hcells _ _ Hd) as (r & s & Er & Hs & _ & Hin).
      simpl. rewrite Hst, (first_unassigned_partial _ Hlt), Er, Hs. simpl.
      eapply try_values_finds; [| exact Hd | | | exact Hst | exact Hin].
      * apply recursive_csp_backtracker_contract.
      * intros x st1 E1.
        destruct (recursive_csp_backtracker fuel h doms constraints st1)
          as [[res | e | ] st2] eqn:Es.
        -- eauto.
        -- apply recursive_csp_backtracker_raises in Es.
           ++ destruct Es as [_ N]. rewrite Hlen in N.
              destruct (N solution_in_range).
           ++ rewrite E1, length_insert, partial_schedule_length. exact Hlen.
        -- pose proof (recursive_csp_backtracker_no_timeout h doms constraints
                         fuel st1) as NT.
           rewrite Es in NT. exfalso. apply NT; [| reflexivity].
           rewrite E1.
           pose proof (unassigned_count_assign _ _ x
                         (partial_schedule_unassigned _ Hlt)) as Hc.
           rewrite unassigned_count_partial in Hc. lia.
      * intros st1 E1. apply (IH (S j)); [lia | lia | exact E1].
Qed.

End Completeness.

(** A schedule that [solve] returns is full and passed the last check. *)
Lemma solve_schedule_checked constraint_eq pop_choice
    n_meetings date_range constraints h a h' :
  1 <= n_meetings \/ constraints = [] ->
  solve constraint_eq pop_choice n_meetings date_range constraints h
  = (Ok (Some a), h') ->
  full_schedule n_meetings a /\ all_satisfied constraints a.
Proof.
  intros Hn H. rewrite solve_forgets_trace in H.
  destruct (solve_traced constraint_eq pop_choice n_meetings date_range
              constraints h) as [o h1] eqn:Es.
  simpl in H. inversion H; subst h1. clear H.
  apply solve_traced_cases in Es.
  destruct Es as [(o1 & _ & Hno & ->)
                 | (doms & h1 & _ & [(e & _ & ->) | (_ & o2 & st' & Er & ->)])].
  - destruct o1 as [d | e | ]; [destruct (Hno d eq_refl) | |]; discriminate.
  - discriminate.
  - destruct o2 as [r | e | ]; try discriminate.
    simpl in H1. inversion H1; subst r. clear H1.
    apply recursive_csp_backtracker_contract in Er.
    destruct Er as [_ Hsome].
    destruct (Hsome a eq_refl) as (_ & Hfull & Hlen & Hsat).
    simpl in Hlen. rewrite length_replicate in Hlen.
    split; [split; assumption |].
    apply Hsat. unfold checked. simpl.
    destruct Hn as [Hn | ->].
    + right. destruct n_meetings as [| n]; [lia | discriminate].
    + left. constructor.
Qed.

(** When node consistency returns, [solve] finds a schedule for every
    problem that has one among the candidates. *)
Lemma solve_complete_when_node_consistency_returns constraint_eq pop_choice
    n_meetings date_range constraints h s a doms h1 :
  h !! date_range = Some (PySet s) ->
  NoDup s ->
  length a = n_meetings ->
  Forall (fun slot => exists d, slot = Some d /\ In d s) a ->
  all_satisfied constraints a ->
  node_consistency (replicate n_meetings date_range) constraints h
  = (Ok doms, h1) ->
  exists a' h',
    solve constraint_eq pop_choice n_meetings date_range constraints h
    = (Ok (Some a'), h')
    /\ full_schedule n_meetings a' /\ all_satisfied constraints a'.
Proof.
  intros Hd NDs Hlen Hdrawn Hsat Hnc.
  assert (Hfull : Forall (fun slot => is_Some slot) a).
  { eapply Forall_impl; [exact Hdrawn |]. intros slot (d & -> & _). eauto. }
  pose proof (lookup_lt_Some _ _ _ Hd) as Hlt.
  assert (V : Forall (fun r => r < length h) (replicate n_meetings date_range))
    by (apply Forall_replicate; exact Hlt).
  destruct (node_consistency_exact _ _ _ _ _ V Hnc) as [Hdoms Hcells].
  rewrite length_replicate in Hdoms.
  assert (Hh1 : domains_hold a doms h1).
  { split; [subst doms; apply NoDup_seq |].
    split; [subst doms; rewrite length_seq; congruence |].
    intros v d Hv. pose proof (lookup_lt_Some _ _ _ Hv) as Hvn.
    rewrite Hlen in Hvn.
    exists (length h + v), (List.filter (node_ok constraints v) s).
    split; [subst doms; apply lookup_seq; split; [reflexivity | exact Hvn] |].
    split.
    { rewrite (Hcells v date_range (lookup_replicate_2 _ _ _ Hvn)).
      unfold domain_at. rewrite Hd. reflexivity. }
    split; [apply filter_NoDup, NDs |].
    apply filter_In. split.
    - rewrite Forall_lookup in Hdrawn.
      destruct (Hdrawn v _ Hv) as (d' & E & Hin). inversion E; subst. exact Hin.
    - eapply solution_node_ok; eassumption. }
  destruct (arc_consistency_keeps constraint_eq pop_choice constraints a
              Hfull Hsat doms h1 Hh1) as (h2 & Hac & Hh2).
  destruct (search_finds constraints a Hfull Hsat h2 doms n_meetings 0
              (mkSearch (replicate n_meetings None) []) Hh2)
    as (a' & st' & Es).
  { lia. }
  { lia. }
  { simpl. unfold partial_schedule. rewrite take_0, Nat.sub_0_r, Hlen.
    reflexivity. }
  assert (Hsolve : solve constraint_eq pop_choice n_meetings date_range
                     constraints h = (Ok (Some a'), h2)).
  { unfold solve, solve_traced, csp_backtracker, bind.
    rewrite Hnc, Hac, Es. reflexivity. }
  exists a', h2. split; [exact Hsolve |].
  eapply solve_schedule_checked; [| exact Hsolve].
  destruct n_meetings as [| n]; [right | left; lia].
  destruct a; [| discriminate].
  destruct constraints as [| c rest]; [reflexivity |].
  inversion Hsat; subst.
  exfalso. eapply no_constraint_accepts_nothing. eassumption.
Qed.

(** ** The claims *)

Section Claims.

Variable constraint_eq : DateConstraint -> DateConstraint -> bool.
Variable pop_choice : nat -> list Arc -> nat.

(** C1, as amended: with at least one meeting (or no constraint at all),
    a schedule that [solve] returns has a datetime in each of its
    [n_meetings] slots and every constraint's [is_satisfied_by_assignment]
    yields true on it. *)
Theorem solve_sound n_meetings date_range constraints h a h' :
  1 <= n_meetings \/ constraints = [] ->
  solve constraint_eq pop_choice n_meetings date_range constraints h
  = (Ok (Some a), h') ->
  full_schedule n_meetings a /\ all_satisfied constraints a.
Proof. apply solve_schedule_checked. Qed.

(** C3: given a list of candidate sets and at least one meeting, [solve]
    raises [TypeError] instead of searching each meeting's own set. *)
Theorem solve_list_of_sets_raises n date_range constraints h first others :
  h !! date_range = Some (PyList (first :: others)) ->
  solve constraint_eq pop_choice (S n) date_range constraints h
  = (Raise TypeError, h).
Proof.
  intros Hd. unfold solve, solve_traced, csp_backtracker, node_consistency.
  simpl. unfold bind, deref, lift. rewrite Hd. reflexivity.
Qed.

(** C6, as amended: when filtering leaves variable [k] without candidates,
    [solve] returns no schedule: it returns [None], having tried values
    only for variables before [k], or it raises [IndexError] because a
    constraint names a variable outside the meetings. *)
Theorem empty_domain_gives_no_schedule
    n_meetings date_range constraints h doms h1 h2 k r :
  node_consistency (replicate n_meetings date_range) constraints h
  = (Ok doms, h1) ->
  arc_consistency constraint_eq pop_choice doms constraints h1 = (Ok tt, h2) ->
  doms !! k = Some r ->
  domain_at h2 r = [] ->
  exists o,
    solve_traced constraint_eq pop_choice n_meetings date_range constraints h
    = (o, h2)
    /\ solve constraint_eq pop_choice n_meetings date_range constraints h
       = (forget_trace o, h2)
    /\ match o with
       | Ok (result, tried) =>
           result = None /\ Forall (fun e => fst e < k) tried
       | Raise e =>
           e = IndexError /\ ~ Forall (in_range n_meetings) constraints
       | Timeout => False
       end.
Proof.
  intros Hnc Hac Hk Hempty.
  destruct (recursive_csp_backtracker n_meetings h2 doms constraints
              (mkSearch (replicate n_meetings None) [])) as [o2 st'] eqn:Es.
  exists (obind o2 (fun res => Ok (res, tentative st'))).
  assert (Ht : solve_traced constraint_eq pop_choice n_meetings date_range
                 constraints h
               = (obind o2 (fun res => Ok (res, tentative st')), h2)).
  { unfold solve_traced, csp_backtracker, bind. rewrite Hnc, Hac, Es.
    destruct o2; reflexivity. }
  split; [exact Ht |].
  split; [rewrite solve_forgets_trace, Ht; reflexivity |].
  apply node_consistency_fresh in Hnc. destruct Hnc as [_ R].
  destruct (R doms eq_refl) as [Hd _].
  rewrite length_replicate in Hd.
  assert (Hlen : length doms = n_meetings) by (subst doms; apply length_seq).
  assert (Hkn : k < n_meetings) by (rewrite <- Hlen; eapply lookup_lt_Some, Hk).
  destruct o2 as [res | e | ]; simpl.
  - eapply recursive_csp_backtracker_blocked in Es;
      [| exact Hk | exact Hempty | simpl; apply lookup_replicate_2, Hkn].
    destruct Es as [Hres (new & Hlog & Hnew)].
    split; [apply Hres; reflexivity |].
    rewrite Hlog. simpl. rewrite app_nil_r. exact Hnew.
  - apply recursive_csp_backtracker_raises in Es.
    + rewrite Hlen in Es. exact Es.
    + simpl. rewrite length_replicate. exact Hlen.
  - pose proof (recursive_csp_backtracker_no_timeout h2 doms constraints
                  n_meetings (mkSearch (replicate n_meetings None) [])) as NT.
    rewrite Es in NT. apply NT; [| reflexivity].
    simpl. rewrite unassigned_count_replicate. lia.
Qed.

(** C7: with one shared candidate set, the caller's set holds the same
    elements after [solve] as before, whatever the outcome; node
    consistency, whatever its outcome, changes no object that existed
    before it, so not the set that all domains alias when it starts; the
    domains it hands on are cells of their own, one per variable, none of
    them the caller's set, and variable [v]'s cell holds what [v]'s own
    unary constraints accept; and a revision changes no domain but its
    arc's tail. *)
Theorem shared_set_never_mutated n_meetings date_range constraints h s :
  h !! date_range = Some (PySet s) ->
  (forall o h',
     solve constraint_eq pop_choice n_meetings date_range constraints h
     = (o, h') ->
     h' !! date_range = Some (PySet s))
  /\ (forall o h1,
       node_consistency (replicate n_meetings date_range) constraints h
       = (o, h1) ->
       preserves_old h h1)
  /\ forall doms h1,
       node_consistency (replicate n_meetings date_range) constraints h
       = (Ok doms, h1) ->
       NoDup doms
       /\ ~ In date_range doms
       /\ (forall v, v < n_meetings ->
             exists r, doms !! v = Some r
                       /\ h1 !! r
                          = Some (PySet (List.filter (node_ok constraints v) s)))
       /\ forall arc hx ox hy v r,
            inconsistent_val_removal doms arc hx = (ox, hy) ->
            v <> TAIL arc -> doms !! v = Some r ->
            hy !! r = hx !! r.
Proof.
  intros Hd. pose proof (lookup_lt_Some _ _ _ Hd) as Hlt. split.
  - intros o h' H. rewrite solve_forgets_trace in H.
    destruct (solve_traced constraint_eq pop_choice n_meetings date_range
                constraints h) as [o1 h1] eqn:Es.
    simpl in H. inversion H; subst h1.
    apply solve_traced_store in Es. destruct Es as [_ F].
    rewrite F by exact Hlt. exact Hd.
  - split; [intros o h1 Hnc; apply node_consistency_fresh in Hnc; apply Hnc |].
    intros doms h1 Hnc.
    assert (V : Forall (fun r => r < length h) (replicate n_meetings date_range)).
    { apply Forall_replicate. exact Hlt. }
    destruct (node_consistency_exact _ _ _ _ _ V Hnc) as [Hdoms Hcells].
    rewrite length_replicate in Hdoms.
    assert (ND : NoDup doms) by (subst doms; apply NoDup_seq).
    split; [exact ND |].
    split; [subst doms; rewrite in_seq; lia |].
    split.
    + intros v Hv. exists (length h + v). split.
      * subst doms. apply lookup_seq. split; [reflexivity | exact Hv].
      * rewrite (Hcells v date_range (lookup_replicate_2 _ _ _ Hv)).
        unfold domain_at. rewrite Hd. reflexivity.
    + intros arc hx ox hy v r Hrev Hv Hr.
      apply inconsistent_val_removal_facts in Hrev.
      destruct Hrev as [[_ F] _]. apply F.
      intros Ht. apply Hv. eapply NoDup_lookup; eassumption.
Qed.

(** C8: an [Arc] cannot be built from a constraint whose [R_VAL] is not a
    variable index: the constructor raises [ValueError] and yields no
    arc. *)
Theorem Arc_init_unary_raises constraint :
  R_VAL constraint = None ->
  Arc_init constraint = Raise ValueError
  /\ forall a, Arc_init constraint <> Ok a.
Proof.
  intros H. unfold Arc_init. rewrite H. split; [reflexivity | discriminate].
Qed.

(** C10, as amended: with no meeting to schedule and no constraint of
    arity above 1, [solve] returns the empty list and leaves the store
    alone. *)
Theorem solve_zero_meetings date_range constraints h :
  Forall (fun c => arity c = 1) constraints ->
  solve constraint_eq pop_choice 0 date_range constraints h
  = (Ok (Some []), h).
Proof.
  intros Hu.
  unfold solve, solve_traced, csp_backtracker, node_consistency,
    arc_consistency, ac_preprocessing.
  simpl. unfold bind, lift, ret. simpl.
  rewrite (initial_arcs_unary constraint_eq _ [] Hu).
  destruct (ac_fuel h constraints []); reflexivity.
Qed.

End Claims.

(** ** Equality of stores *)

Lemma list_eqb_eq {A} (eqb : A -> A -> bool) (l1 l2 : list A) :
  (forall x y, eqb x y = true -> x = y) ->
  list_eqb eqb l1 l2 = true -> l1 = l2.
Proof.
  intros Heq. revert l2. induction l1 as [| x l1 IH]; intros [| y l2] H;
    simpl in H; try discriminate; [reflexivity |].
  apply andb_true_iff in H. destruct H as [H1 H2].
  f_equal; [apply Heq, H1 | apply IH, H2].
Qed.

Lemma store_eqb_eq h1 h2 : store_eqb h1 h2 = true -> h1 = h2.
Proof.
  apply list_eqb_eq. intros [s1 | l1] [s2 | l2] H; simpl in H;
    try discriminate; f_equal.
  - eapply list_eqb_eq; [| exact H]. intros x y. apply Z.eqb_eq.
  - eapply list_eqb_eq; [| exact H]. intros x y.
    apply list_eqb_eq. intros a b. apply Z.eqb_eq.
Qed.

(** ** Every order of the worklist *)

Section AnyOrder.

Variable constraint_eq : DateConstraint -> DateConstraint -> bool.
Variable pop_choice : nat -> list Arc -> nat.

Lemma ac_loop_in_any fuel doms constraints arcs h :
  In (ac_loop constraint_eq pop_choice fuel doms constraints arcs h)
     (ac_loop_any constraint_eq fuel doms constraints arcs h).
Proof.
  revert arcs h. induction fuel as [| fuel IH]; intros arcs h.
  - destruct arcs; left; reflexivity.
  - destruct arcs as [| a0 arcs0]; [left; reflexivity |].
    destruct (arcs_pop_nonempty pop_choice fuel a0 arcs0)
      as (a & arcs' & Ep & _).
    cbn [ac_loop ac_loop_any]. unfold bind, ac_step. rewrite Ep.
    unfold arcs_pop in Ep.
    set (i := pop_choice fuel (a0 :: arcs0) mod length (a0 :: arcs0)) in *.
    destruct ((a0 :: arcs0) !! i) as [b | ] eqn:Ei; [| discriminate].
    inversion Ep; subst b arcs'.
    apply in_flat_map. exists i. split.
    + apply in_seq. apply lookup_lt_Some in Ei. lia.
    + rewrite Ei.
      destruct (ac_turn constraint_eq doms constraints a
                  (delete i (a0 :: arcs0)) h) as [[arcs1 | e | ] h1].
      * apply IH.
      * left. reflexivity.
      * left. reflexivity.
Qed.

Lemma arc_consistency_in_any domains constraints h :
  In (arc_consistency constraint_eq pop_choice domains constraints h)
     (arc_consistency_any constraint_eq domains constraints h).
Proof.
  unfold arc_consistency, ac_preprocessing, arc_consistency_any, bind, lift.
  destruct (initial_arcs constraint_eq constraints []) as [arcs | e | ].
  - apply ac_loop_in_any.
  - left. reflexivity.
  - left. reflexivity.
Qed.

End AnyOrder.

(** ** The claims on concrete inputs *)

(** C1 as stated fails without meetings: [solve] returns the empty list,
    on which a constraint naming meeting 0 raises instead of yielding true. *)
Lemma solve_sound_counterexample :
  solve same_variables in_insertion_order 0 0 [after_date 0 0]
        (caller_store (PySet [1%Z]))
  = (Ok (Some []), caller_store (PySet [1%Z]))
  /\ is_satisfied_by_assignment (after_date 0 0) [] = Raise IndexError
  /\ ~ all_satisfied [after_date 0 0] [].
Proof.
  split; [reflexivity |]. split; [reflexivity |].
  intros H. inversion H; subst. discriminate.
Qed.

Lemma solve_sound_witness :
  (1 <= 2 \/ [strictly_before 0 1] = [])
  /\ solve same_variables in_insertion_order 2 0 [strictly_before 0 1]
           (caller_store (PySet [1; 2; 3]%Z))
     = (Ok (Some [Some 1%Z; Some 2%Z]),
        [PySet [1; 2; 3]%Z; PySet [1; 2]%Z; PySet [2; 3]%Z])
  /\ full_schedule 2 [Some 1%Z; Some 2%Z]
  /\ all_satisfied [strictly_before 0 1] [Some 1%Z; Some 2%Z].
Proof.
  split; [left; lia |]. split; [reflexivity |].
  apply (solve_sound same_variables in_insertion_order 2 0
           [strictly_before 0 1] (caller_store (PySet [1; 2; 3]%Z))
           [Some 1%Z; Some 2%Z]
           [PySet [1; 2; 3]%Z; PySet [1; 2]%Z; PySet [2; 3]%Z]).
  - left. lia.
  - reflexivity.
Defined.

(** C2: a satisfiable problem on which [solve] raises [KeyError]: two
    unary constraints on meeting 0 both reject date 1, while date 2
    satisfies both. *)
Theorem solve_incomplete_on_double_rejection :
  solve same_variables in_insertion_order 1 0
        [after_date 0 1; not_on_date 0 1] (caller_store (PySet [1; 2]%Z))
  = (Raise KeyError, [PySet [1; 2]%Z; PySet [2]%Z])
  /\ In 2%Z [1; 2]%Z
  /\ all_satisfied [after_date 0 1; not_on_date 0 1] [Some 2%Z].
Proof.
  split; [reflexivity |]. split; [simpl; auto |].
  repeat constructor.
Qed.

Lemma solve_list_of_sets_raises_witness :
  [PyList [[1%Z]; [2%Z]]] !! 0 = Some (PyList [[1%Z]; [2%Z]])
  /\ solve same_variables in_insertion_order 2 0 []
           [PyList [[1%Z]; [2%Z]]]
     = (Raise TypeError, [PyList [[1%Z]; [2%Z]]]).
Proof.
  split; [reflexivity |].
  apply (solve_list_of_sets_raises same_variables in_insertion_order 1 0 []
           [PyList [[1%Z]; [2%Z]]] [1%Z] [[2%Z]]).
  reflexivity.
Defined.

(** C4: two unary constraints on meeting 0 both reject date 1; node
    consistency removes it for the first and raises [KeyError] at the
    second. *)
Theorem node_consistency_double_rejection :
  node_consistency [0] [after_date 0 1; not_on_date 0 1] [PySet [1; 2]%Z]
  = (Raise KeyError, [PySet [1; 2]%Z; PySet [2]%Z]).
Proof. reflexivity. Qed.

(** C5: meetings 0, 1, 2 with candidates {1,2}, {1,2}, {2}, and meeting 0
    on the same date as meeting 1 and as meeting 2. Popping in insertion
    order, the third turn revises meeting 0 against meeting 2 and removes
    date 1; the reverse arc from meeting 1 into meeting 0, popped before,
    is not put back. *)
Theorem requeue_misses_reverse_arcs :
  let constraints := [same_date 0 1; same_date 0 2] in
  let h := [PySet [1; 2]%Z; PySet [1; 2]%Z; PySet [2]%Z] in
  let f1 := mkArc (same_date 0 1) 0 1 in
  let r1 := mkArc (get_reverse (same_date 0 1)) 1 0 in
  let f2 := mkArc (same_date 0 2) 0 2 in
  let r2 := mkArc (get_reverse (same_date 0 2)) 2 0 in
  initial_arcs same_variables constraints [] = Ok [f1; r1; f2; r2]
  /\ (forall clock,
        ac_step same_variables in_insertion_order clock [0; 1; 2] constraints
                [f1; r1; f2; r2] h = (Ok [r1; f2; r2], h))
  /\ (forall clock,
        ac_step same_variables in_insertion_order clock [0; 1; 2] constraints
                [r1; f2; r2] h = (Ok [f2; r2], h))
  /\ (forall clock,
        ac_step same_variables in_insertion_order clock [0; 1; 2] constraints
                [f2; r2] h
        = (Ok [r2], [PySet [2]%Z; PySet [1; 2]%Z; PySet [2]%Z]))
  /\ HEAD r1 = TAIL f2
  /\ existsb (fun b => Arc_eqb same_variables b r1) [r2] = false.
Proof.
  cbv zeta. repeat split; intros; reflexivity.
Qed.

(** C6 as stated fails: a unary constraint empties meeting 1's domain, and
    the search still assigns date 1 to meeting 0 before it returns [None]. *)
Lemma early_failure_counterexample :
  node_consistency (replicate 2 0) [never 1] (caller_store (PySet [1%Z]))
  = (Ok [1; 2], [PySet [1%Z]; PySet [1%Z]; PySet []])
  /\ arc_consistency same_variables in_insertion_order [1; 2] [never 1]
                     [PySet [1%Z]; PySet [1%Z]; PySet []]
     = (Ok tt, [PySet [1%Z]; PySet [1%Z]; PySet []])
  /\ domain_at [PySet [1%Z]; PySet [1%Z]; PySet []] 2 = []
  /\ solve_traced same_variables in_insertion_order 2 0 [never 1]
                  (caller_store (PySet [1%Z]))
     = (Ok (None, [(0, 1%Z)]), [PySet [1%Z]; PySet [1%Z]; PySet []]).
Proof. repeat split; reflexivity. Qed.

Lemma empty_domain_gives_no_schedule_witness :
  node_consistency (replicate 2 0) [on_date 0 5] (caller_store (PySet [1; 2]%Z))
  = (Ok [1; 2], [PySet [1; 2]%Z; PySet []; PySet [1; 2]%Z])
  /\ arc_consistency same_variables in_insertion_order [1; 2] [on_date 0 5]
                     [PySet [1; 2]%Z; PySet []; PySet [1; 2]%Z]
     = (Ok tt, [PySet [1; 2]%Z; PySet []; PySet [1; 2]%Z])
  /\ [1; 2] !! 0 = Some 1
  /\ domain_at [PySet [1; 2]%Z; PySet []; PySet [1; 2]%Z] 1 = []
  /\ exists o,
       solve_traced same_variables in_insertion_order 2 0 [on_date 0 5]
                    (caller_store (PySet [1; 2]%Z))
       = (o, [PySet [1; 2]%Z; PySet []; PySet [1; 2]%Z])
       /\ solve same_variables in_insertion_order 2 0 [on_date 0 5]
                (caller_store (PySet [1; 2]%Z))
          = (forget_trace o, [PySet [1; 2]%Z; PySet []; PySet [1; 2]%Z])
       /\ match o with
          | Ok (result, tried) =>
              result = None /\ Forall (fun e => fst e < 0) tried
          | Raise e => e = IndexError /\ ~ Forall (in_range 2) [on_date 0 5]
          | Timeout => False
          end.
Proof.
  split; [reflexivity |]. split; [reflexivity |].
  split; [reflexivity |]. split; [reflexivity |].
  apply (empty_domain_gives_no_schedule same_variables in_insertion_order
           2 0 [on_date 0 5] (caller_store (PySet [1; 2]%Z)) [1; 2]
           [PySet [1; 2]%Z; PySet []; PySet [1; 2]%Z]
           [PySet [1; 2]%Z; PySet []; PySet [1; 2]%Z] 0 1);
    reflexivity.
Defined.

(** C9: meetings 0, 1, 2 with candidates {1,2}, {1,2}, {1,2,3}; meeting 0
    on the same date as meeting 1 and as meeting 2, meeting 1 strictly
    before meeting 2. Whatever the order in which the worklist yields its
    arcs, in the first run and in the second, the first run leaves date 2
    to meeting 2 and no date to meeting 0, and the second run of arc
    consistency removes values the first run left. *)
Theorem arc_consistency_not_idempotent :
  let constraints := [same_date 0 1; same_date 0 2; strictly_before 1 2] in
  let h := [PySet [1; 2]%Z; PySet [1; 2]%Z; PySet [1; 2; 3]%Z] in
  forall first_order second_order : nat -> list Arc -> nat,
  exists h1 h2,
    arc_consistency same_variables first_order [0; 1; 2] constraints h
    = (Ok tt, h1)
    /\ (h1 = [PySet []; PySet [1%Z]; PySet [2%Z]]
        \/ h1 = [PySet []; PySet []; PySet [2%Z]])
    /\ arc_consistency same_variables second_order [0; 1; 2] constraints h1
       = (Ok tt, h2)
    /\ store_size h2 < store_size h1.
Proof.
  intros constraints h first_order second_order.
  set (F1 := [PySet []; PySet [1%Z]; PySet [2%Z]]).
  set (F2 := [PySet []; PySet []; PySet [2%Z]]).
  assert (Hfirst : forallb (returns_one_of [F1; F2])
                     (arc_consistency_any same_variables [0; 1; 2]
                                          constraints h) = true)
    by (vm_compute; reflexivity).
  assert (Hsecond : forall h1, h1 = F1 \/ h1 = F2 ->
            forallb (returns_smaller h1)
              (arc_consistency_any same_variables [0; 1; 2] constraints h1)
            = true)
    by (intros h1 [-> | ->]; vm_compute; reflexivity).
  rewrite forallb_forall in Hfirst.
  specialize (Hfirst _ (arc_consistency_in_any same_variables first_order
                          [0; 1; 2] constraints h)).
  destruct (arc_consistency same_variables first_order [0; 1; 2] constraints h)
    as [[[] | e | ] h1] eqn:E1; try discriminate.
  assert (Hh1 : h1 = F1 \/ h1 = F2).
  { unfold returns_one_of in Hfirst. apply existsb_exists in Hfirst.
    destruct Hfirst as (c & [<- | [<- | []]] & E);
      apply store_eqb_eq in E; auto. }
  specialize (Hsecond h1 Hh1). rewrite forallb_forall in Hsecond.
  specialize (Hsecond _ (arc_consistency_in_any same_variables second_order
                           [0; 1; 2] constraints h1)).
  destruct (arc_consistency same_variables second_order [0; 1; 2] constraints h1)
    as [[[] | e | ] h2] eqn:E2; try discriminate.
  exists h1, h2. split; [reflexivity |]. split; [exact Hh1 |].
  split; [exact E2 |]. apply Nat.ltb_lt. exact Hsecond.
Qed.

Lemma shared_set_never_mutated_witness :
  caller_store (PySet [1; 2; 3]%Z) !! 0 = Some (PySet [1; 2; 3]%Z)
  /\ (forall o h',
        solve same_variables in_insertion_order 2 0 [strictly_before 0 1]
              (caller_store (PySet [1; 2; 3]%Z)) = (o, h') ->
        h' !! 0 = Some (PySet [1; 2; 3]%Z))
  /\ (forall o h1,
       node_consistency (replicate 2 0) [strictly_before 0 1]
                        (caller_store (PySet [1; 2; 3]%Z)) = (o, h1) ->
       preserves_old (caller_store (PySet [1; 2; 3]%Z)) h1)
  /\ forall doms h1,
       node_consistency (replicate 2 0) [strictly_before 0 1]
                        (caller_store (PySet [1; 2; 3]%Z)) = (Ok doms, h1) ->
       NoDup doms
       /\ ~ In 0 doms
       /\ (forall v, v < 2 ->
             exists r, doms !! v = Some r
                       /\ h1 !! r
                          = Some (PySet (List.filter
                                           (node_ok [strictly_before 0 1] v)
                                           [1; 2; 3]%Z)))
       /\ forall arc hx ox hy v r,
            inconsistent_val_removal doms arc hx = (ox, hy) ->
            v <> TAIL arc -> doms !! v = Some r ->
            hy !! r = hx !! r.
Proof.
  split; [reflexivity |].
  apply (shared_set_never_mutated same_variables in_insertion_order 2 0
           [strictly_before 0 1] (caller_store (PySet [1; 2; 3]%Z))
           [1; 2; 3]%Z).
  reflexivity.
Defined.

Lemma Arc_init_unary_raises_witness :
  R_VAL (on_date 0 1) = None
  /\ Arc_init (on_date 0 1) = Raise ValueError
  /\ forall a, Arc_init (on_date 0 1) <> Ok a.
Proof.
  split; [reflexivity |].
  apply (Arc_init_unary_raises (on_date 0 1)). reflexivity.
Defined.

(** C10 as stated fails when a constraint has arity 2: its arcs are
    revised against an empty list of domains and [solve] raises
    [IndexError]. *)
Lemma solve_zero_meetings_counterexample :
  solve same_variables in_insertion_order 0 0 [strictly_before 0 1]
        (caller_store (PySet [1%Z]))
  = (Raise IndexError, caller_store (PySet [1%Z])).
Proof. reflexivity. Qed.

Lemma solve_zero_meetings_witness :
  Forall (fun c => arity c = 1) [on_date 0 1]
  /\ solve same_variables in_insertion_order 0 0 [on_date 0 1]
           (caller_store (PySet [1%Z]))
     = (Ok (Some []), caller_store (PySet [1%Z])).
Proof.
  split; [repeat constructor |].
  apply (solve_zero_meetings same_variables in_insertion_order 0
           [on_date 0 1] (caller_store (PySet [1%Z]))).
  repeat constructor.
Defined.

(** ** Node consistency: constraints it does not look at *)

Lemma bind_ext {A B} (m : M A) (k k' : A -> M B) h :
  (forall a h1, k a h1 = k' a h1) -> bind m k h = bind m k' h.
Proof.
  intros H. unfold bind. destruct (m h) as [[a | e | ] h1]; auto.
Qed.

Lemma nc_constraints_unary_only idx cur date constraints h :
  nc_constraints idx cur date constraints h
  = nc_constraints idx cur date
      (List.filter (fun c => arity c =? 1) constraints) h.
Proof.
  revert h. induction constraints as [| c rest IH]; intros h; simpl.
  - reflexivity.
  - destruct (arity c =? 1) eqn:E; simpl.
    + rewrite E. simpl. apply bind_ext. intros _ h1. apply IH.
    + unfold bind at 1, ret. apply IH.
Qed.

Lemma nc_dates_unary_only idx cur dates constraints h :
  nc_dates idx cur dates constraints h
  = nc_dates idx cur dates
      (List.filter (fun c => arity c =? 1) constraints) h.
Proof.
  revert h. induction dates as [| d rest IH]; intros h; simpl.
  - reflexivity.
  - unfold bind. rewrite <- nc_constraints_unary_only.
    destruct (nc_constraints idx cur d constraints h) as [[a | e | ] h1];
      auto.
Qed.

Lemma nc_loop_unary_only todo idx dom_copy domains constraints h :
  nc_loop todo idx dom_copy domains constraints h
  = nc_loop todo idx dom_copy domains
      (List.filter (fun c => arity c =? 1) constraints) h.
Proof.
  revert idx domains h. induction todo as [| dom rest IH];
    intros idx domains h; simpl.
  - reflexivity.
  - destruct (dom_copy !! idx) as [cur | ]; [| reflexivity].
    apply bind_ext. intros o h1. unfold bind.
    rewrite <- nc_dates_unary_only.
    destruct (nc_dates idx cur (py_iter o) constraints h1) as [[a | e | ] h2];
      auto.
Qed.

(** ** Node consistency: when it raises *)

Lemma rejections_cons c rest v d :
  rejections (c :: rest) v d
  = (if (arity c =? 1) && (L_VAL c =? v)
        && negb (is_satisfied_by_values c d None)
     then 1 else 0) + rejections rest v d.
Proof.
  unfold rejections. simpl.
  destruct ((arity c =? 1) && (L_VAL c =? v)
            && negb (is_satisfied_by_values c d None)); reflexivity.
Qed.

Lemma node_ok_rejections constraints v d :
  node_ok constraints v d = true <-> rejections constraints v d = 0.
Proof.
  induction constraints as [| c rest IH].
  - split; reflexivity.
  - rewrite rejections_cons. unfold node_ok in *. simpl.
    rewrite andb_true_iff, IH.
    destruct ((arity c =? 1) && (L_VAL c =? v)); simpl;
      [destruct (is_satisfied_by_values c d None); simpl |];
      intuition (try discriminate; try lia).
Qed.

(** The date is no longer in the set: one more rejection raises. *)
Lemma nc_constraints_absent idx cur date constraints h s :
  h !! cur = Some (PySet s) -> mem date s = false ->
  nc_constraints idx cur date constraints h
  = (if rejections constraints idx date =? 0 then Ok tt else Raise KeyError, h).
Proof.
  intros Hc Hm. induction constraints as [| c rest IH]; [reflexivity |].
  simpl. rewrite rejections_cons. unfold bind.
  destruct ((arity c =? 1) && (L_VAL c =? idx)); simpl.
  - destruct (is_satisfied_by_values c date None); simpl.
    + exact IH.
    + rewrite (set_remove_absent _ _ _ _ Hc Hm). reflexivity.
  - exact IH.
Qed.

(** The date is in the set: the first rejection removes it, the second
    raises. *)
Lemma nc_constraints_present idx cur date constraints h s :
  h !! cur = Some (PySet s) -> mem date s = true ->
  nc_constraints idx cur date constraints h
  = match rejections constraints idx date with
    | 0 => (Ok tt, h)
    | 1 => (Ok tt, <[cur := PySet (discard date s)]> h)
    | _ => (Raise KeyError, <[cur := PySet (discard date s)]> h)
    end.
Proof.
  intros Hc Hm. induction constraints as [| c rest IH]; [reflexivity |].
  simpl. rewrite rejections_cons. unfold bind.
  destruct ((arity c =? 1) && (L_VAL c =? idx)); simpl.
  - destruct (is_satisfied_by_values c date None); simpl.
    + exact IH.
    + rewrite (set_remove_present _ _ _ _ Hc Hm).
      rewrite (nc_constraints_absent idx cur date rest _ (discard date s)).
      * destruct (rejections rest idx date); reflexivity.
      * apply list_lookup_insert_eq. eapply lookup_lt_Some, Hc.
      * apply mem_discard.
  - exact IH.
Qed.

Lemma nc_dates_outcome idx cur dates constraints h s o h' :
  h !! cur = Some (PySet s) ->
  NoDup dates -> (forall d, In d dates -> In d s) ->
  nc_dates idx cur dates constraints h = (o, h') ->
  (o = Ok tt
   /\ forall d, In d dates -> rejections constraints idx d <= 1)
  \/ (o = Raise KeyError
      /\ exists d, In d dates /\ 2 <= rejections constraints idx d).
Proof.
  revert h s. induction dates as [| d rest IH]; intros h s Hc ND Hin H.
  - inversion H; subst. left. split; [reflexivity | intros d []].
  - apply NoDup_cons in ND. destruct ND as [Hd ND].
    simpl in H. unfold bind in H.
    rewrite (nc_constraints_present idx cur d constraints h s Hc) in H
      by (apply mem_In, Hin; left; reflexivity).
    assert (Hnext : forall s1 h1,
      h1 !! cur = Some (PySet s1) ->
      (forall x, In x rest -> In x s1) ->
      rejections constraints idx d <= 1 ->
      nc_dates idx cur rest constraints h1 = (o, h') ->
      (o = Ok tt
       /\ forall x, In x (d :: rest) -> rejections constraints idx x <= 1)
      \/ (o = Raise KeyError
          /\ exists x, In x (d :: rest)
                       /\ 2 <= rejections constraints idx x)).
    { intros s1 h1 Hc1 Hin1 Hle E.
      destruct (IH h1 s1 Hc1 ND Hin1 E) as [[-> Hall] | [-> (x & Hx & Hr)]].
      - left. split; [reflexivity |]. intros x [<- | Hx]; auto.
      - right. split; [reflexivity |]. exists x. split; [right |]; auto. }
    destruct (rejections constraints idx d) as [| [| k]] eqn:Er.
    + eapply (Hnext s h); eauto. intros x Hx. apply Hin. right. exact Hx.
    + eapply (Hnext (discard d s)); eauto.
      * apply list_lookup_insert_eq. eapply lookup_lt_Some, Hc.
      * intros x Hx. apply discard_In. split; [apply Hin; right; exact Hx |].
        intros ->. apply Hd, list_elem_of_In, Hx.
    + inversion H; subst. right. split; [reflexivity |].
      exists d. split; [left; reflexivity | lia].
Qed.

Lemma nc_loop_outcome todo idx dom_copy domains constraints h o h' :
  NoDup dom_copy ->
  (forall j dom, todo !! j = Some dom ->
     ~ In dom dom_copy /\ NoDup (domain_at h dom)
     /\ exists cur, dom_copy !! (idx + j) = Some cur
                    /\ h !! cur = Some (PySet (domain_at h dom))) ->
  nc_loop todo idx dom_copy domains constraints h = (o, h') ->
  ((exists res, o = Ok res)
   /\ forall j dom d, todo !! j = Some dom -> In d (domain_at h dom) ->
        rejections constraints (idx + j) d <= 1)
  \/ (o = Raise KeyError
      /\ exists j dom d, todo !! j = Some dom /\ In d (domain_at h dom)
                         /\ 2 <= rejections constraints (idx + j) d).
Proof.
  intros ND. revert idx domains h.
  induction todo as [| dom0 rest IH]; intros idx domains h Hinit H.
  - inversion H; subst. left. split; [eauto |]. intros j dom d Hj. discriminate.
  - simpl in H.
    destruct (Hinit 0 dom0 eq_refl) as (Hn0 & ND0 & cur & Ec & Hcur).
    rewrite Nat.add_0_r in Ec. rewrite Ec in H.
    unfold bind at 1, deref in H. fold (domain_at h dom0) in H.
    apply bind_cases in H.
    assert (Hdates : forall o1 h1,
      nc_dates idx cur (domain_at h dom0) constraints h = (o1, h1) ->
      (o1 = Ok tt /\ forall d, In d (domain_at h dom0) ->
                       rejections constraints idx d <= 1)
      \/ (o1 = Raise KeyError
          /\ exists d, In d (domain_at h dom0)
                       /\ 2 <= rejections constraints idx d)).
    { intros o1 h1 E. eapply nc_dates_outcome; eauto. }
    assert (Hbad : forall d, In d (domain_at h dom0) ->
              2 <= rejections constraints idx d ->
              exists j dom d', (dom0 :: rest) !! j = Some dom
                /\ In d' (domain_at h dom)
                /\ 2 <= rejections constraints (idx + j) d').
    { intros d Hd Hr. exists 0, dom0, d. rewrite Nat.add_0_r. auto. }
    destruct H as [([] & h1 & E1 & E2) | [(e & E1 & ->) | (E1 & ->)]].
    + destruct (Hdates _ _ E1) as [[_ Hall] | [D _]]; [| discriminate].
      pose proof (nc_dates_writes _ _ _ _ _ _ _ E1) as [L1 F1].
      assert (Hdom : forall d, ~ In d dom_copy -> domain_at h1 d = domain_at h d).
      { intros d Hd. unfold domain_at. rewrite F1; [reflexivity |].
        intros <-. apply Hd, list_elem_of_In.
        eapply list_elem_of_lookup_2, Ec. }
      destruct (IH (S idx) (<[idx := cur]> domains) h1)
        as [[Hok Hall'] | [-> (j & dom & d & Hj & Hd & Hr)]];
        [| exact E2 | |].
      * intros j dom Hj. destruct (Hinit (S j) dom Hj) as (Hn & NDd & c & Eci & Hci).
        rewrite Nat.add_succ_r in Eci.
        split; [exact Hn |]. rewrite (Hdom dom Hn). split; [exact NDd |].
        exists c. split; [exact Eci |]. rewrite F1; [exact Hci |].
        intros <-. pose proof (NoDup_lookup _ _ _ _ ND Ec Eci). lia.
      * left. split; [exact Hok |]. intros [| j] dom d Hj Hd.
        -- inversion Hj; subst. rewrite Nat.add_0_r. apply Hall, Hd.
        -- simpl in Hj. rewrite Nat.add_succ_r.
           destruct (Hinit (S j) dom Hj) as (Hn & _).
           apply (Hall' j dom d Hj). rewrite (Hdom dom Hn). exact Hd.
      * right. split; [reflexivity |].
        simpl in Hj. destruct (Hinit (S j) dom Hj) as (Hn & _).
        exists (S j), dom, d. rewrite Nat.add_succ_r.
        split; [exact Hj |]. rewrite <- (Hdom dom Hn). auto.
    + destruct (Hdates _ _ E1) as [[D _] | [D (d & Hd & Hr)]];
        [discriminate |].
      right. split; [congruence | apply (Hbad d Hd Hr)].
    + pose proof (nc_dates_no_timeout idx cur (domain_at h dom0) constraints h).
      rewrite E1 in H. simpl in H. congruence.
Qed.

Lemma node_consistency_outcome domains constraints h o h' :
  Forall (fun r => exists s, h !! r = Some (PySet s) /\ NoDup s) domains ->
  node_consistency domains constraints h = (o, h') ->
  ((exists res, o = Ok res)
   /\ forall v r d, domains !! v = Some r -> In d (domain_at h r) ->
        rejections constraints v d <= 1)
  \/ (o = Raise KeyError
      /\ exists v r d, domains !! v = Some r /\ In d (domain_at h r)
                       /\ 2 <= rejections constraints v d).
Proof.
  intros V H. unfold node_consistency in H.
  assert (Vlt : Forall (fun r => r < length h) domains).
  { eapply Forall_impl; [exact V |]. intros r (s & Hs & _).
    eapply lookup_lt_Some, Hs. }
  destruct (copy_domains_returns domains h) as (dc & h1 & Ec).
  { eapply Forall_impl; [exact V |]. intros r (s & Hs & _). eauto. }
  unfold bind in H. rewrite Ec in H.
  pose proof (copy_domains_contents _ _ _ _ Vlt Ec) as Hh1.
  apply copy_domains_grows in Ec. destruct Ec as [_ Rc].
  destruct (Rc dc eq_refl) as [Hdc _].
  assert (Hold : forall d, d < length h -> domain_at h1 d = domain_at h d).
  { intros d Hd. unfold domain_at. subst h1.
    rewrite lookup_app_l by exact Hd. reflexivity. }
  assert (Hlt : forall j dom, domains !! j = Some dom -> dom < length h).
  { intros j dom Hj. rewrite Forall_forall in Vlt.
    apply Vlt. eapply list_elem_of_lookup_2, Hj. }
  apply nc_loop_outcome in H.
  - destruct H as [[Hok Hall] | [-> (j & dom & d & Hj & Hd & Hr)]].
    + left. split; [exact Hok |]. intros v r d Hv Hd.
      apply (Hall v r d Hv). rewrite (Hold r (Hlt _ _ Hv)). exact Hd.
    + right. split; [reflexivity |]. exists j, dom, d.
      rewrite (Hold dom (Hlt _ _ Hj)) in Hd. auto.
  - subst dc. apply NoDup_seq.
  - intros j dom Hj. pose proof (Hlt _ _ Hj) as Hd.
    rewrite (Hold dom Hd). split; [subst dc; rewrite in_seq; lia |].
    split.
    + rewrite Forall_forall in V.
      destruct (V dom (list_elem_of_lookup_2 _ _ _ Hj)) as (s & Hs & NDs).
      unfold domain_at. rewrite Hs. exact NDs.
    + exists (length h + j). simpl. split.
      * subst dc. apply lookup_seq. split; [reflexivity |].
        eapply lookup_lt_Some, Hj.
      * subst h1. rewrite lookup_app_r by lia.
        replace (length h + j - length h) with j by lia.
        rewrite list_lookup_fmap, Hj. reflexivity.
Qed.

(** ** A revision, cell by cell *)

Lemma revise_loop_exact c rt rh tails removed h cur :
  rt <> rh ->
  h !! rt = Some (PySet cur) ->
  NoDup tails -> (forall t, In t tails -> In t cur) ->
  revise_loop c rt rh tails removed h
  = (Ok (removed || negb (forallb (supported c (domain_at h rh)) tails)),
     <[rt := PySet (fold_left
                      (fun s t => if supported c (domain_at h rh) t then s
                                  else discard t s) tails cur)]> h).
Proof.
  intros Hne. revert removed h cur.
  induction tails as [| t rest IH]; intros removed h cur Hc ND Hin; simpl.
  - rewrite orb_false_r, list_insert_id by exact Hc. reflexivity.
  - apply NoDup_cons in ND. destruct ND as [Ht ND].
    unfold bind at 1, deref. fold (domain_at h rh).
    fold (supported c (domain_at h rh) t).
    destruct (supported c (domain_at h rh) t) eqn:Es; simpl.
    + apply IH; auto. intros x Hx. apply Hin. right. exact Hx.
    + unfold bind.
      rewrite (set_remove_present _ _ _ _ Hc)
        by (apply mem_In, Hin; left; reflexivity).
      set (h1 := <[rt := PySet (discard t cur)]> h).
      assert (Hh : domain_at h1 rh = domain_at h rh).
      { unfold domain_at, h1. rewrite list_lookup_insert_ne by exact Hne.
        reflexivity. }
      rewrite (IH true h1 (discard t cur)).
      * rewrite Hh. unfold h1. rewrite list_insert_insert_eq.
        rewrite orb_true_r. reflexivity.
      * apply list_lookup_insert_eq. eapply lookup_lt_Some, Hc.
      * exact ND.
      * intros x Hx. apply discard_In. split; [apply Hin; right; exact Hx |].
        intros ->. apply Ht, list_elem_of_In, Hx.
Qed.

Lemma inconsistent_val_removal_exact doms arc h rt rh st :
  doms !! TAIL arc = Some rt -> doms !! HEAD arc = Some rh ->
  rt <> rh ->
  h !! rt = Some (PySet st) -> NoDup st ->
  inconsistent_val_removal doms arc h
  = (Ok (negb (forallb (supported (CONSTRAINT arc) (domain_at h rh)) st)),
     <[rt := PySet (List.filter
                      (supported (CONSTRAINT arc) (domain_at h rh)) st)]> h).
Proof.
  intros Et Eh Hne Hc ND. unfold inconsistent_val_removal.
  rewrite Et, Eh. unfold bind, deref. rewrite Hc. simpl.
  rewrite (revise_loop_exact (CONSTRAINT arc) rt rh st false h st); auto.
  rewrite prune_all. reflexivity.
Qed.

(** ** Domains only shrink *)

Lemma narrows_refl h : narrows h h.
Proof. split; auto. Qed.

Lemma narrows_trans h1 h2 h3 : narrows h1 h2 -> narrows h2 h3 -> narrows h1 h3.
Proof.
  intros [L1 F1] [L2 F2]. split; [congruence |].
  intros r x Hx. apply F1, F2, Hx.
Qed.

Lemma set_remove_narrows r d h o h' :
  set_remove r d h = (o, h') -> narrows h h'.
Proof.
  unfold set_remove. intros H.
  destruct (h !! r) as [[s | l] | ] eqn:E;
    try (inversion H; subst; apply narrows_refl).
  destruct (mem d s); inversion H; subst; [| apply narrows_refl].
  split; [apply length_insert |].
  intros r' x. unfold domain_at.
  destruct (decide (r = r')) as [<- | Hne].
  - rewrite list_lookup_insert_eq by (eapply lookup_lt_Some, E).
    rewrite E. simpl. intros Hx. apply discard_In in Hx. apply Hx.
  - rewrite list_lookup_insert_ne by exact Hne. auto.
Qed.

Lemma revise_loop_narrows c rt rh tails removed h o h' :
  revise_loop c rt rh tails removed h = (o, h') -> narrows h h'.
Proof.
  revert removed h. induction tails as [| t rest IH]; intros removed h H.
  - inversion H; subst. apply narrows_refl.
  - simpl in H. unfold bind at 1, deref in H.
    destruct (existsb _ _); [eapply IH, H |].
    apply bind_cases in H.
    destruct H as [(a & h1 & E1 & E2) | [(e & E1 & _) | (E1 & _)]].
    + eapply narrows_trans; [eapply set_remove_narrows, E1 | eapply IH, E2].
    + eapply set_remove_narrows, E1.
    + eapply set_remove_narrows, E1.
Qed.

Lemma inconsistent_val_removal_narrows doms arc h o h' :
  inconsistent_val_removal doms arc h = (o, h') -> narrows h h'.
Proof.
  unfold inconsistent_val_removal. intros H.
  destruct (doms !! TAIL arc); [| inversion H; subst; apply narrows_refl].
  destruct (doms !! HEAD arc); [| inversion H; subst; apply narrows_refl].
  unfold bind, deref in H. eapply revise_loop_narrows, H.
Qed.

Lemma ac_loop_narrows constraint_eq pop_choice fuel doms constraints arcs h o h' :
  ac_loop constraint_eq pop_choice fuel doms constraints arcs h = (o, h') ->
  narrows h h'.
Proof.
  revert arcs h. induction fuel as [| fuel IH]; intros arcs h H.
  - destruct arcs; inversion H; subst; apply narrows_refl.
  - destruct arcs as [| a0 arcs0]; [inversion H; subst; apply narrows_refl |].
    cbn [ac_loop] in H. apply bind_cases in H.
    assert (Hstep : forall o1 h1,
      ac_step constraint_eq pop_choice fuel doms constraints (a0 :: arcs0) h
      = (o1, h1) -> narrows h h1).
    { intros o1 h1 E. unfold ac_step in E.
      destruct (arcs_pop pop_choice fuel (a0 :: arcs0)) as [[a arcs'] | ];
        [| inversion E; subst; apply narrows_refl].
      unfold ac_turn in E. apply bind_cases in E.
      destruct E as [(b & h2 & E1 & E2) | [(e & E1 & _) | (E1 & _)]].
      - apply inconsistent_val_removal_narrows in E1.
        destruct b; unfold lift, ret in E2; inversion E2; subst; exact E1.
      - eapply inconsistent_val_removal_narrows, E1.
      - eapply inconsistent_val_removal_narrows, E1. }
    destruct H as [(arcs' & h1 & E1 & E2) | [(e & E1 & _) | (E1 & _)]].
    + eapply narrows_trans; [eapply Hstep, E1 | eapply IH, E2].
    + eapply Hstep, E1.
    + eapply Hstep, E1.
Qed.

Lemma arc_consistency_narrows constraint_eq pop_choice domains constraints h o h' :
  arc_consistency constraint_eq pop_choice domains constraints h = (o, h') ->
  narrows h h'.
Proof.
  unfold arc_consistency, ac_preprocessing, bind, lift. intros H.
  destruct (initial_arcs constraint_eq constraints []) as [arcs | e | ];
    [| inversion H; subst; apply narrows_refl
     | inversion H; subst; apply narrows_refl].
  eapply ac_loop_narrows, H.
Qed.

(** ** Arcs that name a missing variable *)

Section WorklistContents.

Variable constraint_eq : DateConstraint -> DateConstraint -> bool.
Variable pop_choice : nat -> list Arc -> nat.

Lemma arcs_add_keeps a b arcs :
  In b arcs -> In b (arcs_add constraint_eq a arcs).
Proof.
  intros Hb. unfold arcs_add. destruct (existsb _ arcs); [exact Hb |].
  apply in_app_iff. left. exact Hb.
Qed.

(** After [arcs.add(a)] the worklist holds [a] or an arc equal to it. *)
Lemma arcs_add_has a arcs :
  exists b, In b (arcs_add constraint_eq a arcs)
            /\ (b = a \/ Arc_eqb constraint_eq b a = true).
Proof.
  unfold arcs_add.
  destruct (existsb (fun b => Arc_eqb constraint_eq b a) arcs) eqn:E.
  - apply existsb_exists in E. destruct E as (b & Hb & Eb). eauto.
  - exists a. split; [apply in_app_iff; right; left; reflexivity | auto].
Qed.

Lemma Arc_eqb_ends a b :
  Arc_eqb constraint_eq b a = true -> TAIL b = TAIL a /\ HEAD b = HEAD a.
Proof.
  unfold Arc_eqb. intros H.
  apply andb_true_iff in H. destruct H as [H Hh].
  apply andb_true_iff in H. destruct H as [_ Ht].
  apply Nat.eqb_eq in Ht, Hh. auto.
Qed.

Lemma requeue_keeps constraints tail arcs arcs' b :
  requeue constraint_eq constraints tail arcs = Ok arcs' ->
  In b arcs -> In b arcs'.
Proof.
  revert arcs. induction constraints as [| c rest IH]; intros arcs H Hb;
    simpl in H.
  - inversion H; subst. exact Hb.
  - destruct ((1 <? arity c) && bool_decide (R_VAL c = Some tail)) eqn:E.
    + apply andb_true_iff in E. destruct E as [Har _].
      destruct (Arc_init_binary c Har) as [Ea _]. rewrite Ea in H.
      simpl in H. eapply IH; [exact H |]. apply arcs_add_keeps, Hb.
    + eapply IH; eassumption.
Qed.

Lemma initial_arcs_keeps constraints arcs arcs' b :
  initial_arcs constraint_eq constraints arcs = Ok arcs' ->
  In b arcs -> In b arcs'.
Proof.
  revert arcs. induction constraints as [| c rest IH]; intros arcs H Hb;
    simpl in H.
  - inversion H; subst. exact Hb.
  - destruct (1 <? arity c) eqn:Har.
    + destruct (Arc_init_binary c Har) as [Ea Er]. rewrite Ea, Er in H.
      simpl in H. eapply IH; [exact H |].
      apply arcs_add_keeps, arcs_add_keeps, Hb.
    + eapply IH; eassumption.
Qed.

(** Both directions of every constraint of arity above 1 start in the
    worklist, as themselves or as an arc equal to them. *)
Lemma initial_arcs_seeds constraints arcs0 arcs c a :
  initial_arcs constraint_eq constraints arcs0 = Ok arcs ->
  In c constraints -> (1 <? arity c) = true ->
  Arc_init c = Ok a \/ Arc_init (get_reverse c) = Ok a ->
  exists b, In b arcs /\ (b = a \/ Arc_eqb constraint_eq b a = true).
Proof.
  revert arcs0. induction constraints as [| c0 rest IH];
    intros arcs0 H Hc Har Ha; [destruct Hc |].
  simpl in H. destruct Hc as [-> | Hc].
  - rewrite Har in H. destruct (Arc_init_binary c Har) as [Ea Er].
    rewrite Ea, Er in H. simpl in H.
    set (a1 := mkArc c (L_VAL c) (default 0 (R_VAL c))) in *.
    set (a2 := mkArc (get_reverse c) (default 0 (R_VAL c)) (L_VAL c)) in *.
    destruct Ha as [Ha | Ha].
    + rewrite Ea in Ha. inversion Ha; subst a.
      destruct (arcs_add_has a1 arcs0) as (b & Hb & Eb).
      exists b. split; [| exact Eb].
      eapply initial_arcs_keeps; [exact H |]. apply arcs_add_keeps, Hb.
    + rewrite Er in Ha. inversion Ha; subst a.
      destruct (arcs_add_has a2 (arcs_add constraint_eq a1 arcs0))
        as (b & Hb & Eb).
      exists b. split; [| exact Eb].
      eapply initial_arcs_keeps; [exact H | exact Hb].
  - destruct (1 <? arity c0) eqn:Har0.
    + destruct (Arc_init_binary c0 Har0) as [Ea Er]. rewrite Ea, Er in H.
      simpl in H. eapply IH; eauto.
    + eapply IH; eauto.
Qed.

Lemma initial_arcs_length constraints arcs0 arcs :
  initial_arcs constraint_eq constraints arcs0 = Ok arcs ->
  length arcs <= length arcs0 + 2 * length constraints.
Proof.
  revert arcs0. induction constraints as [| c rest IH]; intros arcs0 H;
    simpl in H.
  - inversion H; subst. lia.
  - destruct (1 <? arity c) eqn:Har.
    + destruct (Arc_init_binary c Har) as [Ea Er]. rewrite Ea, Er in H.
      simpl in H. apply IH in H.
      set (a1 := mkArc c (L_VAL c) (default 0 (R_VAL c))) in *.
      set (a2 := mkArc (get_reverse c) (default 0 (R_VAL c)) (L_VAL c)) in *.
      pose proof (arcs_add_length constraint_eq a1 arcs0).
      pose proof (arcs_add_length constraint_eq a2
                    (arcs_add constraint_eq a1 arcs0)).
      simpl. lia.
    + apply IH in H. simpl. lia.
Qed.

Lemma initial_arcs_out_of_bounds doms constraints arcs0 arcs c :
  initial_arcs constraint_eq constraints arcs0 = Ok arcs ->
  In c constraints -> (1 <? arity c) = true ->
  ~ in_range (length doms) c ->
  exists b, In b arcs /\ out_of_bounds doms b.
Proof.
  intros H Hc Har Hout.
  destruct (Arc_init_binary c Har) as [Ea _].
  destruct (initial_arcs_seeds _ _ _ c _ H Hc Har (or_introl Ea))
    as (b & Hb & Eb).
  exists b. split; [exact Hb |].
  assert (Ho : out_of_bounds doms
                 (mkArc c (L_VAL c) (default 0 (R_VAL c)))).
  { unfold out_of_bounds, in_range in *. simpl.
    destruct c as [l t | l r t]; [discriminate |]. simpl in *.
    destruct (decide (l < length doms)) as [Hl | Hl]; [| lia].
    destruct (decide (r < length doms)) as [Hr | Hr]; [| lia].
    exfalso. apply Hout. split; [exact Hl |].
    intros r' E. inversion E; subst. exact Hr. }
  destruct Eb as [-> | Eb]; [exact Ho |].
  apply Arc_eqb_ends in Eb. destruct Eb as [Et Eh].
  unfold out_of_bounds in *. rewrite Et, Eh. exact Ho.
Qed.

Lemma inconsistent_val_removal_out_of_bounds doms arc h :
  out_of_bounds doms arc ->
  inconsistent_val_removal doms arc h = (Raise IndexError, h).
Proof.
  unfold out_of_bounds, inconsistent_val_removal. intros Ho.
  destruct (doms !! TAIL arc) as [rt | ] eqn:Et; [| reflexivity].
  destruct (doms !! HEAD arc) as [rh | ] eqn:Eh; [| reflexivity].
  apply lookup_lt_Some in Et, Eh. lia.
Qed.

Lemma In_delete_other {A} (l : list A) i a b :
  l !! i = Some a -> In b l -> b <> a -> In b (delete i l).
Proof.
  intros Hi Hb Hne. apply list_elem_of_In, list_elem_of_lookup_1 in Hb.
  destruct Hb as [k Hk]. apply list_elem_of_In.
  assert (k <> i) by (intros ->; congruence).
  destruct (decide (k < i)) as [Hlt | Hge].
  - apply (list_elem_of_lookup_2 _ k). rewrite list_lookup_delete_lt by lia.
    exact Hk.
  - apply (list_elem_of_lookup_2 _ (k - 1)).
    rewrite list_lookup_delete_ge by lia.
    replace (S (k - 1)) with k by lia. exact Hk.
Qed.

Lemma ac_loop_out_of_bounds fuel doms constraints arcs h o h' b :
  In b arcs -> out_of_bounds doms b ->
  ac_loop constraint_eq pop_choice fuel doms constraints arcs h = (o, h') ->
  forall u, o <> Ok u.
Proof.
  intros Hb Hob. revert arcs h Hb.
  induction fuel as [| fuel IH]; intros arcs h Hb H u.
  - destruct arcs; [destruct Hb |]. inversion H; subst. discriminate.
  - destruct arcs as [| a0 arcs0]; [destruct Hb |].
    cbn [ac_loop] in H. unfold bind at 1, ac_step, arcs_pop in H.
    set (arcs := a0 :: arcs0) in *.
    set (i := pop_choice fuel arcs mod length arcs) in *.
    destruct (arcs !! i) as [a | ] eqn:Ei.
    + unfold ac_turn, bind at 1 in H.
      destruct (decide (length doms <= TAIL a \/ length doms <= HEAD a))
        as [Ho | Ho].
      * rewrite (inconsistent_val_removal_out_of_bounds doms a h Ho) in H.
        inversion H; subst. discriminate.
      * assert (Hin : In b (delete i arcs)).
        { eapply In_delete_other; [exact Ei | exact Hb |].
          intros ->. apply Ho, Hob. }
        destruct (inconsistent_val_removal doms a h) as [[rm | e | ] h1];
          [| inversion H; subst; discriminate
           | inversion H; subst; discriminate].
        destruct rm.
        -- destruct (requeue_total constraint_eq constraints (TAIL a)
                       (delete i arcs)) as (arcs2 & Er & _).
           unfold lift in H. rewrite Er in H.
           eapply IH; [| exact H].
           eapply requeue_keeps; [exact Er | exact Hin].
        -- unfold ret in H. eapply IH; [exact Hin | exact H].
    + exfalso. apply lookup_ge_None_1 in Ei.
      assert (i < length arcs) by (apply Nat.mod_upper_bound; discriminate).
      lia.
Qed.

Lemma arc_consistency_out_of_bounds domains constraints h o h' c :
  In c constraints -> (1 <? arity c) = true ->
  ~ in_range (length domains) c ->
  arc_consistency constraint_eq pop_choice domains constraints h = (o, h') ->
  exists e, o = Raise e.
Proof.
  intros Hc Har Hout H.
  pose proof (arc_consistency_facts _ _ _ _ _ _ _ H) as [_ NT].
  unfold arc_consistency, ac_preprocessing, bind, lift in H.
  destruct (initial_arcs_total constraint_eq constraints []) as (arcs & Ea).
  rewrite Ea in H.
  destruct (initial_arcs_out_of_bounds domains _ _ _ c Ea Hc Har Hout)
    as (b & Hb & Hob).
  pose proof (ac_loop_out_of_bounds _ _ _ _ _ _ _ _ Hb Hob H) as Hno.
  destruct o as [[] | e | ]; [destruct (Hno tt eq_refl) | eauto | congruence].
Qed.

End WorklistContents.

(** ** Where the dates of a schedule come from *)

Section SearchValues.

Variable h : heap.
Variable doms : list ref.
Variable constraints : list DateConstraint.

Lemma try_values_drawn recurse v values st a' st' :
  search_contract constraints recurse ->
  (forall st1 a1 st2, recurse st1 = (Ok (Some a1), st2) ->
     forall w d, a1 !! w = Some (Some d) ->
       assignments st1 !! w = Some (Some d)
       \/ exists r, doms !! w = Some r /\ In d (domain_at h r)) ->
  assignments st !! v = Some None ->
  (forall x, In x values ->
     exists r, doms !! v = Some r /\ In x (domain_at h r)) ->
  try_values recurse constraints v values st = (Ok (Some a'), st') ->
  forall w d, a' !! w = Some (Some d) ->
    assignments st !! w = Some (Some d)
    \/ exists r, doms !! w = Some r /\ In d (domain_at h r).
Proof.
  intros HC HD. revert st. induction values as [| x rest IH];
    intros st Hv Hvals H w d Hw; simpl in H; [discriminate |].
  assert (Hrest : forall y, In y rest ->
            exists r, doms !! v = Some r /\ In y (domain_at h r))
    by (intros y Hy; apply Hvals; right; exact Hy).
  destruct (check_constraints constraints
              (<[v := Some x]> (assignments st))) as [[ | ] | e | ] eqn:Ec;
    try discriminate.
  - destruct (recurse (assign v x st)) as [[r2 | e | ] st2] eqn:Er;
      try discriminate.
    destruct (truthy r2) eqn:Et.
    + inversion H; subst.
      destruct (HD _ _ _ Er w d Hw) as [Hold | Hnew]; [| right; exact Hnew].
      simpl in Hold. apply list_lookup_insert_Some in Hold.
      destruct Hold as [(-> & E & _) | (_ & Hold)].
      * inversion E; subst. right. apply Hvals. left. reflexivity.
      * left. exact Hold.
    + destruct (HC _ _ _ Er) as [Hres _]. specialize (Hres Et).
      assert (Ea : assignments (unassign v st2) = assignments st).
      { simpl. rewrite Hres. simpl. apply assign_unassign, Hv. }
      rewrite <- Ea. eapply IH; [rewrite Ea; exact Hv | exact Hrest
                                 | exact H | exact Hw].
  - assert (Ea : assignments (unassign v (unassign v (assign v x st)))
                 = assignments st).
    { simpl. rewrite list_insert_insert_eq. apply assign_unassign, Hv. }
    rewrite <- Ea. eapply IH; [rewrite Ea; exact Hv | exact Hrest
                               | exact H | exact Hw].
Qed.

Lemma recursive_csp_backtracker_drawn fuel st a' st' :
  recursive_csp_backtracker fuel h doms constraints st = (Ok (Some a'), st') ->
  forall w d, a' !! w = Some (Some d) ->
    assignments st !! w = Some (Some d)
    \/ exists r, doms !! w = Some r /\ In d (domain_at h r).
Proof.
  revert st a' st'. induction fuel as [| fuel IH]; intros st a' st' H w d Hw;
    simpl in H.
  - destruct (first_unassigned (assignments st)); [discriminate |].
    inversion H; subst. left. exact Hw.
  - destruct (first_unassigned (assignments st)) as [v | ] eqn:Ef.
    + destruct (doms !! v) as [r | ] eqn:Ed; [| discriminate].
      eapply try_values_drawn; [| | | | exact H | exact Hw].
      * apply recursive_csp_backtracker_contract.
      * exact IH.
      * apply first_unassigned_Some, Ef.
      * intros x Hx. exists r. split; [exact Ed | exact Hx].
    + inversion H; subst. left. exact Hw.
Qed.

End SearchValues.

(** ** No constraints *)



Lemma node_consistency_filter_unary domains constraints h :
  node_consistency domains constraints h
  = node_consistency domains
      (List.filter (fun c => arity c =? 1) constraints) h.
Proof.
  unfold node_consistency. apply bind_ext. intros dc h1.
  apply nc_loop_unary_only.
Qed.

(** ** Arc consistency: when it raises *)

Lemma revise_loop_returns c rt rh tails removed h cur :
  h !! rt = Some (PySet cur) -> NoDup cur ->
  NoDup tails -> (forall t, In t tails -> In t cur) ->
  exists b cur',
    revise_loop c rt rh tails removed h = (Ok b, <[rt := PySet cur']> h)
    /\ NoDup cur'.
Proof.
  revert removed h cur.
  induction tails as [| t rest IH]; intros removed h cur Hc NDc ND Hin; simpl.
  - exists removed, cur. rewrite list_insert_id by exact Hc.
    split; [reflexivity | exact NDc].
  - apply NoDup_cons in ND. destruct ND as [Ht ND].
    unfold bind at 1, deref.
    destruct (existsb _ _).
    + apply (IH removed h cur); auto. intros x Hx. apply Hin. right. exact Hx.
    + unfold bind.
      rewrite (set_remove_present _ _ _ _ Hc)
        by (apply mem_In, Hin; left; reflexivity).
      destruct (IH true (<[rt := PySet (discard t cur)]> h) (discard t cur))
        as (b & cur' & E & ND').
      * apply list_lookup_insert_eq. eapply lookup_lt_Some, Hc.
      * apply discard_NoDup, NDc.
      * exact ND.
      * intros x Hx. apply discard_In. split; [apply Hin; right; exact Hx |].
        intros ->. apply Ht, list_elem_of_In, Hx.
      * exists b, cur'. rewrite E, list_insert_insert_eq.
        split; [reflexivity | exact ND'].
Qed.

Lemma inconsistent_val_removal_returns doms arc h :
  domains_are_sets h doms ->
  ~ out_of_bounds doms arc ->
  exists b h', inconsistent_val_removal doms arc h = (Ok b, h')
               /\ domains_are_sets h' doms.
Proof.
  intros WF Hin. unfold inconsistent_val_removal, out_of_bounds in *.
  destruct (doms !! TAIL arc) as [rt | ] eqn:Et;
    [| exfalso; apply Hin; left; apply lookup_ge_None_1, Et].
  destruct (doms !! HEAD arc) as [rh | ] eqn:Eh;
    [| exfalso; apply Hin; right; apply lookup_ge_None_1, Eh].
  unfold domains_are_sets in *. rewrite Forall_forall in WF.
  destruct (WF rt (list_elem_of_lookup_2 _ _ _ Et)) as (st & Hs & NDs).
  unfold bind, deref. rewrite Hs. simpl.
  destruct (revise_loop_returns (CONSTRAINT arc) rt rh st false h st
              Hs NDs NDs (fun t H => H)) as (b & cur' & E & ND').
  exists b, (<[rt := PySet cur']> h). split; [exact E |].
  apply Forall_forall. intros r Hr.
  destruct (decide (r = rt)) as [-> | Hne].
  - exists cur'. split; [| exact ND'].
    apply list_lookup_insert_eq. eapply lookup_lt_Some, Hs.
  - destruct (WF r Hr) as (s & Hs' & ND). exists s.
    rewrite list_lookup_insert_ne by congruence. auto.
Qed.

Section WorklistRaises.

Variable constraint_eq : DateConstraint -> DateConstraint -> bool.
Variable pop_choice : nat -> list Arc -> nat.

Lemma initial_arcs_from constraints arcs0 arcs b :
  initial_arcs constraint_eq constraints arcs0 = Ok arcs -> In b arcs ->
  In b arcs0
  \/ exists c, In c constraints /\ (1 <? arity c) = true
               /\ (Arc_init c = Ok b \/ Arc_init (get_reverse c) = Ok b).
Proof.
  revert arcs0. induction constraints as [| c rest IH]; intros arcs0 H Hb;
    simpl in H.
  - inversion H; subst. left. exact Hb.
  - assert (Hrest : forall arcs1,
      initial_arcs constraint_eq rest arcs1 = Ok arcs ->
      In b arcs1
      \/ exists c', In c' (c :: rest) /\ (1 <? arity c') = true
                    /\ (Arc_init c' = Ok b \/ Arc_init (get_reverse c') = Ok b)).
    { intros arcs1 E. destruct (IH _ E Hb) as [Hin | (c' & Hc' & R)].
      - left. exact Hin.
      - right. exists c'. split; [right; exact Hc' | exact R]. }
    destruct (1 <? arity c) eqn:Har; [| apply Hrest, H].
    destruct (Arc_init_binary c Har) as [Ea Er]. rewrite Ea, Er in H.
    simpl in H. destruct (Hrest _ H) as [Hin | R]; [| right; exact R].
    apply arcs_add_In in Hin. destruct Hin as [Hin | ->].
    + apply arcs_add_In in Hin. destruct Hin as [Hin | ->].
      * left. exact Hin.
      * right. exists c. split; [left; reflexivity | auto].
    + right. exists c. split; [left; reflexivity | auto].
Qed.

Lemma ac_loop_raises fuel doms constraints arcs h e h' :
  domains_are_sets h doms ->
  ac_loop constraint_eq pop_choice fuel doms constraints arcs h
  = (Raise e, h') ->
  e = IndexError
  /\ exists b, out_of_bounds doms b
       /\ (In b arcs
           \/ exists c tail, In c constraints /\ R_VAL c = Some tail
                             /\ b = mkArc c (L_VAL c) tail).
Proof.
  revert arcs h. induction fuel as [| fuel IH]; intros arcs h WF H.
  - destruct arcs; discriminate.
  - destruct arcs as [| a0 arcs0]; [discriminate |].
    cbn [ac_loop] in H. unfold bind at 1, ac_step, arcs_pop in H.
    set (arcs := a0 :: arcs0) in *.
    set (i := pop_choice fuel arcs mod length arcs) in *.
    destruct (arcs !! i) as [a | ] eqn:Ei.
    + assert (Ha : In a arcs)
        by (apply list_elem_of_In; eapply list_elem_of_lookup_2, Ei).
      assert (Hsub : forall b, In b (delete i arcs) -> In b arcs).
      { intros b Hb. apply list_elem_of_In. apply list_elem_of_In in Hb.
        eapply list_elem_of_delete_inv, Hb. }
      unfold ac_turn, bind at 1 in H.
      destruct (decide (length doms <= TAIL a \/ length doms <= HEAD a))
        as [Ho | Ho].
      * rewrite (inconsistent_val_removal_out_of_bounds doms a h Ho) in H.
        inversion H; subst. split; [reflexivity |].
        exists a. split; [exact Ho | left; exact Ha].
      * destruct (inconsistent_val_removal_returns doms a h WF Ho)
          as (rm & h1 & E1 & WF1).
        rewrite E1 in H. destruct rm.
        -- destruct (requeue_total constraint_eq constraints (TAIL a)
                       (delete i arcs)) as (arcs2 & Er & _).
           unfold lift in H. rewrite Er in H.
           destruct (IH _ _ WF1 H) as (-> & b & Hob & Hb).
           split; [reflexivity |]. exists b. split; [exact Hob |].
           destruct Hb as [Hb | Hb]; [| right; exact Hb].
           destruct (requeue_adds_forward_only _ _ _ _ _ Er b Hb)
             as [Hin | (c & Hc & Hr & ->)].
           ++ left. apply Hsub, Hin.
           ++ right. exists c, (TAIL a). auto.
        -- unfold ret in H.
           destruct (IH _ _ WF1 H) as (-> & b & Hob & Hb).
           split; [reflexivity |]. exists b. split; [exact Hob |].
           destruct Hb as [Hb | Hb]; [left; apply Hsub, Hb | right; exact Hb].
    + exfalso. apply lookup_ge_None_1 in Ei.
      assert (i < length arcs) by (apply Nat.mod_upper_bound; discriminate).
      lia.
Qed.

Lemma arc_consistency_raises domains constraints h e h' :
  domains_are_sets h domains ->
  arc_consistency constraint_eq pop_choice domains constraints h
  = (Raise e, h') ->
  e = IndexError
  /\ exists c, In c constraints /\ (1 <? arity c) = true
               /\ ~ in_range (length domains) c.
Proof.
  intros WF H. unfold arc_consistency, ac_preprocessing, bind, lift in H.
  destruct (initial_arcs_total constraint_eq constraints []) as (arcs & Ea).
  rewrite Ea in H.
  destruct (ac_loop_raises _ _ _ _ _ _ _ WF H) as (-> & b & Hob & Hb).
  split; [reflexivity |].
  assert (Hbin : forall c r, In c constraints -> R_VAL c = Some r ->
            out_of_bounds domains (mkArc c (L_VAL c) r)
            \/ out_of_bounds domains (mkArc (get_reverse c) r (L_VAL c)) ->
            exists c', In c' constraints /\ (1 <? arity c') = true
                       /\ ~ in_range (length domains) c').
  { intros c r Hc Hr Ho. exists c. split; [exact Hc |].
    destruct c as [l t | l r' t]; [discriminate |].
    simpl in Hr. inversion Hr; subst r'. split; [reflexivity |].
    unfold in_range, out_of_bounds in *. simpl in *.
    intros [Hl Hrr]. specialize (Hrr r eq_refl). lia. }
  destruct Hb as [Hb | (c & tail & Hc & Hr & ->)].
  - destruct (initial_arcs_from _ _ _ _ Ea Hb) as [[] | (c & Hc & Har & Hi)].
    destruct (Arc_init_binary c Har) as [E1 E2].
    destruct c as [l t | l r t]; [discriminate |].
    apply (Hbin (Binary l r t) r Hc eq_refl).
    rewrite E1, E2 in Hi. simpl in Hi.
    destruct Hi as [Hi | Hi]; inversion Hi; subst b; auto.
  - apply (Hbin c tail Hc Hr). left. exact Hob.
Qed.

Lemma arc_consistency_unary_noop domains constraints h :
  Forall (fun c => arity c = 1) constraints ->
  arc_consistency constraint_eq pop_choice domains constraints h = (Ok tt, h).
Proof.
  intros Hu. unfold arc_consistency, ac_preprocessing, bind, lift.
  rewrite (initial_arcs_unary constraint_eq _ [] Hu).
  destruct (ac_fuel h constraints []); reflexivity.
Qed.

End WorklistRaises.

(** ** The entry point, from the caller's side *)

Lemma node_consistency_shared n date_range constraints h s doms h1 :
  h !! date_range = Some (PySet s) ->
  node_consistency (replicate n date_range) constraints h = (Ok doms, h1) ->
  doms = seq (length h) n
  /\ forall v, v < n ->
       h1 !! (length h + v)
       = Some (PySet (List.filter (node_ok constraints v) s)).
Proof.
  intros Hd Hnc. pose proof (lookup_lt_Some _ _ _ Hd) as Hlt.
  assert (V : Forall (fun r => r < length h) (replicate n date_range))
    by (apply Forall_replicate; exact Hlt).
  destruct (node_consistency_exact _ _ _ _ _ V Hnc) as [Hdoms Hcells].
  rewrite length_replicate in Hdoms. split; [exact Hdoms |].
  intros v Hv. rewrite (Hcells v date_range (lookup_replicate_2 _ _ _ Hv)).
  unfold domain_at. rewrite Hd. reflexivity.
Qed.

Lemma node_consistency_shared_sets n date_range constraints h s doms h1 :
  h !! date_range = Some (PySet s) -> NoDup s ->
  node_consistency (replicate n date_range) constraints h = (Ok doms, h1) ->
  length doms = n /\ domains_are_sets h1 doms.
Proof.
  intros Hd ND Hnc.
  destruct (node_consistency_shared _ _ _ _ _ _ _ Hd Hnc) as [-> Hcells].
  split; [apply length_seq |].
  apply Forall_forall. intros r Hr. apply elem_of_seq in Hr.
  exists (List.filter (node_ok constraints (r - length h)) s).
  split; [| apply filter_NoDup, ND].
  rewrite <- (Hcells (r - length h)) by lia. f_equal. lia.
Qed.

Lemma node_consistency_shared_returns n date_range constraints h s :
  h !! date_range = Some (PySet s) -> NoDup s ->
  (forall v d, v < n -> In d s -> rejections constraints v d <= 1) ->
  exists doms h1,
    node_consistency (replicate n date_range) constraints h = (Ok doms, h1).
Proof.
  intros Hd ND Hrej.
  assert (V : Forall (fun r => exists s, h !! r = Some (PySet s) /\ NoDup s)
                (replicate n date_range))
    by (apply Forall_replicate; eauto).
  destruct (node_consistency (replicate n date_range) constraints h)
    as [o h1] eqn:Hnc.
  destruct (node_consistency_outcome _ _ _ _ _ V Hnc)
    as [[(res & ->) _] | [_ (v & r & d & Hv & Hin & Hr)]]; [eauto |].
  apply lookup_replicate in Hv. destruct Hv as [-> Hv].
  unfold domain_at in Hin. rewrite Hd in Hin. simpl in Hin.
  specialize (Hrej v d Hv Hin). lia.
Qed.

Section CallerSide.

Variable constraint_eq : DateConstraint -> DateConstraint -> bool.
Variable pop_choice : nat -> list Arc -> nat.

Lemma solve_raises_cases n date_range constraints h s e h' :
  h !! date_range = Some (PySet s) -> NoDup s ->
  solve constraint_eq pop_choice n date_range constraints h = (Raise e, h') ->
  (e = KeyError
   /\ exists v d, v < n /\ In d s /\ 2 <= rejections constraints v d)
  \/ (e = IndexError /\ ~ Forall (in_range n) constraints).
Proof.
  intros Hd ND H. rewrite solve_forgets_trace in H.
  destruct (solve_traced constraint_eq pop_choice n date_range constraints h)
    as [o h1] eqn:Es.
  simpl in H. injection H as Ho Hh. subst h1.
  apply solve_traced_cases in Es.
  destruct Es as [(o1 & Hnc & Hno & ->)
                 | (doms & h1 & Hnc
                    & [(e' & Hac & ->) | (Hac & o2 & st' & Er & ->)])].
  - destruct o1 as [x | e1 | ]; [destruct (Hno x eq_refl) | | discriminate].
    simpl in Ho. injection Ho as ->.
    apply node_consistency_outcome in Hnc; [| apply Forall_replicate; eauto].
    destruct Hnc as [[(res & D) _] | [D (v & r & d & Hv & Hin & Hr)]];
      [discriminate |].
    left. split; [congruence |].
    apply lookup_replicate in Hv. destruct Hv as [-> Hv].
    unfold domain_at in Hin. rewrite Hd in Hin. simpl in Hin. eauto.
  - simpl in Ho. injection Ho as ->.
    destruct (node_consistency_shared_sets _ _ _ _ _ _ _ Hd ND Hnc)
      as [Hlen WF].
    destruct (arc_consistency_raises _ _ _ _ _ _ _ WF Hac)
      as (-> & c & Hc & _ & Hout).
    right. split; [reflexivity |]. rewrite Hlen in Hout.
    intros F. rewrite Forall_forall in F. apply Hout, F, list_elem_of_In, Hc.
  - destruct o2 as [r | e2 | ]; try discriminate.
    simpl in Ho. injection Ho as ->.
    destruct (node_consistency_shared_sets _ _ _ _ _ _ _ Hd ND Hnc)
      as [Hlen _].
    apply recursive_csp_backtracker_raises in Er.
    + right. rewrite Hlen in Er. exact Er.
    + simpl. rewrite length_replicate. exact Hlen.
Qed.

Lemma solve_returns_on_inputs n date_range constraints h s :
  h !! date_range = Some (PySet s) -> NoDup s ->
  Forall (in_range n) constraints ->
  (forall v d, v < n -> In d s -> rejections constraints v d <= 1) ->
  exists r h',
    solve constraint_eq pop_choice n date_range constraints h = (Ok r, h').
Proof.
  intros Hd ND Hr Hrej.
  destruct (solve constraint_eq pop_choice n date_range constraints h)
    as [[r | e | ] h'] eqn:E.
  - eauto.
  - destruct (solve_raises_cases _ _ _ _ _ _ _ Hd ND E)
      as [(_ & v & d & Hv & Hin & H2) | (_ & Hno)].
    + specialize (Hrej v d Hv Hin). lia.
    + contradiction.
  - pose proof (solve_no_timeout constraint_eq pop_choice n date_range
                  constraints h) as NT.
    rewrite E in NT. destruct NT. reflexivity.
Qed.


Lemma solve_dates_drawn n date_range constraints h s a h' :
  h !! date_range = Some (PySet s) ->
  solve constraint_eq pop_choice n date_range constraints h
  = (Ok (Some a), h') ->
  forall v d, a !! v = Some (Some d) ->
    In d s /\ node_ok constraints v d = true.
Proof.
  intros Hd H v d Hv. rewrite solve_forgets_trace in H.
  destruct (solve_traced constraint_eq pop_choice n date_range constraints h)
    as [o h1] eqn:Es.
  simpl in H. injection H as Ho Hh. subst h1.
  apply solve_traced_cases in Es.
  destruct Es as [(o1 & _ & Hno & ->)
                 | (doms & h1 & Hnc
                    & [(e & _ & ->) | (Hac & o2 & st' & Er & ->)])].
  - destruct o1 as [x | e | ]; [destruct (Hno x eq_refl) | |]; discriminate.
  - discriminate.
  - destruct o2 as [r | e | ]; try discriminate.
    simpl in Ho. injection Ho as ->.
    destruct (recursive_csp_backtracker_drawn _ _ _ _ _ _ _ Er v d Hv)
      as [Hold | (r & Hr & Hin)].
    + simpl in Hold. apply lookup_replicate in Hold.
      destruct Hold as [D _]. discriminate.
    + apply arc_consistency_narrows in Hac. destruct Hac as [_ Hnar].
      apply Hnar in Hin.
      destruct (node_consistency_shared _ _ _ _ _ _ _ Hd Hnc) as [-> Hcells].
      apply lookup_seq in Hr. destruct Hr as [-> Hvn].
      unfold domain_at in Hin. rewrite (Hcells v Hvn) in Hin. simpl in Hin.
      apply filter_In in Hin. exact Hin.
Qed.

Lemma solve_complete_on_inputs n date_range constraints h s a :
  h !! date_range = Some (PySet s) -> NoDup s ->
  (forall v d, v < n -> In d s -> rejections constraints v d <= 1) ->
  length a = n -> drawn_from s a -> all_satisfied constraints a ->
  exists a' h',
    solve constraint_eq pop_choice n date_range constraints h
    = (Ok (Some a'), h')
    /\ full_schedule n a' /\ all_satisfied constraints a'.
Proof.
  intros Hd ND Hrej Hlen Hdr Hsat.
  destruct (node_consistency_shared_returns n date_range constraints h s
              Hd ND Hrej) as (doms & h1 & Hnc).
  eapply solve_complete_when_node_consistency_returns; eassumption.
Qed.

Lemma solve_none_unsatisfiable n date_range constraints h s h' a :
  h !! date_range = Some (PySet s) -> NoDup s ->
  solve constraint_eq pop_choice n date_range constraints h = (Ok None, h') ->
  length a = n -> drawn_from s a -> ~ all_satisfied constraints a.
Proof.
  intros Hd ND H Hlen Hdr Hsat.
  pose proof H as H0. rewrite solve_forgets_trace in H0.
  destruct (solve_traced constraint_eq pop_choice n date_range constraints h)
    as [o h1] eqn:Es.
  simpl in H0. injection H0 as Ho Hh.
  apply solve_traced_cases in Es.
  destruct Es as [(o1 & _ & Hno & ->) | (doms & h2 & Hnc & _)].
  - destruct o1 as [x | e | ]; [destruct (Hno x eq_refl) | |]; discriminate.
  - destruct (solve_complete_when_node_consistency_returns
                constraint_eq pop_choice n date_range constraints h s a
                doms h2 Hd ND Hlen Hdr Hsat Hnc) as (a' & h3 & E & _).
    rewrite E in H. discriminate.
Qed.

End CallerSide.

(** ** Further properties of the solver *)

(** Meetings 0 and 1 with sets of their own, which hold the dates of the
    schedule [1; 2]. *)
Lemma example_domains_hold :
  domains_hold [Some 1%Z; Some 2%Z] [0; 1] [PySet [1; 2]%Z; PySet [1; 2]%Z].
Proof.
  split; [distinct |]. split; [reflexivity |].
  intros [| [| v]] d E; simpl in E;
    [injection E as <- | injection E as <- | discriminate];
    eexists _, _; (split; [reflexivity |]); (split; [reflexivity |]);
    (split; [distinct | simpl; auto]).
Qed.

(** X1: when [node_consistency] returns, slot [v] of the list of domains
    is bound to a set the call created (the slots in order, one set each),
    which holds exactly the dates of the slot's former domain that every
    unary constraint on variable [v] accepts; every object that existed
    before the call is as it was. *)
Theorem node_consistency_result domains constraints h res h' :
  Forall (fun r => r < length h) domains ->
  node_consistency domains constraints h = (Ok res, h') ->
  res = seq (length h) (length domains)
  /\ preserves_old h h'
  /\ forall v r, domains !! v = Some r ->
       h' !! (length h + v)
       = Some (PySet (List.filter (node_ok constraints v) (domain_at h r))).
Proof.
  intros V H. destruct (node_consistency_exact _ _ _ _ _ V H) as [Hres Hcells].
  split; [exact Hres |]. split; [| exact Hcells].
  apply node_consistency_fresh in H. apply H.
Qed.

Lemma node_consistency_result_witness :
  let h := [PySet [1; 2; 3]%Z; PySet [1; 2]%Z] in
  let h' := [PySet [1; 2; 3]%Z; PySet [1; 2]%Z;
             PySet [2; 3]%Z; PySet [1; 2]%Z] in
  Forall (fun r => r < length h) [0; 1]
  /\ node_consistency [0; 1] [after_date 0 1] h = (Ok [2; 3], h')
  /\ [2; 3] = seq (length h) (length [0; 1])
  /\ preserves_old h h'
  /\ forall v r, [0; 1] !! v = Some r ->
       h' !! (length h + v)
       = Some (PySet (List.filter (node_ok [after_date 0 1] v)
                                  (domain_at h r))).
Proof.
  cbv zeta. split; [repeat constructor |]. split; [reflexivity |].
  apply (node_consistency_result [0; 1] [after_date 0 1]
           [PySet [1; 2; 3]%Z; PySet [1; 2]%Z] [2; 3]
           [PySet [1; 2; 3]%Z; PySet [1; 2]%Z;
            PySet [2; 3]%Z; PySet [1; 2]%Z]).
  - repeat constructor.
  - reflexivity.
Defined.

(** X2: on domains that are sets, [node_consistency] either returns, and
    then no date of a domain is rejected by more than one unary constraint
    on its variable, or raises [KeyError], and then some date of some
    domain is rejected by two or more of them. It raises nothing else. *)
Theorem node_consistency_raises_on_second_rejection
    domains constraints h o h' :
  domains_are_sets h domains ->
  node_consistency domains constraints h = (o, h') ->
  ((exists res, o = Ok res)
   /\ forall v r d, domains !! v = Some r -> In d (domain_at h r) ->
        rejections constraints v d <= 1)
  \/ (o = Raise KeyError
      /\ exists v r d, domains !! v = Some r /\ In d (domain_at h r)
                       /\ 2 <= rejections constraints v d).
Proof. apply node_consistency_outcome. Qed.

Lemma node_consistency_raises_on_second_rejection_witness :
  let h := [PySet [1; 2]%Z] in
  let constraints := [after_date 0 1; not_on_date 0 1] in
  domains_are_sets h [0]
  /\ node_consistency [0] constraints h
     = (Raise KeyError, [PySet [1; 2]%Z; PySet [2]%Z])
  /\ (((exists res, @Raise (list nat) KeyError = Ok res)
       /\ forall v r d, [0] !! v = Some r -> In d (domain_at h r) ->
            rejections constraints v d <= 1)
      \/ (@Raise (list nat) KeyError = Raise KeyError
          /\ exists v r d, [0] !! v = Some r /\ In d (domain_at h r)
                           /\ 2 <= rejections constraints v d)).
Proof.
  cbv zeta. split; [sets |]. split; [reflexivity |].
  apply (node_consistency_raises_on_second_rejection [0]
           [after_date 0 1; not_on_date 0 1] [PySet [1; 2]%Z]
           (Raise KeyError) [PySet [1; 2]%Z; PySet [2]%Z]).
  - sets.
  - reflexivity.
Defined.

(** X3: running [node_consistency] again on the domains it returned
    returns again, and variable for variable the new domain holds what the
    old one held. *)
Theorem node_consistency_second_run domains constraints h res h1 :
  Forall (fun r => r < length h) domains ->
  node_consistency domains constraints h = (Ok res, h1) ->
  exists res2 h2,
    node_consistency res constraints h1 = (Ok res2, h2)
    /\ forall v r, res !! v = Some r ->
         exists r2, res2 !! v = Some r2 /\ h2 !! r2 = h1 !! r.
Proof. apply node_consistency_idempotent. Qed.

Lemma node_consistency_second_run_witness :
  let h := [PySet [1; 2; 3]%Z; PySet [1; 2]%Z] in
  let h1 := [PySet [1; 2; 3]%Z; PySet [1; 2]%Z;
             PySet [2; 3]%Z; PySet [1; 2]%Z] in
  Forall (fun r => r < length h) [0; 1]
  /\ node_consistency [0; 1] [after_date 0 1] h = (Ok [2; 3], h1)
  /\ exists res2 h2,
       node_consistency [2; 3] [after_date 0 1] h1 = (Ok res2, h2)
       /\ forall v r, [2; 3] !! v = Some r ->
            exists r2, res2 !! v = Some r2 /\ h2 !! r2 = h1 !! r.
Proof.
  cbv zeta. split; [repeat constructor |]. split; [reflexivity |].
  apply (node_consistency_second_run [0; 1] [after_date 0 1]
           [PySet [1; 2; 3]%Z; PySet [1; 2]%Z] [2; 3]
           [PySet [1; 2; 3]%Z; PySet [1; 2]%Z;
            PySet [2; 3]%Z; PySet [1; 2]%Z]).
  - repeat constructor.
  - reflexivity.
Defined.

(** X4: [node_consistency] looks at the constraints of arity 1 only: the
    call has the same outcome and leaves the same store when every other
    constraint is taken out of the collection. *)
Theorem node_consistency_unary_only domains constraints h :
  node_consistency domains constraints h
  = node_consistency domains
      (List.filter (fun c => arity c =? 1) constraints) h.
Proof. apply node_consistency_filter_unary. Qed.

(** X5: a revision of the arc between two different sets returns, leaves
    in the tail's set exactly the values for which the head's set holds a
    value satisfying the arc's constraint, and returns [True] exactly when
    one of the tail's values had none. *)
Theorem revision_keeps_supported doms arc h rt rh st :
  doms !! TAIL arc = Some rt -> doms !! HEAD arc = Some rh ->
  rt <> rh ->
  h !! rt = Some (PySet st) -> NoDup st ->
  inconsistent_val_removal doms arc h
  = (Ok (negb (forallb (supported (CONSTRAINT arc) (domain_at h rh)) st)),
     <[rt := PySet (List.filter
                      (supported (CONSTRAINT arc) (domain_at h rh)) st)]> h).
Proof. apply inconsistent_val_removal_exact. Qed.

Lemma revision_keeps_supported_witness :
  let h := [PySet [1; 2; 3]%Z; PySet [1; 2]%Z] in
  let arc := mkArc (strictly_before 0 1) 0 1 in
  [0; 1] !! TAIL arc = Some 0 /\ [0; 1] !! HEAD arc = Some 1
  /\ 0 <> 1
  /\ h !! 0 = Some (PySet [1; 2; 3]%Z) /\ NoDup [1; 2; 3]%Z
  /\ inconsistent_val_removal [0; 1] arc h
     = (Ok (negb (forallb (supported (CONSTRAINT arc) (domain_at h 1))
                          [1; 2; 3]%Z)),
        <[0 := PySet (List.filter
                        (supported (CONSTRAINT arc) (domain_at h 1))
                        [1; 2; 3]%Z)]> h).
Proof.
  cbv zeta. split; [reflexivity |]. split; [reflexivity |].
  split; [lia |]. split; [reflexivity |]. split; [distinct |].
  apply (revision_keeps_supported [0; 1] (mkArc (strictly_before 0 1) 0 1)
           [PySet [1; 2; 3]%Z; PySet [1; 2]%Z] 0 1 [1; 2; 3]%Z).
  - reflexivity.
  - reflexivity.
  - lia.
  - reflexivity.
  - distinct.
Defined.

(** X6: whatever a revision does, it writes to no object but the set of
    its arc's tail and adds no value to any set; if it returns [True] the
    store has lost a value, if it returns [False] the store is as it was;
    and an arc that names a variable outside the list of domains makes it
    raise [IndexError] with the store as it was. *)
Theorem revision_effects doms arc h o h' :
  inconsistent_val_removal doms arc h = (o, h') ->
  writes_within (fun r => doms !! TAIL arc = Some r) h h'
  /\ narrows h h'
  /\ (o = Ok true -> store_size h' < store_size h)
  /\ (o = Ok false -> h' = h)
  /\ (out_of_bounds doms arc -> o = Raise IndexError /\ h' = h).
Proof.
  intros H.
  pose proof (inconsistent_val_removal_facts _ _ _ _ _ H)
    as (W & _ & _ & R1 & R2).
  split; [exact W |].
  split; [eapply inconsistent_val_removal_narrows, H |].
  split; [exact R1 |]. split; [exact R2 |].
  intros Ho. rewrite (inconsistent_val_removal_out_of_bounds doms arc h Ho) in H.
  injection H as <- <-. auto.
Qed.

Lemma revision_effects_witness :
  let h := [PySet [1; 2; 3]%Z; PySet [1; 2]%Z] in
  let h' := [PySet [1%Z]; PySet [1; 2]%Z] in
  let arc := mkArc (strictly_before 0 1) 0 1 in
  inconsistent_val_removal [0; 1] arc h = (Ok true, h')
  /\ writes_within (fun r => [0; 1] !! TAIL arc = Some r) h h'
  /\ narrows h h'
  /\ (Ok true = Ok true -> store_size h' < store_size h)
  /\ (Ok true = Ok false -> h' = h)
  /\ (out_of_bounds [0; 1] arc -> Ok true = Raise IndexError /\ h' = h).
Proof.
  cbv zeta. split; [reflexivity |].
  apply (revision_effects [0; 1] (mkArc (strictly_before 0 1) 0 1)
           [PySet [1; 2; 3]%Z; PySet [1; 2]%Z] (Ok true)
           [PySet [1%Z]; PySet [1; 2]%Z]).
  reflexivity.
Defined.

(** X7: a call of the search that returns [None] (or the empty list)
    leaves the assignment vector as it found it; a list it returns is the
    vector itself, of the same length as at the call, with a datetime in
    every slot, and, if the vector it started from had an empty slot or
    passed every constraint, every constraint accepts it. *)
Theorem search_returns_its_vector fuel h doms constraints st r st' :
  recursive_csp_backtracker fuel h doms constraints st = (Ok r, st') ->
  (truthy r = false -> assignments st' = assignments st)
  /\ forall a, r = Some a ->
       a = assignments st'
       /\ Forall (fun slot => is_Some slot) a
       /\ length a = length (assignments st)
       /\ (checked constraints st -> all_satisfied constraints a).
Proof.
  intros H. apply recursive_csp_backtracker_contract in H. exact H.
Qed.

Lemma search_returns_its_vector_witness :
  let h := [PySet [2%Z]; PySet [1; 2]%Z] in
  let constraints := [strictly_before 0 1] in
  let st := mkSearch [None; None] [] in
  let st' := mkSearch [None; None] [(1, 2%Z); (1, 1%Z); (0, 2%Z)] in
  recursive_csp_backtracker 2 h [0; 1] constraints st = (Ok None, st')
  /\ (truthy None = false -> assignments st' = assignments st)
  /\ forall a, None = Some a ->
       a = assignments st'
       /\ Forall (fun slot => is_Some slot) a
       /\ length a = length (assignments st)
       /\ (checked constraints st -> all_satisfied constraints a).
Proof.
  cbv zeta. split; [reflexivity |].
  apply (search_returns_its_vector 2 [PySet [2%Z]; PySet [1; 2]%Z] [0; 1]
           [strictly_before 0 1] (mkSearch [None; None] []) None
           (mkSearch [None; None] [(1, 2%Z); (1, 1%Z); (0, 2%Z)])).
  reflexivity.
Defined.

(** X8: every date of a schedule the search returns was in the vector at
    the call or is a member of the domain of its variable. *)
Theorem search_dates_from_domains fuel h doms constraints st a st' :
  recursive_csp_backtracker fuel h doms constraints st
  = (Ok (Some a), st') ->
  forall w d, a !! w = Some (Some d) ->
    assignments st !! w = Some (Some d)
    \/ exists r, doms !! w = Some r /\ In d (domain_at h r).
Proof. apply recursive_csp_backtracker_drawn. Qed.

Lemma search_dates_from_domains_witness :
  let h := [PySet [1; 2]%Z; PySet [1; 2]%Z] in
  let st := mkSearch [None; None] [] in
  let a := [Some 1%Z; Some 2%Z] in
  recursive_csp_backtracker 2 h [0; 1] [strictly_before 0 1] st
  = (Ok (Some a), mkSearch a [(1, 2%Z); (1, 1%Z); (0, 1%Z)])
  /\ forall w d, a !! w = Some (Some d) ->
       assignments st !! w = Some (Some d)
       \/ exists r, [0; 1] !! w = Some r /\ In d (domain_at h r).
Proof.
  cbv zeta. split; [reflexivity |].
  apply (search_dates_from_domains 2 [PySet [1; 2]%Z; PySet [1; 2]%Z] [0; 1]
           [strictly_before 0 1] (mkSearch [None; None] [])
           [Some 1%Z; Some 2%Z]
           (mkSearch [Some 1%Z; Some 2%Z] [(1, 2%Z); (1, 1%Z); (0, 1%Z)])).
  reflexivity.
Defined.

(** X9: if some schedule satisfies every constraint and every meeting has
    a set of its own that holds the date the schedule gives it, the search
    started on the empty vector returns a schedule. *)
Theorem search_complete constraints a h doms tried :
  Forall (fun slot => is_Some slot) a ->
  all_satisfied constraints a ->
  domains_hold a doms h ->
  exists a' st',
    recursive_csp_backtracker (length a) h doms constraints
      (mkSearch (replicate (length a) None) tried)
    = (Ok (Some a'), st').
Proof.
  intros Hfull Hsat Hh.
  apply (search_finds constraints a Hfull Hsat h doms (length a) 0
           (mkSearch (replicate (length a) None) tried) Hh); [lia | lia |].
  simpl. unfold partial_schedule. rewrite take_0, Nat.sub_0_r. reflexivity.
Qed.

Lemma search_complete_witness :
  let a := [Some 1%Z; Some 2%Z] in
  let h := [PySet [1; 2]%Z; PySet [1; 2]%Z] in
  Forall (fun slot => is_Some slot) a
  /\ all_satisfied [strictly_before 0 1] a
  /\ domains_hold a [0; 1] h
  /\ exists a' st',
       recursive_csp_backtracker (length a) h [0; 1] [strictly_before 0 1]
         (mkSearch (replicate (length a) None) [])
       = (Ok (Some a'), st').
Proof.
  cbv zeta. split; [repeat econstructor |]. split; [repeat constructor |].
  split; [exact example_domains_hold |].
  apply (search_complete [strictly_before 0 1] [Some 1%Z; Some 2%Z]
           [PySet [1; 2]%Z; PySet [1; 2]%Z] [0; 1] []).
  - repeat econstructor.
  - repeat constructor.
  - exact example_domains_hold.
Defined.

(** X10: with one domain per slot of the vector, the search raises
    nothing but [IndexError], and that only when some constraint names a
    variable outside the meetings. *)
Theorem search_raises_index_error fuel h doms constraints st e st' :
  length doms = length (assignments st) ->
  recursive_csp_backtracker fuel h doms constraints st = (Raise e, st') ->
  e = IndexError /\ ~ Forall (in_range (length doms)) constraints.
Proof. apply recursive_csp_backtracker_raises. Qed.

Lemma search_raises_index_error_witness :
  let st := mkSearch [None] [] in
  length [0] = length (assignments st)
  /\ recursive_csp_backtracker 1 [PySet [1%Z]] [0] [strictly_before 0 1] st
     = (Raise IndexError, mkSearch [Some 1%Z] [(0, 1%Z)])
  /\ IndexError = IndexError
  /\ ~ Forall (in_range (length [0])) [strictly_before 0 1].
Proof.
  cbv zeta. split; [reflexivity |]. split; [reflexivity |].
  apply (search_raises_index_error 1 [PySet [1%Z]] [0] [strictly_before 0 1]
           (mkSearch [None] []) IndexError
           (mkSearch [Some 1%Z] [(0, 1%Z)])).
  - reflexivity.
  - reflexivity.
Defined.

Section Properties.

Variable constraint_eq : DateConstraint -> DateConstraint -> bool.
Variable pop_choice : nat -> list Arc -> nat.

(** X11: the worklist loop ends, whatever arc each [pop()] yields: it
    makes at most as many turns as there are arcs in the worklist plus,
    for every value held in the store, one more than the number of
    constraints. *)
Theorem worklist_loop_ends fuel doms constraints arcs h :
  ac_fuel h constraints arcs <= fuel ->
  fst (ac_loop constraint_eq pop_choice fuel doms constraints arcs h)
  <> Timeout.
Proof.
  intros Hf.
  destruct (ac_loop constraint_eq pop_choice fuel doms constraints arcs h)
    as [o h'] eqn:E.
  apply ac_loop_facts in E. simpl. apply E, Hf.
Qed.

(** X12: [arc_consistency] returns or raises, writes to no object but the
    sets of the given domains, and adds no value to any set. *)
Theorem arc_consistency_only_shrinks domains constraints h o h' :
  arc_consistency constraint_eq pop_choice domains constraints h = (o, h') ->
  o <> Timeout
  /\ writes_within (fun r => In r domains) h h'
  /\ narrows h h'.
Proof.
  intros H. pose proof (arc_consistency_facts _ _ _ _ _ _ _ H) as [W NT].
  split; [exact NT |]. split; [exact W |].
  eapply arc_consistency_narrows, H.
Qed.

(** X13: [arc_consistency] removes no date of a schedule that satisfies
    every constraint: if every meeting has a set of its own that holds the
    date the schedule gives it, the call returns and the sets still hold
    those dates. *)
Theorem arc_consistency_keeps_solutions constraints a doms h :
  Forall (fun slot => is_Some slot) a ->
  all_satisfied constraints a ->
  domains_hold a doms h ->
  exists h',
    arc_consistency constraint_eq pop_choice doms constraints h = (Ok tt, h')
    /\ domains_hold a doms h'.
Proof.
  intros Hfull Hsat. apply arc_consistency_keeps; assumption.
Qed.

(** X14: on domains that are sets, [arc_consistency] raises exactly when
    some constraint of arity above 1 names a variable outside the list of
    domains, and what it raises is [IndexError]. *)
Theorem arc_consistency_raises_iff domains constraints h o h' :
  domains_are_sets h domains ->
  arc_consistency constraint_eq pop_choice domains constraints h = (o, h') ->
  ((exists e, o = Raise e)
   <-> exists c, In c constraints /\ (1 <? arity c) = true
                 /\ ~ in_range (length domains) c)
  /\ forall e, o = Raise e -> e = IndexError.
Proof.
  intros WF H. split; [split |].
  - intros (e & ->). eapply arc_consistency_raises; eassumption.
  - intros (c & Hc & Har & Hout).
    eapply arc_consistency_out_of_bounds; eassumption.
  - intros e ->. eapply arc_consistency_raises; eassumption.
Qed.

(** X15: with no constraint of arity above 1, [arc_consistency] returns
    and leaves the store as it was. *)
Theorem arc_consistency_without_binary domains constraints h :
  Forall (fun c => arity c = 1) constraints ->
  arc_consistency constraint_eq pop_choice domains constraints h = (Ok tt, h).
Proof. apply arc_consistency_unary_noop. Qed.

(** X16: building the initial worklist never raises; the worklist has at
    most two arcs per constraint; for every constraint of arity above 1
    it holds the arc of the constraint and the arc of its reverse (or
    arcs equal to them); and it holds nothing else. *)
Theorem initial_worklist constraints :
  exists arcs,
    initial_arcs constraint_eq constraints [] = Ok arcs
    /\ length arcs <= 2 * length constraints
    /\ (forall c a, In c constraints -> (1 <? arity c) = true ->
          Arc_init c = Ok a \/ Arc_init (get_reverse c) = Ok a ->
          exists b, In b arcs /\ (b = a \/ Arc_eqb constraint_eq b a = true))
    /\ forall b, In b arcs ->
         exists c, In c constraints /\ (1 <? arity c) = true
                   /\ (Arc_init c = Ok b \/ Arc_init (get_reverse c) = Ok b).
Proof.
  destruct (initial_arcs_total constraint_eq constraints []) as (arcs & E).
  exists arcs. split; [exact E |].
  split; [apply initial_arcs_length in E; simpl in E; lia |].
  split.
  - intros c a Hc Har Ha. eapply initial_arcs_seeds; eassumption.
  - intros b Hb.
    destruct (initial_arcs_from _ _ _ _ _ E Hb) as [[] | R]. exact R.
Qed.

(** X17: after a revision that removed a value, every arc of the worklist
    stays in it, and what is added are arcs [Arc(constraint)] of
    constraints of the collection whose [R_VAL] is the revised tail: the
    arc of a reversed constraint is never put back. Nothing is raised. *)
Theorem requeue_contents constraints tail arcs :
  exists arcs',
    requeue constraint_eq constraints tail arcs = Ok arcs'
    /\ (forall b, In b arcs -> In b arcs')
    /\ forall b, In b arcs' ->
         In b arcs
         \/ exists c, In c constraints /\ R_VAL c = Some tail
                      /\ b = mkArc c (L_VAL c) tail.
Proof.
  destruct (requeue_total constraint_eq constraints tail arcs)
    as (arcs' & E & _).
  exists arcs'. split; [exact E |]. split.
  - intros b Hb. eapply requeue_keeps; eassumption.
  - apply (requeue_adds_forward_only constraint_eq _ _ _ _ E).
Qed.


(** X19: every date of a schedule that [solve] returns is one of the
    caller's candidates, and one that every unary constraint on its
    meeting accepts. *)
Theorem solve_dates_from_candidates n date_range constraints h s a h' :
  h !! date_range = Some (PySet s) ->
  solve constraint_eq pop_choice n date_range constraints h
  = (Ok (Some a), h') ->
  forall v d, a !! v = Some (Some d) ->
    In d s /\ node_ok constraints v d = true.
Proof. apply solve_dates_drawn. Qed.

(** X20: when [solve] returns [None] on a candidate set, no schedule of
    [n] dates drawn from the candidates satisfies every constraint. *)
Theorem solve_none_means_unsatisfiable n date_range constraints h s h' a :
  h !! date_range = Some (PySet s) -> NoDup s ->
  solve constraint_eq pop_choice n date_range constraints h = (Ok None, h') ->
  length a = n -> drawn_from s a -> ~ all_satisfied constraints a.
Proof. apply solve_none_unsatisfiable. Qed.

(** X21: on a candidate set of which no date is rejected by two unary
    constraints on the same meeting, [solve] returns a schedule whenever
    one exists among the candidates, and the schedule it returns is full
    and satisfies every constraint. *)
Theorem solve_complete n date_range constraints h s a :
  h !! date_range = Some (PySet s) -> NoDup s ->
  (forall v d, v < n -> In d s -> rejections constraints v d <= 1) ->
  length a = n -> drawn_from s a -> all_satisfied constraints a ->
  exists a' h',
    solve constraint_eq pop_choice n date_range constraints h
    = (Ok (Some a'), h')
    /\ full_schedule n a' /\ all_satisfied constraints a'.
Proof. apply solve_complete_on_inputs. Qed.

(** X22: on a candidate set, [solve] raises only [KeyError], when some
    candidate is rejected by two or more unary constraints on one
    meeting, or [IndexError], when some constraint names a variable
    outside the meetings. *)
Theorem solve_raises n date_range constraints h s e h' :
  h !! date_range = Some (PySet s) -> NoDup s ->
  solve constraint_eq pop_choice n date_range constraints h = (Raise e, h') ->
  (e = KeyError
   /\ exists v d, v < n /\ In d s /\ 2 <= rejections constraints v d)
  \/ (e = IndexError /\ ~ Forall (in_range n) constraints).
Proof. apply solve_raises_cases. Qed.

(** X23: on a candidate set, when every constraint names meetings only
    and no candidate is rejected by two unary constraints on the same
    meeting, [solve] returns: a schedule or [None]. *)
Theorem solve_returns n date_range constraints h s :
  h !! date_range = Some (PySet s) -> NoDup s ->
  Forall (in_range n) constraints ->
  (forall v d, v < n -> In d s -> rejections constraints v d <= 1) ->
  exists r h',
    solve constraint_eq pop_choice n date_range constraints h = (Ok r, h').
Proof. apply solve_returns_on_inputs. Qed.

(** X24: [solve] returns or raises on every input, whatever arc each
    [pop()] yields: the worklist loop and the recursion both end. *)
Theorem solve_terminates n date_range constraints h :
  fst (solve constraint_eq pop_choice n date_range constraints h) <> Timeout.
Proof. apply solve_no_timeout. Qed.

End Properties.

Lemma worklist_loop_ends_witness :
  let h := [PySet [1; 2]%Z; PySet [1; 2]%Z] in
  let arcs := [mkArc (strictly_before 0 1) 0 1] in
  ac_fuel h [strictly_before 0 1] arcs <= 9
  /\ fst (ac_loop same_variables in_insertion_order 9 [0; 1]
                  [strictly_before 0 1] arcs h) <> Timeout.
Proof.
  cbv zeta. split; [unfold ac_fuel, store_size; simpl; lia |].
  apply (worklist_loop_ends same_variables in_insertion_order 9 [0; 1]
           [strictly_before 0 1] [mkArc (strictly_before 0 1) 0 1]
           [PySet [1; 2]%Z; PySet [1; 2]%Z]).
  unfold ac_fuel, store_size; simpl; lia.
Defined.

Lemma arc_consistency_only_shrinks_witness :
  let h := [PySet [1; 2]%Z; PySet [1; 2]%Z] in
  let h' := [PySet [1%Z]; PySet [2%Z]] in
  arc_consistency same_variables in_insertion_order [0; 1]
                  [strictly_before 0 1] h = (Ok tt, h')
  /\ Ok tt <> Timeout
  /\ writes_within (fun r => In r [0; 1]) h h'
  /\ narrows h h'.
Proof.
  cbv zeta. split; [reflexivity |].
  apply (arc_consistency_only_shrinks same_variables in_insertion_order
           [0; 1] [strictly_before 0 1] [PySet [1; 2]%Z; PySet [1; 2]%Z]
           (Ok tt) [PySet [1%Z]; PySet [2%Z]]).
  reflexivity.
Defined.

Lemma arc_consistency_keeps_solutions_witness :
  let a := [Some 1%Z; Some 2%Z] in
  let h := [PySet [1; 2]%Z; PySet [1; 2]%Z] in
  Forall (fun slot => is_Some slot) a
  /\ all_satisfied [strictly_before 0 1] a
  /\ domains_hold a [0; 1] h
  /\ exists h',
       arc_consistency same_variables in_insertion_order [0; 1]
                       [strictly_before 0 1] h = (Ok tt, h')
       /\ domains_hold a [0; 1] h'.
Proof.
  cbv zeta. split; [repeat econstructor |]. split; [repeat constructor |].
  split; [exact example_domains_hold |].
  apply (arc_consistency_keeps_solutions same_variables in_insertion_order
           [strictly_before 0 1] [Some 1%Z; Some 2%Z] [0; 1]
           [PySet [1; 2]%Z; PySet [1; 2]%Z]).
  - repeat econstructor.
  - repeat constructor.
  - exact example_domains_hold.
Defined.

Lemma arc_consistency_raises_iff_witness :
  let h := [PySet [1; 2]%Z] in
  let constraints := [strictly_before 0 1] in
  domains_are_sets h [0]
  /\ arc_consistency same_variables in_insertion_order [0] constraints h
     = (Raise IndexError, h)
  /\ ((exists e, @Raise unit IndexError = Raise e)
      <-> exists c, In c constraints /\ (1 <? arity c) = true
                    /\ ~ in_range (length [0]) c)
  /\ forall e, @Raise unit IndexError = Raise e -> e = IndexError.
Proof.
  cbv zeta. split; [sets |]. split; [reflexivity |].
  apply (arc_consistency_raises_iff same_variables in_insertion_order [0]
           [strictly_before 0 1] [PySet [1; 2]%Z] (Raise IndexError)
           [PySet [1; 2]%Z]).
  - sets.
  - reflexivity.
Defined.

Lemma arc_consistency_without_binary_witness :
  Forall (fun c => arity c = 1) [on_date 0 1]
  /\ arc_consistency same_variables in_insertion_order [0] [on_date 0 1]
                     [PySet [1; 2]%Z]
     = (Ok tt, [PySet [1; 2]%Z]).
Proof.
  split; [repeat constructor |].
  apply (arc_consistency_without_binary same_variables in_insertion_order
           [0] [on_date 0 1] [PySet [1; 2]%Z]).
  repeat constructor.
Defined.


Lemma solve_dates_from_candidates_witness :
  let h := caller_store (PySet [1; 2; 3]%Z) in
  let a := [Some 1%Z; Some 2%Z] in
  h !! 0 = Some (PySet [1; 2; 3]%Z)
  /\ solve same_variables in_insertion_order 2 0 [strictly_before 0 1] h
     = (Ok (Some a), [PySet [1; 2; 3]%Z; PySet [1; 2]%Z; PySet [2; 3]%Z])
  /\ forall v d, a !! v = Some (Some d) ->
       In d [1; 2; 3]%Z /\ node_ok [strictly_before 0 1] v d = true.
Proof.
  cbv zeta. split; [reflexivity |]. split; [reflexivity |].
  apply (solve_dates_from_candidates same_variables in_insertion_order 2 0
           [strictly_before 0 1] (caller_store (PySet [1; 2; 3]%Z))
           [1; 2; 3]%Z [Some 1%Z; Some 2%Z]
           [PySet [1; 2; 3]%Z; PySet [1; 2]%Z; PySet [2; 3]%Z]).
  - reflexivity.
  - reflexivity.
Defined.

Lemma solve_none_means_unsatisfiable_witness :
  let h := caller_store (PySet [1; 2]%Z) in
  let constraints := [strictly_before 0 1; strictly_before 1 0] in
  let a := [Some 1%Z; Some 2%Z] in
  h !! 0 = Some (PySet [1; 2]%Z) /\ NoDup [1; 2]%Z
  /\ solve same_variables in_insertion_order 2 0 constraints h
     = (Ok None, [PySet [1; 2]%Z; PySet [1%Z]; PySet [2%Z]])
  /\ length a = 2 /\ drawn_from [1; 2]%Z a
  /\ ~ all_satisfied constraints a.
Proof.
  cbv zeta. split; [reflexivity |]. split; [distinct |].
  split; [reflexivity |]. split; [reflexivity |]. split; [drawn |].
  apply (solve_none_means_unsatisfiable same_variables in_insertion_order
           2 0 [strictly_before 0 1; strictly_before 1 0]
           (caller_store (PySet [1; 2]%Z)) [1; 2]%Z
           [PySet [1; 2]%Z; PySet [1%Z]; PySet [2%Z]]
           [Some 1%Z; Some 2%Z]).
  - reflexivity.
  - distinct.
  - reflexivity.
  - reflexivity.
  - drawn.
Defined.

Lemma solve_complete_witness :
  let h := caller_store (PySet [1; 2; 3]%Z) in
  let constraints := [strictly_before 0 1] in
  let a := [Some 2%Z; Some 3%Z] in
  h !! 0 = Some (PySet [1; 2; 3]%Z) /\ NoDup [1; 2; 3]%Z
  /\ (forall v d, v < 2 -> In d [1; 2; 3]%Z ->
        rejections constraints v d <= 1)
  /\ length a = 2 /\ drawn_from [1; 2; 3]%Z a
  /\ all_satisfied constraints a
  /\ exists a' h',
       solve same_variables in_insertion_order 2 0 constraints h
       = (Ok (Some a'), h')
       /\ full_schedule 2 a' /\ all_satisfied constraints a'.
Proof.
  cbv zeta. split; [reflexivity |]. split; [distinct |].
  split; [intros v d _ _; unfold rejections; simpl; lia |].
  split; [reflexivity |]. split; [drawn |]. split; [repeat constructor |].
  apply (solve_complete same_variables in_insertion_order 2 0
           [strictly_before 0 1] (caller_store (PySet [1; 2; 3]%Z))
           [1; 2; 3]%Z [Some 2%Z; Some 3%Z]).
  - reflexivity.
  - distinct.
  - intros v d _ _. unfold rejections. simpl. lia.
  - reflexivity.
  - drawn.
  - repeat constructor.
Defined.

Lemma solve_raises_witness :
  let h := caller_store (PySet [1; 2]%Z) in
  let constraints := [strictly_before 0 1] in
  h !! 0 = Some (PySet [1; 2]%Z) /\ NoDup [1; 2]%Z
  /\ solve same_variables in_insertion_order 1 0 constraints h
     = (Raise IndexError, [PySet [1; 2]%Z; PySet [1; 2]%Z])
  /\ ((IndexError = KeyError
       /\ exists v d, v < 1 /\ In d [1; 2]%Z
                      /\ 2 <= rejections constraints v d)
      \/ (IndexError = IndexError /\ ~ Forall (in_range 1) constraints)).
Proof.
  cbv zeta. split; [reflexivity |]. split; [distinct |].
  split; [reflexivity |].
  apply (solve_raises same_variables in_insertion_order 1 0
           [strictly_before 0 1] (caller_store (PySet [1; 2]%Z)) [1; 2]%Z
           IndexError [PySet [1; 2]%Z; PySet [1; 2]%Z]).
  - reflexivity.
  - distinct.
  - reflexivity.
Defined.

Lemma solve_returns_witness :
  let h := caller_store (PySet [1; 2; 3]%Z) in
  let constraints := [strictly_before 0 1; after_date 1 2] in
  h !! 0 = Some (PySet [1; 2; 3]%Z) /\ NoDup [1; 2; 3]%Z
  /\ Forall (in_range 2) constraints
  /\ (forall v d, v < 2 -> In d [1; 2; 3]%Z ->
        rejections constraints v d <= 1)
  /\ exists r h',
       solve same_variables in_insertion_order 2 0 constraints h
       = (Ok r, h').
Proof.
  assert (R : Forall (in_range 2) [strictly_before 0 1; after_date 1 2]).
  { repeat (apply Forall_cons; split;
            [split; [simpl; lia
                    | simpl; intros r E; try discriminate;
                      injection E as <-; lia] |]).
    apply Forall_nil_2. }
  assert (J : forall v d, v < 2 -> In d [1; 2; 3]%Z ->
                rejections [strictly_before 0 1; after_date 1 2] v d <= 1).
  { intros v d _ _. unfold rejections. simpl.
    destruct (_ && negb (2 <? d)%Z); simpl; lia. }
  cbv zeta. split; [reflexivity |]. split; [distinct |].
  split; [exact R |]. split; [exact J |].
  apply (solve_returns same_variables in_insertion_order 2 0
           [strictly_before 0 1; after_date 1 2]
           (caller_store (PySet [1; 2; 3]%Z)) [1; 2; 3]%Z).
  - reflexivity.
  - distinct.
  - exact R.
  - exact J.
Defined.
